(** * The Markdown renderer of script.js: [escapeHtml], [parseMarkdown],
      [parseTable] and [parseInlineMarkdown]

    The renderer is a fixed pipeline of [String.prototype.replace] calls
    over regular expressions.  The development therefore has three layers:

    - JavaScript strings as lists of UTF-16 code units, with the string
      methods the renderer calls ([trim], [split], [join], ...);
    - a backtracking matcher for the regular-expression fragment the
      renderer uses, with the priorities of the ECMAScript matcher
      (greedy and lazy quantifiers, ordered alternation, capture groups,
      back-references, line anchors, look-around), global replacement with
      a callback or with a [$]-template;
    - the four functions, transcribed statement by statement. *)

From Stdlib Require Import String Ascii.
From Stdlib Require Import List NArith ZArith Arith Bool Lia.
Import ListNotations.

Set Implicit Arguments.

(** ** Strings *)

(** A code unit and a JavaScript string. *)
Definition char := N.
Definition str := list char.

Definition ch (a : ascii) : char := N_of_ascii a.
Arguments ch a%_char.

(** [u "abc"] is the JavaScript string literal ['abc']. *)
Definition u (s : string) : str := map ch (list_ascii_of_string s).
Arguments u s%_string.

Definition dquote : char := 34%N.
Definition squote : char := 39%N.
Definition nl : char := 10%N.

(** [uq] reads a literal in which every apostrophe stands for a double
    quote; it is used for the HTML templates, none of which contains an
    apostrophe of its own. *)
Definition uq (s : string) : str :=
  map (fun c => if N.eqb c squote then dquote else c) (u s).
Arguments uq s%_string.

Definition c_in (lo hi : ascii) (c : char) : bool :=
  (N.leb (ch lo) c && N.leb c (ch hi))%bool.
Arguments c_in (lo hi)%_char c.

Definition c_is (a : ascii) (c : char) : bool := N.eqb c (ch a).
Arguments c_is a%_char c.

Definition is_digit (c : char) : bool := c_in "0" "9" c.
Definition is_upper (c : char) : bool := c_in "A" "Z" c.
Definition is_lower (c : char) : bool := c_in "a" "z" c.

(** LineTerminator: LF, CR, LS, PS. *)
Definition is_line_terminator (c : char) : bool :=
  (N.eqb c 10 || N.eqb c 13 || N.eqb c 8232 || N.eqb c 8233)%bool.

(** WhiteSpace and LineTerminator: the class [\s], and what [trim] strips. *)
Definition is_space (c : char) : bool :=
  ((N.leb 9 c && N.leb c 13) || N.eqb c 32 || N.eqb c 160 || N.eqb c 5760
   || (N.leb 8192 c && N.leb c 8202) || N.eqb c 8232 || N.eqb c 8233
   || N.eqb c 8239 || N.eqb c 8287 || N.eqb c 12288 || N.eqb c 65279)%bool.

(** The class [.] (no [s] flag). *)
Definition is_dot (c : char) : bool := negb (is_line_terminator c).

Definition any_char (c : char) : bool := true.

Fixpoint str_eqb (a b : str) : bool :=
  match a, b with
  | [], [] => true
  | x :: a', y :: b' => (N.eqb x y && str_eqb a' b')%bool
  | _, _ => false
  end.

Fixpoint starts_with (p s : str) : bool :=
  match p, s with
  | [], _ => true
  | x :: p', y :: s' => (N.eqb x y && starts_with p' s')%bool
  | _ :: _, [] => false
  end.

(** [contains p s]: [p] occurs in [s] ([String.prototype.includes]). *)
Fixpoint contains (p s : str) : bool :=
  match s with
  | [] => starts_with p []
  | _ :: s' => (starts_with p s || contains p s')%bool
  end.

(** The number of places of [s] at which [p] occurs. *)
Fixpoint count_sub (p s : str) : nat :=
  match s with
  | [] => if starts_with p [] then 1 else 0
  | _ :: s' => (if starts_with p s then 1 else 0) + count_sub p s'
  end.

Fixpoint drop_while (p : char -> bool) (s : str) : str :=
  match s with
  | [] => []
  | c :: s' => if p c then drop_while p s' else s
  end.

(** [String.prototype.trim]. *)
Definition trim (s : str) : str :=
  rev (drop_while is_space (rev (drop_while is_space s))).

(** [s.split(c)] for a one-character separator: never the empty list. *)
Fixpoint split_on (c : char) (s : str) : list str :=
  match s with
  | [] => [[]]
  | x :: s' =>
      if N.eqb x c then [] :: split_on c s'
      else match split_on c s' with
           | [] => [[x]]
           | w :: ws => (x :: w) :: ws
           end
  end.

(** [a.join(sep)]. *)
Fixpoint join (sep : str) (l : list str) : str :=
  match l with
  | [] => []
  | [x] => x
  | x :: l' => x ++ sep ++ join sep l'
  end.

(** Truthiness of a string: non-empty. *)
Definition truthy (s : str) : bool :=
  match s with [] => false | _ => true end.

(** [toLowerCase] on the ASCII letters; the renderer applies it to the
    language tag only, which the fence pattern keeps inside
    [[a-zA-Z0-9_+\-.#]]. *)
Definition toLowerCase (s : str) : str :=
  map (fun c => if is_upper c then (c + 32)%N else c) s.

(** Decimal rendering of an array length or index, as a template literal
    does it. *)
Fixpoint dec_digits (fuel n : nat) (acc : str) : str :=
  match fuel with
  | O => acc
  | S fuel' =>
      let d := (48 + N.of_nat (n mod 10))%N in
      if n <? 10 then d :: acc else dec_digits fuel' (n / 10) (d :: acc)
  end.

Definition dec (n : nat) : str := dec_digits (S n) n [].

(** [parseInt] on a string of decimal digits.  The renderer compares the
    result with an array length only, so the rounding of a number above
    2^53 to a double makes no difference and the value is kept exact. *)
Definition digit_step (acc : N) (c : char) : N := (10 * acc + (c - 48))%N.

Definition parseInt (s : str) : N := fold_left digit_step s 0%N.

(** ** Regular expressions *)

Inductive re : Type :=
| Eps
| Chr (c : char)
| Cls (p : char -> bool)
| Seq (a b : re)
| Alt (a b : re)
| Star (greedy : bool) (a : re)
| Group (i : nat) (a : re)
| Backref (i : nat)
| Bol (multiline : bool)
| Eol (multiline : bool)
| NotBehind (p : char -> bool)
| NotAhead (a : re).

(** The matcher's state: the code units before the current position
    (nearest first), those from it on, and the captures made so far. *)
Record mstate : Type := MState {
  seen : str;
  rest : str;
  caps : list (nat * str)
}.

Inductive res : Type :=
| Found (st : mstate)
| Fail
| Fuel.

Definition orelse (a : res) (b : unit -> res) : res :=
  match a with
  | Fail => b tt
  | _ => a
  end.

Fixpoint get_cap (i : nat) (cs : list (nat * str)) : option str :=
  match cs with
  | [] => None
  | (j, s) :: cs' => if Nat.eqb i j then Some s else get_cap i cs'
  end.

Definition set_cap (i : nat) (s : str) (st : mstate) : mstate :=
  MState (seen st) (rest st) ((i, s) :: caps st).

Fixpoint groups_of (r : re) : list nat :=
  match r with
  | Seq a b | Alt a b => groups_of a ++ groups_of b
  | Star _ a | NotAhead a => groups_of a
  | Group i a => i :: groups_of a
  | _ => []
  end.

Definition clear_caps (gs : list nat) (st : mstate) : mstate :=
  MState (seen st) (rest st)
    (filter (fun p => negb (existsb (Nat.eqb (fst p)) gs)) (caps st)).

(** Consume [p] from the front of the remaining input. *)
Fixpoint eat (p : str) (st : mstate) : option mstate :=
  match p with
  | [] => Some st
  | c :: p' =>
      match rest st with
      | x :: xs =>
          if N.eqb x c then eat p' (MState (x :: seen st) xs (caps st))
          else None
      | [] => None
      end
  end.

Definition matcher := mstate -> (mstate -> res) -> res.

(** The quantifier loop.  An iteration that consumes nothing is rejected
    (the empty check of RepeatMatcher), so [S (length (rest st))] rounds
    are never used up. *)
Fixpoint star_loop (m : matcher) (gs : list nat) (greedy : bool)
    (k : mstate -> res) (n : nat) (st : mstate) {struct n} : res :=
  match n with
  | O => Fuel
  | S n' =>
      let again (_ : unit) :=
        m (clear_caps gs st)
          (fun st' =>
             if length (rest st') <? length (rest st)
             then star_loop m gs greedy k n' st'
             else Fail) in
      if greedy then orelse (again tt) (fun _ => k st)
      else orelse (k st) again
  end.

Fixpoint mt (r : re) (st : mstate) (k : mstate -> res) {struct r} : res :=
  match r with
  | Eps => k st
  | Chr c =>
      match rest st with
      | x :: xs =>
          if N.eqb x c then k (MState (x :: seen st) xs (caps st)) else Fail
      | [] => Fail
      end
  | Cls p =>
      match rest st with
      | x :: xs =>
          if p x then k (MState (x :: seen st) xs (caps st)) else Fail
      | [] => Fail
      end
  | Seq a b => mt a st (fun st' => mt b st' k)
  | Alt a b => orelse (mt a st k) (fun _ => mt b st k)
  | Star g a => star_loop (mt a) (groups_of a) g k (S (length (rest st))) st
  | Group i a =>
      mt a st
        (fun st' =>
           k (set_cap i
                (firstn (length (rest st) - length (rest st')) (rest st)) st'))
  | Backref i =>
      match get_cap i (caps st) with
      | None => k st
      | Some s =>
          match eat s st with
          | Some st' => k st'
          | None => Fail
          end
      end
  | Bol m =>
      match seen st with
      | [] => k st
      | x :: _ => if (m && is_line_terminator x)%bool then k st else Fail
      end
  | Eol m =>
      match rest st with
      | [] => k st
      | x :: _ => if (m && is_line_terminator x)%bool then k st else Fail
      end
  | NotBehind p =>
      match seen st with
      | [] => k st
      | x :: _ => if p x then Fail else k st
      end
  | NotAhead a =>
      match mt a st Found with
      | Found _ => Fail
      | Fail => k st
      | Fuel => Fuel
      end
  end.

(** Derived forms: [a+] (the first round is [a] itself, the later ones
    are those of [a*]; no pattern of the renderer puts a capture group
    inside a quantifier that is itself repeated, where the reset of the
    captures before the first round would show), [a?], a literal string,
    a sequence. *)
Definition Plus (g : bool) (a : re) : re := Seq a (Star g a).
Definition Opt (a : re) : re := Alt a Eps.
Fixpoint Lit (s : str) : re :=
  match s with
  | [] => Eps
  | c :: s' => Seq (Chr c) (Lit s')
  end.
Fixpoint Seqs (l : list re) : re :=
  match l with
  | [] => Eps
  | [r] => r
  | r :: l' => Seq r (Seqs l')
  end.

(** What a replacement sees of one match. *)
Record minfo : Type := MInfo {
  m_before : str;               (* reversed *)
  m_text : str;
  m_caps : list (nat * str);
  m_after : str
}.

(** One attempt at the current position. *)
Definition exec (r : re) (before after : str) : option minfo :=
  match mt r (MState before after []) Found with
  | Found st =>
      Some (MInfo before
              (firstn (length after - length (rest st)) after)
              (caps st) (rest st))
  | _ => None
  end.

Definition group (i : nat) (m : minfo) : str :=
  match get_cap i (m_caps m) with
  | Some s => s
  | None => []
  end.

(** [s.replace(/r/g, callback)], the callback reading and updating a
    store of type [S].  [skip] counts the code units of the last match
    still to be stepped over; an empty match advances by one unit. *)
Section Replace.
Variable S : Type.
Variable r : re.
Variable f : minfo -> S -> str * S.

Fixpoint replace_go (before after : str) (skip : nat) (s : S)
    {struct after} : str * S :=
  match skip, after with
  | Datatypes.S n, [] => ([], s)
  | Datatypes.S n, c :: after' => replace_go (c :: before) after' n s
  | O, [] =>
      match exec r before [] with
      | Some m => f m s
      | None => ([], s)
      end
  | O, c :: after' =>
      match exec r before after with
      | Some m =>
          let (out, s1) := f m s in
          match length (m_text m) with
          | O =>
              let (out2, s2) := replace_go (c :: before) after' 0 s1 in
              (out ++ c :: out2, s2)
          | Datatypes.S l =>
              let (out2, s2) := replace_go (c :: before) after' l s1 in
              (out ++ out2, s2)
          end
      | None =>
          let (out2, s2) := replace_go (c :: before) after' 0 s in
          (c :: out2, s2)
      end
  end.

Definition replace_st (text : str) (s : S) : str * S :=
  replace_go [] text 0 s.
End Replace.

(** [s.replace(/r/g, callback)] with a callback that touches no store. *)
Definition replace_fn (r : re) (f : minfo -> str) (text : str) : str :=
  fst (replace_st r (fun m (_ : unit) => (f m, tt)) text tt).

(** GetSubstitution: the [$]-patterns of a replacement string, for a
    pattern without named groups whose capture groups are [1..n]. *)
Definition digit_val (c : char) : nat := N.to_nat (c - 48)%N.

Fixpoint subst_go (n : nat) (m : minfo) (t : str) {struct t} : str :=
  match t with
  | [] => []
  | c :: t1 =>
      if negb (c_is "$" c) then c :: subst_go n m t1 else
      match t1 with
      | [] => [c]
      | d :: t2 =>
          if c_is "$" d then ch "$" :: subst_go n m t2
          else if c_is "&" d then m_text m ++ subst_go n m t2
          else if c_is "`" d then rev (m_before m) ++ subst_go n m t2
          else if N.eqb d squote then m_after m ++ subst_go n m t2
          else if is_digit d then
            let one := digit_val d in
            match t2 with
            | e :: t3 =>
                let two := 10 * one + digit_val e in
                if (is_digit e && (1 <=? two) && (two <=? n))%bool
                then group two m ++ subst_go n m t3
                else if ((1 <=? one) && (one <=? n))%bool
                then group one m ++ subst_go n m t2
                else c :: d :: subst_go n m t2
            | [] =>
                if ((1 <=? one) && (one <=? n))%bool
                then group one m
                else [c; d]
            end
          else c :: d :: subst_go n m t2
      end
  end.

Definition subst (n : nat) (template : str) (m : minfo) : str :=
  subst_go n m template.

(** The number of capture groups of a pattern, which are numbered from 1
    in the order of their opening parentheses. *)
Definition ngroups (r : re) : nat := fold_right Nat.max 0 (groups_of r).

(** [s.replace(/r/g, 'template')]. *)
Definition replace_str (r : re) (template text : str) : str :=
  replace_fn r (subst (ngroups r) template) text.

(** [/r/.test(s)] for a pattern without the [g] flag. *)
Fixpoint test_go (r : re) (before after : str) {struct after} : bool :=
  match exec r before after with
  | Some _ => true
  | None =>
      match after with
      | [] => false
      | c :: after' => test_go r (c :: before) after'
      end
  end.

Definition test (r : re) (s : str) : bool := test_go r [] s.

(** ** The call-local store *)

Record CodeBlock : Type := mkCodeBlock {
  language : str;
  code : str
}.

(** The three arrays [parseMarkdown] allocates on entry and its callbacks
    push to. *)
Record Store : Type := mkStore {
  codeBlocks : list CodeBlock;
  inlineCodes : list str;
  tables : list (list str)
}.

Definition empty_store : Store := mkStore [] [] [].

(** State passing over the store. *)
Definition M (A : Type) : Type := Store -> A * Store.

Definition ret {A : Type} (a : A) : M A := fun s => (a, s).

Definition bind {A B : Type} (m : M A) (f : A -> M B) : M B :=
  fun s => let (a, s') := m s in f a s'.

Definition get : M Store := fun s => (s, s).
Definition put (s : Store) : M unit := fun _ => (tt, s).

Declare Scope m_scope.
Delimit Scope m_scope with m.
Notation "x <- c1 ;; c2" := (bind c1 (fun x => c2))
  (at level 61, c1 at next level, right associativity) : m_scope.
Notation "c1 ;; c2" := (bind c1 (fun _ => c2))
  (at level 61, right associativity) : m_scope.

Definition push_codeBlock (b : CodeBlock) (s : Store) : Store :=
  mkStore (codeBlocks s ++ [b]) (inlineCodes s) (tables s).
Definition push_inlineCode (c : str) (s : Store) : Store :=
  mkStore (codeBlocks s) (inlineCodes s ++ [c]) (tables s).
Definition push_table (t : list str) (s : Store) : Store :=
  mkStore (codeBlocks s) (inlineCodes s) (tables s ++ [t]).

(** ** escapeHtml *)

Definition escapeHtml (text : str) : str :=
  if negb (truthy text) then [] else
  let text := replace_str (Chr (ch "&")) (u "&amp;") text in
  let text := replace_str (Chr (ch "<")) (u "&lt;") text in
  let text := replace_str (Chr (ch ">")) (u "&gt;") text in
  let text := replace_str (Chr dquote) (u "&quot;") text in
  replace_str (Chr squote) (u "&#039;") text.

(** ** The patterns of parseMarkdown *)

Definition fence : str := u "```".

(** [[a-zA-Z0-9_+\-.#]] *)
Definition lang_char (c : char) : bool :=
  (is_lower c || is_upper c || is_digit c || c_is "_" c || c_is "+" c
   || c_is "-" c || c_is "." c || c_is "#" c)%bool.

(** [/(```)([a-zA-Z0-9_+\-.#]+)\s*\n([\s\S]*?)\n?(```)/g] *)
Definition re_fence_lang : re :=
  Seqs [Group 1 (Lit fence); Group 2 (Plus true (Cls lang_char));
        Star true (Cls is_space); Chr nl;
        Group 3 (Star false (Cls any_char)); Opt (Chr nl);
        Group 4 (Lit fence)].

(** [/(```)\s*\n?([\s\S]*?)\n?(```)/g] *)
Definition re_fence_plain : re :=
  Seqs [Group 1 (Lit fence); Star true (Cls is_space); Opt (Chr nl);
        Group 2 (Star false (Cls any_char)); Opt (Chr nl);
        Group 3 (Lit fence)].

(** [/^\n+|\n+$/g] *)
Definition re_edge_newlines : re :=
  Alt (Seq (Bol false) (Plus true (Chr nl)))
      (Seq (Plus true (Chr nl)) (Eol false)).

Definition knownLanguages : list str := map u [
  "javascript"; "js"; "typescript"; "ts"; "python"; "py"; "java"; "c"; "cpp";
  "csharp"; "cs"; "php"; "html"; "css"; "json"; "xml"; "sql"; "bash"; "sh";
  "yaml"; "yml"; "markdown"; "md"; "ruby"; "rb"; "go"; "rust"; "rs"; "swift";
  "kotlin"; "kt"; "scala"; "perl"; "pl"; "lua"; "r"; "matlab"; "jsx"; "tsx";
  "dart"; "erlang"; "elixir"; "haskell"; "clojure"; "fsharp"; "powershell";
  "shell"; "dockerfile"; "makefile"; "cmake"; "nginx"; "apache"; "diff";
  "ini"; "toml"; "graphql"; "docker"; "sql"; "vim"; "regex"; "apache"; "nginx";
  "armasm"; "avrasm"; "actionscript"; "ada"; "apache"; "applescript"; "arduino";
  "coffeescript"; "d"; "delphi"; "oxygene"; "elixir"; "elm"; "erlang"; "fsharp";
  "gcode"; "golang"; "groovy"; "haml"; "handlebars"; "haskell"; "haxe"; "java";
  "javascript"; "json"; "julia"; "kotlin"; "latex"; "less"; "lisp"; "livescript";
  "lua"; "makefile"; "markdown"; "matlab"; "mathematica"; "nginx"; "objectivec";
  "ocaml"; "perl"; "php"; "powershell"; "python"; "r"; "ruby"; "rust"; "scala";
  "scheme"; "scss"; "shell"; "sql"; "swift"; "tcl"; "typescript"; "verilog";
  "vhdl"; "xml"; "yaml"; "text"; "txt"; "plain"
]%string.

(** [a.includes(x)] on an array of strings. *)
Definition includes (x : str) (a : list str) : bool := existsb (str_eqb x) a.

(** The three kinds of sentinel. *)
Inductive region : Type := CODEBLOCK | INLINECODE | TABLE.

Definition region_name (k : region) : str :=
  match k with
  | CODEBLOCK => u "CODEBLOCK"
  | INLINECODE => u "INLINECODE"
  | TABLE => u "TABLE"
  end.

(** [`__CODEBLOCK_${i}__`], [`__INLINECODE_${i}__`], [`__TABLE_${i}__`] *)
Definition placeholder (k : region) (i : nat) : str :=
  u "__" ++ region_name k ++ u "_" ++ dec i ++ u "__".

(** STEP 1a: the callback of the fence-with-language pattern. *)
Definition on_fence_lang (m : minfo) : M str :=
  fun s =>
  if str_eqb (group 4 m) fence then
    let cleanCode := replace_str re_edge_newlines [] (group 3 m) in
    let language := trim (group 2 m) in
    if (truthy language && includes (toLowerCase language) knownLanguages)%bool
    then (placeholder CODEBLOCK (length (codeBlocks s)),
          push_codeBlock (mkCodeBlock (toLowerCase language) cleanCode) s)
    else (m_text m, s)
  else (m_text m, s).

(** STEP 1b: the callback of the fence-without-language pattern. *)
Definition on_fence_plain (m : minfo) : M str :=
  fun s =>
  if str_eqb (group 3 m) fence then
    let cleanCode := replace_str re_edge_newlines [] (group 2 m) in
    let language := u "plaintext" in
    (placeholder CODEBLOCK (length (codeBlocks s)),
     push_codeBlock (mkCodeBlock language cleanCode) s)
  else (m_text m, s).

(** [/(?<!`)`([^`\n]+?)`(?!`)/g] *)
Definition re_inline_first : re :=
  Seqs [NotBehind (c_is "`"); Chr (ch "`");
        Group 1 (Plus false (Cls (fun c => negb (c_is "`" c || N.eqb c nl))));
        Chr (ch "`"); NotAhead (Chr (ch "`"))].

(** STEP 1c: the callback of the first inline-code pattern. *)
Definition on_inline_first (m : minfo) : M str :=
  fun s =>
  (placeholder INLINECODE (length (inlineCodes s)),
   push_inlineCode (group 1 m) s).

(** [/((?:^\s*\|.*\|\s*$\n?)+)/gm] *)
Definition tableRegex : re :=
  Group 1
    (Plus true
       (Seqs [Bol true; Star true (Cls is_space); Chr (ch "|");
              Star true (Cls is_dot); Chr (ch "|");
              Star true (Cls is_space); Eol true; Opt (Chr nl)])).

(** [[\s\-:|]] *)
Definition sep_char (c : char) : bool :=
  (is_space c || c_is "-" c || c_is ":" c || c_is "|" c)%bool.

(** [/^\s*\|[\s\-:|]+\|\s*$/] *)
Definition re_separator_loose : re :=
  Seqs [Bol false; Star true (Cls is_space); Chr (ch "|");
        Plus true (Cls sep_char); Chr (ch "|");
        Star true (Cls is_space); Eol false].

(** STEP 2: the callback of the table pattern. *)
Definition on_table (m : minfo) : M str :=
  fun s =>
  let lines :=
    filter (fun line => truthy (trim line)) (split_on nl (trim (m_text m))) in
  if length lines <? 2 then (m_text m, s) else
  let hasSeparator :=
    existsb (fun line => test re_separator_loose (trim line)) lines in
  if negb hasSeparator then (m_text m, s) else
  (placeholder TABLE (length (tables s)), push_table lines s).

(** [/(`+)([^`]+?)\1(?!`)/g] *)
Definition re_inline_second : re :=
  Seqs [Group 1 (Plus true (Chr (ch "`")));
        Group 2 (Plus false (Cls (fun c => negb (c_is "`" c))));
        Backref 1; NotAhead (Chr (ch "`"))].

(** STEP 3: the callback of the second inline-code pattern. *)
Definition on_inline_second (m : minfo) : M str :=
  fun s =>
  if Nat.eqb (length (group 1 m) mod 2) 1 then
    (placeholder INLINECODE (length (inlineCodes s)),
     push_inlineCode (group 2 m) s)
  else (m_text m, s).

(** ** STEP 5: the formatting patterns *)

Definition some_space : re := Plus true (Cls is_space).
Definition line_tail : re := Group 1 (Plus true (Cls is_dot)).

(** [/^#{n}\s+(.+)$/gm], for the six header rules *)
Definition re_header (n : nat) : re :=
  Seqs [Bol true; Lit (repeat (ch "#") n); some_space; line_tail; Eol true].

Definition header_template (n : nat) : str :=
  u "<h" ++ dec n ++ u ">$1</h" ++ dec n ++ u ">".

(** [c{3,}] *)
Definition three_or_more (c : ascii) : re :=
  Seqs [Chr (ch c); Chr (ch c); Chr (ch c); Star true (Chr (ch c))].

(** [/^\s*(-{3,}|\*{3,}|_{3,})\s*$/gm] *)
Definition re_rule : re :=
  Seqs [Bol true; Star true (Cls is_space);
        Group 1 (Alt (three_or_more "-")
                   (Alt (three_or_more "*") (three_or_more "_")));
        Star true (Cls is_space); Eol true].

(** [/^&gt;\s?(.+)$/gm] *)
Definition re_blockquote : re :=
  Seqs [Bol true; Lit (u "&gt;"); Opt (Cls is_space); line_tail; Eol true].

(** [/^[\-+*]\s+(.+)$/gm] *)
Definition re_unordered : re :=
  Seqs [Bol true;
        Cls (fun c => (c_is "-" c || c_is "+" c || c_is "*" c)%bool);
        some_space; line_tail; Eol true].

(** [/^\d+\.\s+(.+)$/gm] *)
Definition re_ordered : re :=
  Seqs [Bol true; Plus true (Cls is_digit); Chr (ch "."); some_space;
        line_tail; Eol true].

(** [/(<li>.*<\/li>\n?)+/g] *)
Definition re_items : re :=
  Plus true
    (Group 1 (Seqs [Lit (u "<li>"); Star true (Cls is_dot); Lit (u "</li>");
                    Opt (Chr nl)])).

(** [/\d+\.\s/] *)
Definition re_ordered_mark : re :=
  Seqs [Plus true (Cls is_digit); Chr (ch "."); Cls is_space].

(** The callback that wraps a run of list items. *)
Definition wrap_items (m : minfo) : str :=
  if test re_ordered_mark (m_text m)
  then u "<ol>" ++ m_text m ++ u "</ol>"
  else u "<ul>" ++ m_text m ++ u "</ul>".

Definition not_char (a : ascii) (c : char) : bool := negb (c_is a c).
Arguments not_char a%_char c.

(** [/\*\*([^*]+?)\*\*/g] *)
Definition re_bold : re :=
  Seqs [Lit (u "**"); Group 1 (Plus false (Cls (not_char "*"))); Lit (u "**")].

(** [/(?<!\* )\*([^\*\n]+?)\*(?!\* )/g] and [/(?<!_)_([^\_\n]+?)_(?!_)/g]
    (here and below a blank is put between a star and the parenthesis
    that closes a group, which the source writes together) *)
Definition re_italic (a : ascii) : re :=
  Seqs [NotBehind (c_is a); Chr (ch a);
        Group 1 (Plus false (Cls (fun c => negb (c_is a c || N.eqb c nl))));
        Chr (ch a); NotAhead (Chr (ch a))].

(** [/~~([^~]+?)~~/g] *)
Definition re_strike : re :=
  Seqs [Lit (u "~~"); Group 1 (Plus false (Cls (not_char "~"))); Lit (u "~~")].

(** [/\[([^\]]+)\]\(([^)]+)\)/g] *)
Definition re_link : re :=
  Seqs [Chr (ch "["); Group 1 (Plus true (Cls (not_char "]")));
        Lit (u "]("); Group 2 (Plus true (Cls (not_char ")"))); Chr (ch ")")].

(** [/!\[([^\]]* )\]\(([^)]+)\)/g] *)
Definition re_image : re :=
  Seqs [Lit (u "!["); Group 1 (Star true (Cls (not_char "]")));
        Lit (u "]("); Group 2 (Plus true (Cls (not_char ")"))); Chr (ch ")")].

Definition strong_template : str := u "<strong>$1</strong>".
Definition em_template : str := u "<em>$1</em>".
Definition del_template : str := u "<del>$1</del>".
Definition link_template : str :=
  uq "<a href='$2' target='_blank' rel='noopener noreferrer'>$1</a>".
Definition image_template : str :=
  uq "<img src='$2' alt='$1' loading='lazy'>".

(** The span rules shared by parseMarkdown and parseInlineMarkdown:
    bold, the two italics, strikethrough, links, images. *)
Definition format_spans (html : str) : str :=
  let html := replace_str re_bold strong_template html in
  let html := replace_str (re_italic "*") em_template html in
  let html := replace_str (re_italic "_") em_template html in
  let html := replace_str re_strike del_template html in
  let html := replace_str re_link link_template html in
  replace_str re_image image_template html.

(** Headers, rules, blockquotes, list items and their wrapping. *)
Definition format_blocks (html : str) : str :=
  let html := replace_str (re_header 6) (header_template 6) html in
  let html := replace_str (re_header 5) (header_template 5) html in
  let html := replace_str (re_header 4) (header_template 4) html in
  let html := replace_str (re_header 3) (header_template 3) html in
  let html := replace_str (re_header 2) (header_template 2) html in
  let html := replace_str (re_header 1) (header_template 1) html in
  let html := replace_str re_rule (u "<hr>") html in
  let html := replace_str re_blockquote (u "<blockquote>$1</blockquote>") html in
  let html := replace_str re_unordered (u "<li>$1</li>") html in
  let html := replace_str re_ordered (u "<li>$1</li>") html in
  replace_fn re_items wrap_items html.

(** [/<\/p><p>\s*<p>/g] and [/<p>\s*<\/p>/g] *)
Definition re_double_p : re :=
  Seqs [Lit (u "</p><p>"); Star true (Cls is_space); Lit (u "<p>")].
Definition re_empty_p : re :=
  Seqs [Lit (u "<p>"); Star true (Cls is_space); Lit (u "</p>")].

(** Newlines to paragraphs and line breaks. *)
Definition paragraphs (html : str) : str :=
  let html := replace_str (Lit [nl; nl]) (u "</p><p>") html in
  let html := replace_str (Chr nl) (u "<br>") html in
  let html := u "<p>" ++ html ++ u "</p>" in
  let html := replace_str re_double_p (u "</p><p>") html in
  replace_str re_empty_p [] html.

(** ** parseInlineMarkdown *)

(** [/__INLINECODE_(\d+)__/g] *)
Definition re_inline_sentinel : re :=
  Seqs [Lit (u "__INLINECODE_"); Group 1 (Plus true (Cls is_digit));
        Lit (u "__")].

Definition inline_code_html (escaped : str) : str :=
  uq "<code class='inline-code'>" ++ escaped ++ u "</code>".

(** The callback of the sentinel pattern in parseInlineMarkdown. *)
Definition on_inline_sentinel (inlineCodes : list str) (m : minfo) : str :=
  let codeIndex := parseInt (group 1 m) in
  if (N.leb 0 codeIndex && N.ltb codeIndex (N.of_nat (length inlineCodes)))%bool
  then inline_code_html (escapeHtml (nth (N.to_nat codeIndex) inlineCodes []))
  else m_text m.

(** The first statement of parseInlineMarkdown after its guard. *)
Definition restore_in_cell (inlineCodes : list str) (text : str) : str :=
  replace_fn re_inline_sentinel (on_inline_sentinel inlineCodes) text.

Definition parseInlineMarkdown (text : str) (inlineCodes : list str) : str :=
  if negb (truthy text) then [] else
  let text := restore_in_cell inlineCodes text in
  format_spans text.

(** ** parseTable *)

(** [/^\|[\s\-:|]+\|$/] *)
Definition re_separator : re :=
  Seqs [Bol false; Chr (ch "|"); Plus true (Cls sep_char); Chr (ch "|");
        Eol false].

(** The loop that looks for the separator row. *)
Fixpoint find_separator (lines : list str) (i : nat) : option nat :=
  match lines with
  | [] => None
  | line :: lines' =>
      if test re_separator (trim line) then Some i
      else find_separator lines' (S i)
  end.

Inductive alignment : Type := left | right | center.

Definition alignment_name (a : alignment) : str :=
  match a with
  | left => u "left"
  | right => u "right"
  | center => u "center"
  end.

Definition ends_with (p s : str) : bool := starts_with (rev p) (rev s).

Definition alignment_of (cell : str) : alignment :=
  let trimmed := trim cell in
  let leftColon := starts_with (u ":") trimmed in
  let rightColon := ends_with (u ":") trimmed in
  if (leftColon && rightColon)%bool then center
  else if rightColon then right
  else if leftColon then left
  else left.

(** [row.split('|').filter((cell, idx, arr) => ...)]: the first and the
    last cell go when they are blank. *)
Fixpoint filter_edges (idx len : nat) (cells : list str) : list str :=
  match cells with
  | [] => []
  | cell :: cells' =>
      let blank := str_eqb (trim cell) [] in
      if (negb (Nat.eqb idx 0 && blank)
          && negb (Nat.eqb idx (len - 1) && blank))%bool
      then cell :: filter_edges (S idx) len cells'
      else filter_edges (S idx) len cells'
  end.

Definition row_cells (row : str) : list str :=
  let arr := split_on (ch "|") row in
  filter_edges 0 (length arr) arr.

(** [cells.forEach((cell, idx) => ...)] for a header ([th]) or body
    ([td]) row. *)
Fixpoint render_cells (tag : str) (alignments : list alignment)
    (inlineCodes : list str) (idx : nat) (cells : list str) : str :=
  match cells with
  | [] => []
  | cell :: cells' =>
      let align := nth idx alignments left in
      let cellContent :=
        parseInlineMarkdown (escapeHtml (trim cell)) inlineCodes in
      u "<" ++ tag ++ uq " style='text-align: " ++ alignment_name align
        ++ uq "'>" ++ cellContent ++ u "</" ++ tag ++ u ">"
        ++ render_cells tag alignments inlineCodes (S idx) cells'
  end.

Definition render_row (tag : str) (alignments : list alignment)
    (inlineCodes : list str) (row : str) : str :=
  u "<tr>" ++ render_cells tag alignments inlineCodes 0 (row_cells row)
    ++ u "</tr>".

Definition parseTable (lines : list str) (inlineCodes : list str) : str :=
  if length lines <? 2 then [] else
  match find_separator lines 0 with
  | None => join [nl] lines
  | Some separatorIndex =>
      let separatorCells :=
        filter (fun cell => negb (str_eqb (trim cell) []))
          (split_on (ch "|") (nth separatorIndex lines [])) in
      let alignments := map alignment_of separatorCells in
      let headerRows := firstn separatorIndex lines in
      let bodyRows := skipn (S separatorIndex) lines in
      let tableHtml := uq "<div class='table-wrapper'><table>" in
      let tableHtml :=
        if 0 <? length headerRows then
          tableHtml ++ u "<thead>"
            ++ concat (map (render_row (u "th") alignments inlineCodes)
                         headerRows)
            ++ u "</thead>"
        else tableHtml in
      let tableHtml :=
        if 0 <? length bodyRows then
          tableHtml ++ u "<tbody>"
            ++ concat (map (fun row =>
                              if negb (truthy (trim row)) then []
                              else render_row (u "td") alignments
                                     inlineCodes row)
                         bodyRows)
            ++ u "</tbody>"
        else tableHtml in
      tableHtml ++ u "</table></div>"
  end.

(** ** STEP 6: restoration *)

(** [new RegExp(`__KIND_${i}__`, 'g')]: the sentinel has no pattern
    character, so the pattern is the sentinel read literally. *)
Definition re_sentinel (k : region) (i : nat) : re := Lit (placeholder k i).

(** [for (let i = 0; i < items.length; i++) html = html.replace(..., ...)]:
    the replacement is a string, so its [$]-patterns are interpreted. *)
Fixpoint restore_loop (X : Type) (k : region) (render : X -> str) (i : nat)
    (items : list X) (html : str) : str :=
  match items with
  | [] => html
  | x :: items' =>
      restore_loop k render (S i) items'
        (replace_str (re_sentinel k i) (render x) html)
  end.

Definition render_inline_code (c : str) : str :=
  inline_code_html (escapeHtml c).

Definition code_block_html (block : CodeBlock) : str :=
  let escaped := escapeHtml (code block) in
  let langClass := u "language-" ++ language block in
  let langDisplay :=
    if str_eqb (language block) (u "plaintext") then u "text"
    else language block in
  [nl] ++ uq "      <div class='code-block-wrapper'>" ++
  [nl] ++ uq "        <div class='code-header'>" ++
  [nl] ++ uq "          <span class='code-language'>"
       ++ escapeHtml langDisplay ++ u "</span>" ++
  [nl] ++ uq "          <button class='copy-btn' onclick='copyCode(this)' title='Copy code'>" ++
  [nl] ++ uq "            <svg width='16' height='16' viewBox='0 0 24 24' fill='none' stroke='currentColor' stroke-width='2'>" ++
  [nl] ++ uq "              <rect x='9' y='9' width='13' height='13' rx='2' ry='2'></rect>" ++
  [nl] ++ uq "              <path d='M5 15H4a2 2 0 0 1-2-2V4a2 2 0 0 1 2-2h9a2 2 0 0 1 2 2v1'></path>" ++
  [nl] ++ u "            </svg>" ++
  [nl] ++ u "            <span>Copy</span>" ++
  [nl] ++ u "          </button>" ++
  [nl] ++ u "        </div>" ++
  [nl] ++ uq "        <pre class='code-block'><code class='" ++ langClass
       ++ uq "'>" ++ escaped ++ u "</code></pre>" ++
  [nl] ++ u "      </div>".

Definition restore (s : Store) (html : str) : str :=
  let html := restore_loop INLINECODE render_inline_code 0 (inlineCodes s) html in
  let html :=
    restore_loop TABLE (fun t => parseTable t (inlineCodes s)) 0 (tables s)
      html in
  restore_loop CODEBLOCK code_block_html 0 (codeBlocks s) html.

(** ** The clean-up patterns *)

(** [h[1-6]] *)
Definition re_h : re := Seq (Chr (ch "h")) (Cls (c_in "1" "6")).

(** [/<br>\n?<(div|table|ul|ol|blockquote|h[1-6]|hr|pre)/g] *)
Definition re_br_before_block : re :=
  Seqs [Lit (u "<br>"); Opt (Chr nl); Chr (ch "<");
        Group 1
          (Alt (Lit (u "div")) (Alt (Lit (u "table")) (Alt (Lit (u "ul"))
          (Alt (Lit (u "ol")) (Alt (Lit (u "blockquote")) (Alt re_h
          (Alt (Lit (u "hr")) (Lit (u "pre")))))))))].

(** [/<\/(div|table|ul|ol|blockquote|h[1-6]|pre)><br>/g] *)
Definition re_br_after_block : re :=
  Seqs [Lit (u "</");
        Group 1
          (Alt (Lit (u "div")) (Alt (Lit (u "table")) (Alt (Lit (u "ul"))
          (Alt (Lit (u "ol")) (Alt (Lit (u "blockquote")) (Alt re_h
          (Lit (u "pre"))))))));
        Lit (u "><br>")].

Definition cleanup (html : str) : str :=
  let html := replace_str re_br_before_block (u "<$1") html in
  let html := replace_str re_br_after_block (u "</$1>") html in
  let html := replace_str (Lit (u "<br></p>")) (u "</p>") html in
  replace_str (Lit (u "<p><br>")) (u "<p>") html.

(** ** parseMarkdown *)

(** STEPS 1a to 3: the five extraction passes, each over the output of
    the one before. *)
Definition extract (text : str) : M str :=
  (text <- replace_st re_fence_lang on_fence_lang text ;;
   text <- replace_st re_fence_plain on_fence_plain text ;;
   text <- replace_st re_inline_first on_inline_first text ;;
   text <- replace_st tableRegex on_table text ;;
   replace_st re_inline_second on_inline_second text)%m.

(** The function, as a computation over the store: the guard, the three
    fresh arrays, extraction, escaping, formatting, restoration, clean-up. *)
Definition parseMarkdown_st (text : str) : M str :=
  if negb (truthy text) then ret [] else
  (put empty_store ;;
   text <- extract text ;;
   let html := escapeHtml text in
   let html := format_blocks html in
   let html := format_spans html in
   let html := paragraphs html in
   s <- get ;;
   let html := restore s html in
   ret (cleanup html))%m.

Definition parseMarkdown (text : str) : str :=
  fst (parseMarkdown_st text empty_store).

(** ** The strings a call builds *)

(** A string of the engine has a greatest length ([2^53 - 1] code units
    by the language definition, [2^29 - 24] in V8).  An operation whose
    result would be longer throws a RangeError, and parseMarkdown catches
    nothing. *)
Definition within (limit : N) (s : str) : bool :=
  (N.of_nat (length s) <=? limit)%N.

(** The results of passes applied one after the other. *)
Fixpoint steps (passes : list (str -> str)) (text : str) : list str :=
  match passes with
  | [] => []
  | pass :: passes' => pass text :: steps passes' (pass text)
  end.

(** The statements of escapeHtml, of the block and span rules, of the
    paragraph step and of the clean-up, one pass each. *)
Definition escapeHtml_passes : list (str -> str) :=
  [replace_str (Chr (ch "&")) (u "&amp;");
   replace_str (Chr (ch "<")) (u "&lt;");
   replace_str (Chr (ch ">")) (u "&gt;");
   replace_str (Chr dquote) (u "&quot;");
   replace_str (Chr squote) (u "&#039;")].

Definition block_passes : list (str -> str) :=
  [replace_str (re_header 6) (header_template 6);
   replace_str (re_header 5) (header_template 5);
   replace_str (re_header 4) (header_template 4);
   replace_str (re_header 3) (header_template 3);
   replace_str (re_header 2) (header_template 2);
   replace_str (re_header 1) (header_template 1);
   replace_str re_rule (u "<hr>");
   replace_str re_blockquote (u "<blockquote>$1</blockquote>");
   replace_str re_unordered (u "<li>$1</li>");
   replace_str re_ordered (u "<li>$1</li>");
   replace_fn re_items wrap_items].

Definition span_passes : list (str -> str) :=
  [replace_str re_bold strong_template;
   replace_str (re_italic "*") em_template;
   replace_str (re_italic "_") em_template;
   replace_str re_strike del_template;
   replace_str re_link link_template;
   replace_str re_image image_template].

Definition paragraph_passes : list (str -> str) :=
  [replace_str (Lit [nl; nl]) (u "</p><p>");
   replace_str (Chr nl) (u "<br>");
   (fun html => u "<p>" ++ html ++ u "</p>");
   replace_str re_double_p (u "</p><p>");
   replace_str re_empty_p []].

Definition cleanup_passes : list (str -> str) :=
  [replace_str re_br_before_block (u "<$1");
   replace_str re_br_after_block (u "</$1>");
   replace_str (Lit (u "<br></p>")) (u "</p>");
   replace_str (Lit (u "<p><br>")) (u "<p>")].

(** The strings a call of a function builds, in the order of the code:
    every result of a [replace] with a replacement text or a callback,
    every template literal, every joined string.  Left out are the
    strings that are cut from one at hand and so are no longer than it
    (a match and its groups, [trim], [split], [toLowerCase], the code of
    a fence with its edge newlines removed), and the strings that are a
    part of a listed one (what a callback returns, which is in the result
    of its [replace]; the table text as it grows, which is a part of the
    finished one).  The literals of the source are there before the
    call. *)
Definition escapeHtml_built (text : str) : list str :=
  if negb (truthy text) then [] else steps escapeHtml_passes text.

(** In the callback of the sentinel pattern the code is escaped as it is
    escaped in the first restoration loop, which has run by then. *)
Definition parseInlineMarkdown_built (text : str) (inlineCodes : list str)
    : list str :=
  if negb (truthy text) then [] else
  steps (restore_in_cell inlineCodes :: span_passes) text.

Definition cell_built (inlineCodes : list str) (cell : str) : list str :=
  escapeHtml_built (trim cell)
  ++ parseInlineMarkdown_built (escapeHtml (trim cell)) inlineCodes.

Definition row_built (inlineCodes : list str) (row : str) : list str :=
  flat_map (cell_built inlineCodes) (row_cells row).

Definition parseTable_built (lines : list str) (inlineCodes : list str)
    : list str :=
  if length lines <? 2 then [] else
  match find_separator lines 0 with
  | None => [join [nl] lines]
  | Some separatorIndex =>
      let headerRows := firstn separatorIndex lines in
      let bodyRows := skipn (S separatorIndex) lines in
      flat_map (row_built inlineCodes) headerRows
      ++ flat_map (fun row =>
                     if negb (truthy (trim row)) then []
                     else row_built inlineCodes row)
           bodyRows
      ++ [parseTable lines inlineCodes]
  end.

Definition inline_code_built (c : str) : list str :=
  escapeHtml_built c ++ [render_inline_code c].

Definition code_block_built (block : CodeBlock) : list str :=
  let langDisplay :=
    if str_eqb (language block) (u "plaintext") then u "text"
    else language block in
  escapeHtml_built (code block)
  ++ [u "language-" ++ language block]
  ++ escapeHtml_built langDisplay
  ++ [code_block_html block].

(** One restoration loop: for every item what its replacement text takes,
    the source of the pattern, and the result of the [replace]. *)
Fixpoint restore_loop_built (X : Type) (k : region) (render : X -> str)
    (built_by : X -> list str) (i : nat) (items : list X) (html : str)
    : list str :=
  match items with
  | [] => []
  | x :: items' =>
      let html' := replace_str (re_sentinel k i) (render x) html in
      built_by x ++ [placeholder k i; html']
      ++ restore_loop_built k render built_by (S i) items' html'
  end.

Definition restore_built (s : Store) (html : str) : list str :=
  let html1 :=
    restore_loop INLINECODE render_inline_code 0 (inlineCodes s) html in
  let html2 :=
    restore_loop TABLE (fun t => parseTable t (inlineCodes s)) 0 (tables s)
      html1 in
  restore_loop_built INLINECODE render_inline_code inline_code_built 0
    (inlineCodes s) html
  ++ restore_loop_built TABLE (fun t => parseTable t (inlineCodes s))
       (fun t => parseTable_built t (inlineCodes s)) 0 (tables s) html1
  ++ restore_loop_built CODEBLOCK code_block_html code_block_built 0
       (codeBlocks s) html2.

Definition parseMarkdown_built (text : str) : list str :=
  if negb (truthy text) then [] else
  let (text1, s) := replace_st re_fence_lang on_fence_lang text empty_store in
  let (text2, s) := replace_st re_fence_plain on_fence_plain text1 s in
  let (text3, s) := replace_st re_inline_first on_inline_first text2 s in
  let (text4, s) := replace_st tableRegex on_table text3 s in
  let (text5, s) := replace_st re_inline_second on_inline_second text4 s in
  let html1 := escapeHtml text5 in
  let html2 := format_blocks html1 in
  let html3 := format_spans html2 in
  let html4 := paragraphs html3 in
  let html5 := restore s html4 in
  [text1; text2; text3; text4; text5]
  ++ escapeHtml_built text5
  ++ steps block_passes html1
  ++ steps span_passes html2
  ++ steps paragraph_passes html3
  ++ restore_built s html4
  ++ steps cleanup_passes html5.

(** ** The sentinels a call gives out *)




(** ** The caller's side: JavaScript values *)

Inductive jsval : Type :=
| VUndefined
| VNull
| VBoolean (b : bool)
| VNumber (z : Z)
| VNaN
| VString (s : str).

(** [!v] *)
Definition falsy (v : jsval) : bool :=
  match v with
  | VUndefined | VNull | VNaN => true
  | VBoolean b => negb b
  | VNumber z => Z.eqb z 0
  | VString s => negb (truthy s)
  end.

Inductive outcome : Type :=
| Returns (s : str)
| Throws.

(** parseMarkdown applied to any primitive value, on an engine whose
    strings have at most [limit] code units.  A truthy value that is not a
    string has no [replace] method, and the first call of it throws a
    TypeError.  On a string the call throws a RangeError at the first
    string it would build beyond the limit, and returns when there is
    none. *)
Definition parseMarkdown_js (limit : N) (v : jsval) : outcome :=
  if falsy v then Returns [] else
  match v with
  | VString s =>
      if forallb (within limit) (parseMarkdown_built s)
      then Returns (parseMarkdown s)
      else Throws
  | _ => Throws
  end.

(** ** The conversation: formatChatTitle and enforceContextLimits *)

(** [/\s+/g] *)
Definition re_spaces : re := Plus true (Cls is_space).

(** formatChatTitle on a string: [substring(0, 30)] keeps the first thirty
    code units. *)
Definition formatChatTitle (content : str) : str :=
  let title :=
    if 30 <? length content then firstn 30 content ++ u "..." else content in
  trim (replace_str re_spaces (u " ") title).

(** formatChatTitle on any primitive value: what is not a string has no
    [length] to read ([null], [undefined]) or no [replace] method, and
    the call throws a TypeError.  An array behaves like the truthy values
    that are not strings. *)
Definition formatChatTitle_js (content : jsval) : outcome :=
  match content with
  | VString s => Returns (formatChatTitle s)
  | _ => Throws
  end.

(** A message of the conversation. *)
Record message : Type := mkMessage {
  role : jsval;
  content : jsval
}.

(** [msg.role === r] for a string literal [r]. *)
Definition has_role (r : str) (msg : message) : bool :=
  match role msg with
  | VString s => str_eqb s r
  | _ => false
  end.

Definition MAX_USER_MSGS : nat := 10.
Definition MAX_ASSISTANT_MSGS : nat := 10.
Definition MAX_TOTAL_MSGS : nat := 21.

(** [a.findIndex(p)]: [None] stands for -1. *)
Fixpoint findIndex (A : Type) (p : A -> bool) (a : list A) : option nat :=
  match a with
  | [] => None
  | x :: a' =>
      if p x then Some 0
      else match findIndex p a' with
           | Some i => Some (S i)
           | None => None
           end
  end.

(** [a.splice(index, 1)] *)
Fixpoint splice1 (A : Type) (index : nat) (a : list A) : list A :=
  match a, index with
  | [], _ => []
  | _ :: a', O => a'
  | x :: a', S i => x :: splice1 i a'
  end.

(** The body of the two [for] loops: find the oldest message of the role
    and remove it. *)
Definition remove_oldest (r : str) (conversation : list message)
    : list message :=
  match findIndex (has_role r) conversation with
  | Some index => splice1 index conversation
  | None => conversation
  end.

(** [while (conversation.length > MAX_TOTAL_MSGS) conversation.shift()] *)
Fixpoint shift_to_limit (conversation : list message) : list message :=
  match conversation with
  | [] => []
  | _ :: rest =>
      if MAX_TOTAL_MSGS <? length conversation then shift_to_limit rest
      else conversation
  end.

(** enforceContextLimits, from the conversation before the call to the
    conversation after it. *)
Definition enforceContextLimits (conversation : list message)
    : list message :=
  if length conversation <=? MAX_TOTAL_MSGS then conversation else
  let userMsgs := filter (has_role (u "user")) conversation in
  let assistantMsgs := filter (has_role (u "assistant")) conversation in
  let conversation :=
    if MAX_USER_MSGS <? length userMsgs
    then Nat.iter (length userMsgs - MAX_USER_MSGS) (remove_oldest (u "user"))
           conversation
    else conversation in
  let conversation :=
    if MAX_ASSISTANT_MSGS <? length assistantMsgs
    then Nat.iter (length assistantMsgs - MAX_ASSISTANT_MSGS)
           (remove_oldest (u "assistant")) conversation
    else conversation in
  shift_to_limit conversation.

(** ** The chat history: updateCurrentChatInHistory *)

Module Chat.
Record t : Type := mk {
  id : str;
  title : str;
  conversation : list message;
  timestamp : str
}.
End Chat.

(** The three variables of the page that the chat functions share;
    [currentChatId] is [null] or a string. *)
Record App : Type := mkApp {
  conversation : list message;
  chatHistory : list Chat.t;
  currentChatId : option str
}.

Inductive completion : Type := Normal | Threw.

(** [a[index] = f(a[index])] for an index inside the array. *)
Fixpoint update_at (A : Type) (index : nat) (f : A -> A) (a : list A)
    : list A :=
  match a, index with
  | [], _ => []
  | x :: a', O => f x :: a'
  | x :: a', S i => x :: update_at i f a'
  end.

(** [if (a.length > 20) a = a.slice(0, 20)] *)
Definition keep_20 (a : list Chat.t) : list Chat.t :=
  if 20 <? length a then firstn 20 a else a.

(** updateCurrentChatInHistory: the state after the call and whether the
    call returned or threw.  [now] is [new Date().toISOString()].
    [saved] is how [await saveChatHistory()] completes: the storage it
    writes to (IndexedDB, and localStorage when that fails) is outside
    the model; it leaves the three variables alone, and it can reject
    (the catch of setItem calls setMemoryStorage, whose second
    [localStorage.setItem] is not guarded).  A call throws from
    formatChatTitle, before the history is saved, or from
    saveChatHistory. *)
Definition updateCurrentChatInHistory (now : str) (saved : completion)
    (a : App) : App * completion :=
  match currentChatId a with
  | None => (a, Normal)
  | Some cid =>
      if negb (truthy cid) then (a, Normal) else
      match findIndex (fun chat => str_eqb (Chat.id chat) cid) (chatHistory a)
      with
      | Some chatIndex =>
          let h :=
            update_at chatIndex
              (fun chat =>
                 Chat.mk (Chat.id chat) (Chat.title chat) (conversation a) now)
              (chatHistory a) in
          let stored := mkApp (conversation a) h (currentChatId a) in
          let is_new :=
            match nth_error h chatIndex with
            | Some chat => str_eqb (Chat.title chat) (u "New Chat")
            | None => false
            end in
          if (is_new && (0 <? length (conversation a)))%bool then
            match find (has_role (u "user")) (conversation a) with
            | Some firstUserMessage =>
                match formatChatTitle_js (content firstUserMessage) with
                | Returns title =>
                    (mkApp (conversation a)
                       (update_at chatIndex
                          (fun chat =>
                             Chat.mk (Chat.id chat) title
                               (Chat.conversation chat) (Chat.timestamp chat))
                          h)
                       (currentChatId a),
                     saved)
                | Throws => (stored, Threw)
                end
            | None => (stored, saved)
            end
          else (stored, saved)
      | None =>
          let title :=
            match conversation a with
            | first :: _ =>
                if falsy (content first) then Returns (u "New Chat")
                else formatChatTitle_js (content first)
            | [] => Returns (u "New Chat")
            end in
          match title with
          | Returns title =>
              (mkApp (conversation a)
                 (keep_20 (Chat.mk cid title (conversation a) now
                             :: chatHistory a))
                 (currentChatId a),
               saved)
          | Throws => (a, Threw)
          end
      end
  end.

(** ** Reading aids for the properties *)

(** What escapeHtml makes of one code unit. *)
Definition escape_unit (c : char) : str :=
  if c_is "&" c then u "&amp;"
  else if c_is "<" c then u "&lt;"
  else if c_is ">" c then u "&gt;"
  else if N.eqb c dquote then u "&quot;"
  else if N.eqb c squote then u "&#039;"
  else [c].

(** One of the five characters escapeHtml replaces. *)
Definition html_special (c : char) : bool :=
  (c_is "&" c || c_is "<" c || c_is ">" c || N.eqb c dquote
   || N.eqb c squote)%bool.

(** Neither of the characters that open a tag or quote an attribute. *)
Definition markup_free (c : char) : bool :=
  negb (c_is "<" c || c_is ">" c || N.eqb c dquote || N.eqb c squote)%bool.

(** The length of the run of [p]-characters a text starts with. *)
Fixpoint span_length (p : char -> bool) (s : str) : nat :=
  match s with
  | [] => 0
  | c :: s' => if p c then S (span_length p s') else 0
  end.

(** Every run of white space made one blank; [in_run] says that the
    code unit before was white space. *)
Fixpoint collapse_spaces (in_run : bool) (s : str) : str :=
  match s with
  | [] => []
  | c :: s' =>
      if is_space c
      then if in_run then collapse_spaces true s'
           else ch " " :: collapse_spaces true s'
      else c :: collapse_spaces false s'
  end.

(** No white space but single blanks, and none of them at an end. *)
Fixpoint single_blanks (s : str) : bool :=
  match s with
  | [] => true
  | c :: s' =>
      (if is_space c
       then N.eqb c (ch " ")
            && match s' with
               | [] => true
               | d :: _ => negb (is_space d)
               end
       else true)%bool
      && single_blanks s'
  end%bool.

Definition tidy (s : str) : bool :=
  (single_blanks s
   && match s with [] => true | c :: _ => negb (is_space c) end
   && match rev s with [] => true | c :: _ => negb (is_space c) end)%bool.

(** A title as formatChatTitle makes it: tidy and of at most 33 code
    units. *)
Definition short_tidy (title : str) : bool :=
  (tidy title && (length title <=? 33))%bool.

(** The characters one of the patterns of parseMarkdown or escapeHtml
    asks for: the backtick, the pipe, the five HTML characters, and those
    of headers, rules, lists, emphasis, strikethrough and links; and the
    line break. *)
Definition md_special (c : char) : bool :=
  (c_is "`" c || c_is "|" c || html_special c || c_is "#" c || c_is "-" c
   || c_is "*" c || c_is "_" c || c_is "+" c || c_is "~" c || c_is "[" c
   || N.eqb c nl)%bool.

(** The special characters but the backtick, which no pattern after the
    extraction asks for. *)
Definition fmt_special (c : char) : bool :=
  (md_special c && negb (c_is "`" c))%bool.

(** A digit with a full stop right after it. *)
Fixpoint digit_dot (s : str) : bool :=
  match s with
  | [] => false
  | c :: s' =>
      ((is_digit c && match s' with d :: _ => c_is "." d | [] => false end)
       || digit_dot s')%bool
  end.

(** Text that no pattern of parseMarkdown takes up: none of the special
    characters, no digit before a full stop, and not white space only. *)
Definition plain_text (w : str) : bool :=
  (forallb (fun c => negb (md_special c)) w && negb (digit_dot w)
   && existsb (fun c => negb (is_space c)) w)%bool.

(** What the sentinel pass of parseInlineMarkdown makes of the sentinel
    with index [n]. *)
Definition restored_sentinel (inlineCodes : list str) (n : nat) : str :=
  if n <? length inlineCodes
  then inline_code_html (escapeHtml (nth n inlineCodes []))
  else placeholder INLINECODE n.

(** A cell text: stretches of text, each followed by a sentinel, and a
    last stretch. *)
Fixpoint with_sentinels (parts : list (str * nat)) (last : str) : str :=
  match parts with
  | [] => last
  | (stretch, n) :: parts' =>
      stretch ++ placeholder INLINECODE n ++ with_sentinels parts' last
  end.

(** The same text with every sentinel restored. *)
Fixpoint with_restored (inlineCodes : list str) (parts : list (str * nat))
    (last : str) : str :=
  match parts with
  | [] => last
  | (stretch, n) :: parts' =>
      stretch ++ restored_sentinel inlineCodes n
        ++ with_restored inlineCodes parts' last
  end.

(** The text below a paragraph's first code-block sentinel when [n] more
    of them follow on lines of their own, the first of them with index
    [i]. *)
Fixpoint after_sentinel (i n : nat) : str :=
  match n with
  | O => u "</p>"
  | S n' => u "<br>" ++ placeholder CODEBLOCK i ++ after_sentinel (S i) n'
  end.

(** None of the sentinels occurs in the text after it. *)
Fixpoint sentinels_apart (i n : nat) : bool :=
  (negb (contains (placeholder CODEBLOCK i) (after_sentinel (S i) n))
   && match n with
      | O => true
      | S n' => sentinels_apart (S i) n'
      end)%bool.

(** [n] fenced blocks whose code is the two units [$`], one below the
    other. *)
Definition dollar_block : str :=
  fence ++ [nl] ++ u "$`" ++ [nl] ++ fence.
Definition dollar_blocks (n : nat) : str :=
  join [nl] (repeat dollar_block n).

(** A lower bound of the length after [n + 1] restorations, each of which
    puts the text before the sentinel in twice, when [q + 1] units are
    before the first sentinel. *)
Fixpoint grown (n : nat) (q : N) : N :=
  match n with
  | O => (2 * q + 661)%N
  | S n' => grown n' (2 * q + 660)%N
  end.

(** [l1] is [l2] with some of its elements left out. *)
Inductive subseq (A : Type) : list A -> list A -> Prop :=
| subseq_nil : subseq [] []
| subseq_skip : forall x l1 l2, subseq l1 l2 -> subseq l1 (x :: l2)
| subseq_keep : forall x l1 l2, subseq l1 l2 -> subseq (x :: l1) (x :: l2).

(** ** What a successful match says about the input *)

(** One iteration after another of a quantified pattern, each of them
    consuming something. *)
Inductive iterate (R : mstate -> mstate -> Prop) (gs : list nat)
    : mstate -> mstate -> Prop :=
| iterate_done : forall st, iterate R gs st st
| iterate_more : forall st st1 st2,
    R (clear_caps gs st) st1 ->
    length (rest st1) < length (rest st) ->
    iterate R gs st1 st2 ->
    iterate R gs st st2.

(** [sem r st st']: the pattern [r] can take the matcher from [st] to
    [st'].  It forgets the priorities among the alternatives; a negative
    look-ahead is read off the matcher itself. *)
Fixpoint sem (r : re) (st st' : mstate) {struct r} : Prop :=
  match r with
  | Eps => st' = st
  | Chr c =>
      exists xs, rest st = c :: xs /\ st' = MState (c :: seen st) xs (caps st)
  | Cls p =>
      exists x xs, rest st = x :: xs /\ p x = true /\
                   st' = MState (x :: seen st) xs (caps st)
  | Seq a b => exists st1, sem a st st1 /\ sem b st1 st'
  | Alt a b => sem a st st' \/ sem b st st'
  | Star _ a => iterate (sem a) (groups_of a) st st'
  | Group i a =>
      exists st1, sem a st st1 /\
        st' = set_cap i
                (firstn (length (rest st) - length (rest st1)) (rest st)) st1
  | Backref i =>
      match get_cap i (caps st) with
      | None => st' = st
      | Some s => eat s st = Some st'
      end
  | Bol m =>
      st' = st /\
      (seen st = [] \/
       exists x l, seen st = x :: l /\ m = true /\ is_line_terminator x = true)
  | Eol m =>
      st' = st /\
      (rest st = [] \/
       exists x l, rest st = x :: l /\ m = true /\ is_line_terminator x = true)
  | NotBehind p =>
      st' = st /\ (seen st = [] \/ exists x l, seen st = x :: l /\ p x = false)
  | NotAhead a => st' = st /\ mt a st Found = Fail
  end.

(** The words a pattern can consume, assertions and the content of
    back-references left open. *)
Fixpoint lang (r : re) (w : str) {struct r} : Prop :=
  match r with
  | Eps | Bol _ | Eol _ | NotBehind _ | NotAhead _ => w = []
  | Chr c => w = [c]
  | Cls p => exists x, w = [x] /\ p x = true
  | Seq a b => exists w1 w2, w = w1 ++ w2 /\ lang a w1 /\ lang b w2
  | Alt a b => lang a w \/ lang b w
  | Star _ a => exists ws, w = concat ws /\ Forall (lang a) ws
  | Group _ a => lang a w
  | Backref _ => True
  end.

(** A continuation that never reports an exhausted bound. *)
Definition no_fuel (k : mstate -> res) : Prop := forall st, k st <> Fuel.

(** [st'] is [st] moved forward over [w]. *)
Definition advanced (st : mstate) (w : str) (st' : mstate) : Prop :=
  rest st = w ++ rest st' /\ seen st' = rev w ++ seen st.

(** [text] holds two fences that do not overlap. *)
Definition two_fences (text : str) : Prop :=
  exists a b c, text = a ++ fence ++ b ++ fence ++ c.


(** [fences n text]: [text] holds [n] fences, none of which overlaps
    another. *)
Inductive fences : nat -> str -> Prop :=
| fences_none : forall text, fences 0 text
| fences_more : forall n a rest,
    fences n rest -> fences (S n) (a ++ fence ++ rest).




Definition all_digits (s : str) : Prop := Forall (fun c => is_digit c = true) s.

(** [r] matches somewhere in [text]. *)
Definition matches_in (r : re) (text : str) (m : minfo) : Prop :=
  exists before after,
    text = rev before ++ after /\ exec r before after = Some m.

(** * Properties *)

(** ** The matcher *)

Lemma orelse_found a b f :
  orelse a b = Found f -> a = Found f \/ (a = Fail /\ b tt = Found f).
Proof. destruct a; simpl; intros H; auto; discriminate. Qed.

Lemma orelse_fuel a b :
  a <> Fuel -> b tt <> Fuel -> orelse a b <> Fuel.
Proof. destruct a; simpl; intros; auto; discriminate. Qed.

(** *** The quantifier bound is never used up *)

Lemma star_loop_no_fuel m gs g k :
  (forall st k', no_fuel k' -> m st k' <> Fuel) ->
  no_fuel k ->
  forall n st, length (rest st) < n -> star_loop m gs g k n st <> Fuel.
Proof.
  intros Hm Hk. induction n as [|n IH]; intros st Hlt; [lia|].
  simpl.
  assert (Hagain :
    m (clear_caps gs st)
      (fun st' => if length (rest st') <? length (rest st)
                  then star_loop m gs g k n st' else Fail) <> Fuel).
  { apply Hm. intros st'. destruct (Nat.ltb_spec (length (rest st')) (length (rest st))).
    - apply IH. lia.
    - discriminate. }
  destruct g; apply orelse_fuel; auto.
Qed.

Lemma mt_no_fuel r : forall st k, no_fuel k -> mt r st k <> Fuel.
Proof.
  induction r; intros st k Hk; cbn [mt].
  - apply Hk.
  - destruct (rest st); [discriminate|]. destruct (N.eqb _ _); [apply Hk|discriminate].
  - destruct (rest st); [discriminate|]. destruct (p _); [apply Hk|discriminate].
  - apply IHr1. intros st'. apply IHr2, Hk.
  - apply orelse_fuel; [apply IHr1|apply IHr2]; exact Hk.
  - apply star_loop_no_fuel; auto.
  - apply IHr. intros st'. apply Hk.
  - destruct (get_cap i (caps st)); [|apply Hk].
    destruct (eat s st); [apply Hk|discriminate].
  - destruct (seen st); [apply Hk|]. destruct (_ && _)%bool; [apply Hk|discriminate].
  - destruct (rest st); [apply Hk|]. destruct (_ && _)%bool; [apply Hk|discriminate].
  - destruct (seen st); [apply Hk|]. destruct (p _); [discriminate|apply Hk].
  - specialize (IHr st Found). destruct (mt r st Found) eqn:E.
    + discriminate.
    + apply Hk.
    + exfalso. apply IHr; [intros ?; discriminate|reflexivity].
Qed.

(** *** Soundness of the matcher *)

Lemma star_loop_sound m (R : mstate -> mstate -> Prop) gs g k f :
  (forall st k' f', m st k' = Found f' -> exists st', R st st' /\ k' st' = Found f') ->
  forall n st, star_loop m gs g k n st = Found f ->
  exists st', iterate R gs st st' /\ k st' = Found f.
Proof.
  intros Hm. induction n as [|n IH]; intros st H; [discriminate|].
  simpl in H.
  assert (Hagain :
    m (clear_caps gs st)
      (fun st' => if length (rest st') <? length (rest st)
                  then star_loop m gs g k n st' else Fail) = Found f ->
    exists st', iterate R gs st st' /\ k st' = Found f).
  { intros E. apply Hm in E. destruct E as (st1 & HR & E).
    destruct (Nat.ltb_spec (length (rest st1)) (length (rest st))); [|discriminate].
    apply IH in E. destruct E as (st2 & Hit & E).
    exists st2. split; [|exact E]. eapply iterate_more; eauto. }
  assert (Hstop : k st = Found f -> exists st', iterate R gs st st' /\ k st' = Found f).
  { intros E. exists st. split; [constructor|exact E]. }
  destruct g; apply orelse_found in H; destruct H as [H|[_ H]]; auto.
Qed.

Lemma mt_sound r : forall st k f,
  mt r st k = Found f -> exists st', sem r st st' /\ k st' = Found f.
Proof.
  induction r; intros st k f H; cbn [mt] in H.
  - exists st. simpl. auto.
  - destruct (rest st) eqn:E; [discriminate|].
    destruct (N.eqb_spec c0 c); [subst|discriminate].
    eexists. split; [|exact H]. simpl. eauto.
  - destruct (rest st) eqn:E; [discriminate|].
    destruct (p c) eqn:Ep; [|discriminate].
    eexists. split; [|exact H]. simpl. eauto.
  - apply IHr1 in H. destruct H as (st1 & H1 & H).
    apply IHr2 in H. destruct H as (st2 & H2 & H).
    exists st2. split; [|exact H]. simpl. eauto.
  - apply orelse_found in H. destruct H as [H|[_ H]].
    + apply IHr1 in H. destruct H as (st1 & H1 & H). exists st1. simpl. auto.
    + apply IHr2 in H. destruct H as (st1 & H1 & H). exists st1. simpl. auto.
  - eapply star_loop_sound in H; [|exact IHr]. exact H.
  - apply IHr in H. destruct H as (st1 & H1 & H).
    eexists. split; [|exact H]. simpl. eauto.
  - destruct (get_cap i (caps st)) eqn:E.
    + destruct (eat s st) eqn:E2; [|discriminate].
      exists m. split; [|exact H]. simpl. rewrite E. exact E2.
    + exists st. split; [|exact H]. simpl. rewrite E. reflexivity.
  - exists st. simpl. destruct (seen st) eqn:E.
    + auto.
    + destruct (multiline && is_line_terminator c)%bool eqn:E2; [|discriminate].
      apply andb_prop in E2. destruct E2. split; [|exact H]. split; [reflexivity|].
      right. eauto.
  - exists st. simpl. destruct (rest st) eqn:E.
    + auto.
    + destruct (multiline && is_line_terminator c)%bool eqn:E2; [|discriminate].
      apply andb_prop in E2. destruct E2. split; [|exact H]. split; [reflexivity|].
      right. eauto.
  - exists st. simpl. destruct (seen st) eqn:E.
    + auto.
    + destruct (p c) eqn:E2; [discriminate|].
      split; [|exact H]. split; [reflexivity|]. right. eauto.
  - destruct (mt r st Found) eqn:E; try discriminate.
    exists st. simpl. auto.
Qed.

(** *** A match consumes a word of the pattern's language *)

Lemma advanced_refl st : advanced st [] st.
Proof. split; reflexivity. Qed.

Lemma advanced_trans st1 w1 st2 w2 st3 :
  advanced st1 w1 st2 -> advanced st2 w2 st3 -> advanced st1 (w1 ++ w2) st3.
Proof.
  intros [A1 B1] [A2 B2]. split.
  - rewrite A1, A2, app_assoc. reflexivity.
  - rewrite B2, B1, rev_app_distr, app_assoc. reflexivity.
Qed.

Lemma eat_advanced s : forall st st', eat s st = Some st' -> advanced st s st'.
Proof.
  induction s; simpl; intros st st' H.
  - injection H as <-. apply advanced_refl.
  - destruct (rest st) eqn:E; [discriminate|].
    destruct (N.eqb_spec c a); [subst|discriminate].
    apply IHs in H. destruct H as [A B]. simpl in A, B.
    split.
    + rewrite E, A. reflexivity.
    + rewrite B. simpl. rewrite <- app_assoc. reflexivity.
Qed.

Lemma iterate_lang (R : mstate -> mstate -> Prop) (L : str -> Prop) gs :
  (forall st st', R st st' -> exists w, L w /\ advanced st w st') ->
  forall st st', iterate R gs st st' ->
  exists ws, Forall L ws /\ advanced st (concat ws) st'.
Proof.
  intros HR st st' H. induction H.
  - exists []. split; [constructor|apply advanced_refl].
  - apply HR in H. destruct H as (w & Lw & Hw).
    destruct IHiterate as (ws & Fws & Hws).
    exists (w :: ws). split; [constructor; auto|].
    simpl. eapply advanced_trans; [|exact Hws].
    destruct Hw as [A B]. split; [exact A|exact B].
Qed.

Lemma sem_lang r : forall st st',
  sem r st st' -> exists w, lang r w /\ advanced st w st'.
Proof.
  induction r; intros st st' H; simpl in H.
  - subst. exists []. split; [reflexivity|apply advanced_refl].
  - destruct H as (xs & E & ->). exists [c]. split; [reflexivity|].
    split; simpl; auto.
  - destruct H as (x & xs & E & Hp & ->). exists [x]. split; [simpl; eauto|].
    split; simpl; auto.
  - destruct H as (st1 & H1 & H2).
    apply IHr1 in H1. destruct H1 as (w1 & L1 & A1).
    apply IHr2 in H2. destruct H2 as (w2 & L2 & A2).
    exists (w1 ++ w2). split; [simpl; eauto|eapply advanced_trans; eauto].
  - destruct H as [H|H]; [apply IHr1 in H|apply IHr2 in H];
      destruct H as (w & L & A); exists w; simpl; auto.
  - eapply iterate_lang in H; [|exact IHr].
    destruct H as (ws & F & A). exists (concat ws). split; [simpl; eauto|exact A].
  - destruct H as (st1 & H1 & ->). apply IHr in H1.
    destruct H1 as (w & L & A). exists w. split; [exact L|].
    destruct A as [A B]. split; simpl; auto.
  - destruct (get_cap i (caps st)).
    + exists s. split; [exact I|apply eat_advanced; exact H].
    + subst. exists []. split; [exact I|apply advanced_refl].
  - destruct H as [-> _]. exists []. split; [reflexivity|apply advanced_refl].
  - destruct H as [-> _]. exists []. split; [reflexivity|apply advanced_refl].
  - destruct H as [-> _]. exists []. split; [reflexivity|apply advanced_refl].
  - destruct H as [-> _]. exists []. split; [reflexivity|apply advanced_refl].
Qed.

(** ** Global replacement *)

Lemma exec_sound r before after m :
  exec r before after = Some m ->
  m_before m = before /\ after = m_text m ++ m_after m /\ lang r (m_text m) /\
  exists st', sem r (MState before after []) st' /\
              m_caps m = caps st' /\ m_after m = rest st'.
Proof.
  unfold exec. intros H.
  destruct (mt r (MState before after []) Found) eqn:E; try discriminate.
  injection H as <-.
  apply mt_sound in E. destruct E as (st' & Hs & E). injection E as ->.
  pose proof Hs as Hs2. apply sem_lang in Hs2. destruct Hs2 as (w & Lw & A).
  pose proof A as [A1 A2]. simpl in A1, A2. simpl.
  assert (Hw : firstn (length after - length (rest st)) after = w).
  { rewrite A1, length_app, Nat.add_sub.
    rewrite firstn_app, Nat.sub_diag, firstn_all. simpl. apply app_nil_r. }
  rewrite Hw. repeat split; auto. eauto.
Qed.

Lemma exec_length r before after m :
  exec r before after = Some m -> length (m_text m) <= length after.
Proof.
  intros H. apply exec_sound in H. destruct H as (_ & E & _).
  rewrite E, length_app. lia.
Qed.

Lemma exec_firstn r before after m :
  exec r before after = Some m ->
  m_text m = firstn (length (m_text m)) after.
Proof.
  intros H. apply exec_sound in H. destruct H as (_ & E & _).
  rewrite E, firstn_app, Nat.sub_diag, firstn_all. simpl.
  symmetry. apply app_nil_r.
Qed.

Section ReplaceFacts.
Variable S : Type.
Variable r : re.
Variable f : minfo -> S -> str * S.

(** A callback that hands every match back and leaves the store alone
    makes the replacement the identity. *)
Lemma replace_go_id : forall after before skip s,
  (forall pre suf m, after = pre ++ suf ->
     exec r (rev pre ++ before) suf = Some m ->
     forall s', f m s' = (m_text m, s')) ->
  skip <= length after ->
  replace_go r f before after skip s = (skipn skip after, s).
Proof.
  induction after as [|c after IH]; intros before skip s H Hs.
  - simpl in Hs. assert (skip = 0) by lia. subst. simpl.
    destruct (exec r before []) eqn:E; [|reflexivity].
    rewrite (H [] [] m eq_refl E).
    apply exec_length in E. simpl in E.
    destruct (m_text m); [reflexivity|simpl in E; lia].
  - assert (H' : forall pre suf m, after = pre ++ suf ->
              exec r (rev pre ++ c :: before) suf = Some m ->
              forall s', f m s' = (m_text m, s')).
    { intros pre suf m -> E. apply (H (c :: pre) suf m eq_refl).
      simpl. rewrite <- app_assoc. exact E. }
    destruct skip as [|n]; simpl.
    + destruct (exec r before (c :: after)) eqn:E.
      * rewrite (H [] (c :: after) m eq_refl E).
        pose proof E as Hl. apply exec_length in Hl.
        pose proof E as Hf. apply exec_firstn in Hf.
        destruct (length (m_text m)) as [|l] eqn:El.
        -- rewrite (IH (c :: before) 0 s H') by lia. simpl.
           destruct (m_text m); [reflexivity|discriminate].
        -- simpl in Hl. rewrite (IH (c :: before) l s H') by lia.
           rewrite Hf. simpl. f_equal. f_equal. apply firstn_skipn.
      * rewrite (IH (c :: before) 0 s H') by lia. reflexivity.
    + simpl in Hs. apply IH; [exact H'|lia].
Qed.

Lemma replace_st_id text s :
  (forall m, matches_in r text m -> forall s', f m s' = (m_text m, s')) ->
  replace_st r f text s = (text, s).
Proof.
  intros H. unfold replace_st. rewrite replace_go_id; [reflexivity| |lia].
  intros pre suf m -> E. apply H. exists (rev pre), suf.
  rewrite rev_involutive. split; [reflexivity|].
  rewrite app_nil_r in E. exact E.
Qed.

Lemma replace_st_no_match text s :
  (forall m, ~ matches_in r text m) -> replace_st r f text s = (text, s).
Proof.
  intros H. apply replace_st_id. intros m Hm. destruct (H m Hm).
Qed.

(** What every callback preserves, the whole replacement preserves. *)
Lemma replace_go_preserves (P : S -> Prop) :
  (forall m s, P s -> P (snd (f m s))) ->
  forall after before skip s, P s -> P (snd (replace_go r f before after skip s)).
Proof.
  intros Hf. induction after as [|c after IH]; intros before skip s Hs.
  - destruct skip; simpl; [|exact Hs].
    destruct (exec r before []); [apply Hf|]; exact Hs.
  - destruct skip as [|n]; simpl; [|apply IH; exact Hs].
    destruct (exec r before (c :: after)) as [m|].
    + specialize (Hf m s Hs). destruct (f m s) as [out s1]. simpl in Hf.
      destruct (length (m_text m)) as [|l].
      * specialize (IH (c :: before) 0 s1 Hf).
        destruct (replace_go r f (c :: before) after 0 s1). exact IH.
      * specialize (IH (c :: before) l s1 Hf).
        destruct (replace_go r f (c :: before) after l s1). exact IH.
    + specialize (IH (c :: before) 0 s Hs).
      destruct (replace_go r f (c :: before) after 0 s). exact IH.
Qed.

Lemma replace_st_preserves (P : S -> Prop) text s :
  (forall m s, P s -> P (snd (f m s))) ->
  P s -> P (snd (replace_st r f text s)).
Proof. intros Hf Hs. unfold replace_st. apply replace_go_preserves; assumption. Qed.
End ReplaceFacts.

(** ** Extraction *)

(** *** Fences *)

Lemma lang_Lit s : forall w, lang (Lit s) w -> w = s.
Proof.
  induction s as [|c s IH]; intros w H; simpl in H.
  - exact H.
  - destruct H as (w1 & w2 & -> & -> & H). apply IH in H. subst. reflexivity.
Qed.

Lemma lang_fence_lang w :
  lang re_fence_lang w -> exists b, w = fence ++ b ++ fence.
Proof.
  unfold re_fence_lang. cbn [Seqs]. intros H.
  destruct H as (w1 & t1 & -> & L1 & H). destruct H as (w2 & t2 & -> & _ & H).
  destruct H as (w3 & t3 & -> & _ & H). destruct H as (w4 & t4 & -> & _ & H).
  destruct H as (w5 & t5 & -> & _ & H). destruct H as (w6 & w7 & -> & _ & H).
  cbn [lang] in L1, H. apply lang_Lit in L1, H. subst w1 w7.
  exists (w2 ++ w3 ++ w4 ++ w5 ++ w6).
  rewrite <- !app_assoc. reflexivity.
Qed.

Lemma lang_fence_plain w :
  lang re_fence_plain w -> exists b, w = fence ++ b ++ fence.
Proof.
  unfold re_fence_plain. cbn [Seqs]. intros H.
  destruct H as (w1 & t1 & -> & L1 & H). destruct H as (w2 & t2 & -> & _ & H).
  destruct H as (w3 & t3 & -> & _ & H). destruct H as (w4 & t4 & -> & _ & H).
  destruct H as (w5 & w6 & -> & _ & H).
  cbn [lang] in L1, H. apply lang_Lit in L1, H. subst w1 w6.
  exists (w2 ++ w3 ++ w4 ++ w5).
  rewrite <- !app_assoc. reflexivity.
Qed.



Lemma on_inline_first_codeBlocks m s :
  codeBlocks (snd (on_inline_first m s)) = codeBlocks s.
Proof. reflexivity. Qed.

Lemma on_table_codeBlocks m s :
  codeBlocks (snd (on_table m s)) = codeBlocks s.
Proof.
  unfold on_table. destruct (_ <? 2); [reflexivity|].
  destruct (negb _); reflexivity.
Qed.

Lemma on_inline_second_codeBlocks m s :
  codeBlocks (snd (on_inline_second m s)) = codeBlocks s.
Proof. unfold on_inline_second. destruct (Nat.eqb _ _); reflexivity. Qed.


(** *** Sentinels *)

Lemma parseInt_dec_digits : forall fuel n acc,
  n < fuel ->
  fold_left digit_step (dec_digits fuel n acc) 0%N
  = fold_left digit_step acc (N.of_nat n).
Proof.
  induction fuel as [|fuel IH]; intros n acc Hn; [lia|].
  cbn [dec_digits]. destruct (Nat.ltb_spec n 10) as [Hs|Hs].
  - cbn [fold_left]. f_equal. unfold digit_step.
    rewrite Nat.mod_small by exact Hs. lia.
  - rewrite IH.
    + cbn [fold_left]. f_equal. unfold digit_step.
      pose proof (Nat.div_mod_eq n 10). lia.
    + pose proof (Nat.div_lt n 10). lia.
Qed.

Lemma parseInt_dec n : parseInt (dec n) = N.of_nat n.
Proof. unfold parseInt, dec. apply parseInt_dec_digits. lia. Qed.








(** ** Decimal indices and runs of digits *)

Lemma is_digit_mod n : is_digit (48 + N.of_nat (n mod 10))%N = true.
Proof.
  unfold is_digit, c_in. change (ch "0") with 48%N. change (ch "9") with 57%N.
  pose proof (Nat.mod_upper_bound n 10).
  apply andb_true_intro. split; apply N.leb_le; lia.
Qed.

Lemma dec_digits_shape : forall fuel n acc,
  exists pre, dec_digits fuel n acc = pre ++ acc /\ all_digits pre /\
              (0 < fuel -> pre <> []).
Proof.
  induction fuel as [|fuel IH]; intros n acc.
  - exists []. repeat split; [constructor|lia].
  - cbn [dec_digits]. destruct (n <? 10).
    + exists [(48 + N.of_nat (n mod 10))%N]. repeat split.
      * constructor; [apply is_digit_mod|constructor].
      * discriminate.
    + destruct (IH (n / 10) ((48 + N.of_nat (n mod 10))%N :: acc))
        as (pre & E & D & _).
      exists (pre ++ [(48 + N.of_nat (n mod 10))%N]). repeat split.
      * rewrite E, <- app_assoc. reflexivity.
      * apply Forall_app. split; [exact D|].
        constructor; [apply is_digit_mod|constructor].
      * intros _ C. apply app_eq_nil in C. destruct C as [_ C]. discriminate.
Qed.

Lemma dec_shape n : exists d ds, dec n = d :: ds /\ all_digits (d :: ds).
Proof.
  unfold dec. destruct (dec_digits_shape (S n) n []) as (pre & E & D & N).
  rewrite app_nil_r in E. rewrite E.
  destruct pre as [|d ds]; [exfalso; apply N; [lia|reflexivity]|].
  exists d, ds. auto.
Qed.

Lemma clear_caps_nil st : clear_caps [] st = st.
Proof.
  destruct st as [a b cs]. unfold clear_caps. simpl. f_equal.
  induction cs as [|c cs IH]; simpl; [reflexivity|]. f_equal. exact IH.
Qed.

(** A greedy loop over a character class runs to the end of the run of
    such characters when the continuation succeeds there. *)
Lemma star_loop_greedy_run p k f : forall ds sn cs tl n,
  Forall (fun c => p c = true) ds ->
  (tl = [] \/ exists x l, tl = x :: l /\ p x = false) ->
  length (ds ++ tl) < n ->
  k (MState (rev ds ++ sn) tl cs) = Found f ->
  star_loop (mt (Cls p)) [] true k n (MState sn (ds ++ tl) cs) = Found f.
Proof.
  induction ds as [|d ds IH]; intros sn cs tl n Hd Ht Hn Hk.
  - destruct n as [|n]; [simpl in Hn; lia|].
    cbn [star_loop]. rewrite clear_caps_nil. simpl in Hk |- *.
    destruct Ht as [->|(x & l & -> & Hx)]; simpl.
    + exact Hk.
    + rewrite Hx. simpl. exact Hk.
  - destruct n as [|n]; [simpl in Hn; lia|].
    inversion Hd as [|? ? Hp Hd']; subst.
    cbn [star_loop]. rewrite clear_caps_nil. cbn [mt rest app seen caps].
    rewrite Hp.
    assert (L : (length (ds ++ tl) <? length (d :: ds ++ tl)) = true).
    { apply Nat.ltb_lt. simpl. lia. }
    rewrite L. rewrite IH; auto.
    + simpl in Hn. lia.
    + simpl in Hk. rewrite <- app_assoc in Hk. exact Hk.
Qed.

(** ** The sentinel pattern on a sentinel *)

Lemma mt_Lit s : forall sn tl cs k,
  mt (Lit s) (MState sn (s ++ tl) cs) k = k (MState (rev s ++ sn) tl cs).
Proof.
  induction s as [|c s IH]; intros sn tl cs k.
  - reflexivity.
  - cbn [Lit mt rest seen caps app]. rewrite N.eqb_refl, IH.
    simpl. rewrite <- app_assoc. reflexivity.
Qed.

Lemma firstn_app_exact (A : Type) (a b : list A) :
  firstn (length (a ++ b) - length b) (a ++ b) = a.
Proof.
  rewrite length_app, Nat.add_sub, firstn_app, Nat.sub_diag, firstn_all.
  simpl. apply app_nil_r.
Qed.

Lemma mt_Seq a b st k : mt (Seq a b) st k = mt a st (fun st' => mt b st' k).
Proof. reflexivity. Qed.

Lemma mt_Group i a st k :
  mt (Group i a) st k
  = mt a st (fun st' =>
       k (set_cap i (firstn (length (rest st) - length (rest st')) (rest st))
            st')).
Proof. reflexivity. Qed.

Lemma mt_Star g a st k :
  mt (Star g a) st k
  = star_loop (mt a) (groups_of a) g k (S (length (rest st))) st.
Proof. reflexivity. Qed.

Lemma mt_Cls_cons p x xs sn cs k :
  p x = true ->
  mt (Cls p) (MState sn (x :: xs) cs) k = k (MState (x :: sn) xs cs).
Proof. intros H. cbn [mt rest seen caps]. rewrite H. reflexivity. Qed.

Lemma sentinel_exec before n :
  exec re_inline_sentinel before (placeholder INLINECODE n)
  = Some (MInfo before (placeholder INLINECODE n) [(1, dec n)] []).
Proof.
  destruct (dec_shape n) as (d & ds & E & D).
  inversion D as [|? ? Hd Hds]; subst.
  unfold exec, re_inline_sentinel, placeholder. cbn [Seqs region_name].
  replace (u "__" ++ u "INLINECODE" ++ u "_" ++ dec n ++ u "__")
    with (u "__INLINECODE_" ++ dec n ++ u "__") by reflexivity.
  rewrite mt_Seq, mt_Lit, mt_Seq, mt_Group. unfold Plus.
  rewrite mt_Seq. cbn [rest]. rewrite E. cbn [app].
  rewrite mt_Cls_cons by exact Hd. rewrite mt_Star. cbn [groups_of rest].
  rewrite star_loop_greedy_run
    with (f := MState (rev (u "__") ++ rev ds ++ d :: rev (u "__INLINECODE_") ++ before)
                 [] [(1, d :: ds)]).
  - cbn [rest length]. rewrite Nat.sub_0_r, firstn_all. reflexivity.
  - exact Hds.
  - right. exists (ch "_"), [ch "_"]. split; reflexivity.
  - lia.
  - cbn [rest seen caps set_cap].
    change (d :: ds ++ u "__") with ((d :: ds) ++ u "__").
    rewrite firstn_app_exact.
    reflexivity.
Qed.

(** Stepping over a match that reaches the end of the text: nothing is
    left to copy, and a pattern that needs a character finds nothing
    there. *)
Lemma replace_go_skip_end (S : Type) r (f : minfo -> S -> str * S) :
  (forall b, exec r b [] = None) ->
  forall after before s,
    replace_go r f before after (length after) s = ([], s).
Proof.
  intros H. induction after as [|c after IH]; intros before s.
  - simpl. rewrite H. reflexivity.
  - simpl. apply IH.
Qed.

Lemma sentinel_exec_end b : exec re_inline_sentinel b [] = None.
Proof. reflexivity. Qed.

Lemma restore_out_of_range codes n :
  length codes <= n ->
  restore_in_cell codes (placeholder INLINECODE n) = placeholder INLINECODE n.
Proof.
  intros Hn. unfold restore_in_cell, replace_fn, replace_st.
  pose proof (sentinel_exec [] n) as E.
  remember (placeholder INLINECODE n) as P eqn:HP.
  assert (HP' : exists c P', P = c :: P') by (subst P; eexists _, _; reflexivity).
  destruct HP' as (c & P' & ->).
  cbn [replace_go]. rewrite E. cbn [m_text length].
  rewrite replace_go_skip_end by apply sentinel_exec_end.
  unfold on_inline_sentinel, group. cbn [m_caps get_cap Nat.eqb m_text fst].
  rewrite parseInt_dec.
  replace (N.of_nat n <? N.of_nat (length codes))%N with false.
  - rewrite andb_false_r. apply app_nil_r.
  - symmetry. apply N.ltb_ge. lia.
Qed.

(** ** Patterns that cannot match *)

Lemma replace_str_no_match r tpl text :
  (forall m, ~ matches_in r text m) -> replace_str r tpl text = text.
Proof.
  intros H. unfold replace_str, replace_fn.
  rewrite replace_st_no_match by exact H. reflexivity.
Qed.

(** A pattern all of whose words hold [c] matches nowhere in a text
    without [c]. *)
Lemma no_match_without r c text :
  (forall w, lang r w -> In c w) -> ~ In c text ->
  forall m, ~ matches_in r text m.
Proof.
  intros Hr Hc m (before & after & -> & E).
  apply exec_sound in E. destruct E as (_ & E & L & _).
  apply Hc. apply in_or_app. right. rewrite E. apply in_or_app. left.
  apply Hr. exact L.
Qed.

Lemma lang_Lit_cons c s r w : lang (Seq (Lit (c :: s)) r) w -> In c w.
Proof.
  intros (w1 & w2 & -> & L & _). apply lang_Lit in L. subst. left. reflexivity.
Qed.

Lemma lang_bold w : lang re_bold w -> In (ch "*") w.
Proof. apply lang_Lit_cons. Qed.

Lemma lang_strike w : lang re_strike w -> In (ch "~") w.
Proof. apply lang_Lit_cons. Qed.

Lemma lang_image w : lang re_image w -> In (ch "!") w.
Proof. apply lang_Lit_cons. Qed.

Lemma lang_link w : lang re_link w -> In (ch "[") w.
Proof.
  intros (w1 & w2 & -> & L & _). simpl in L. subst. left. reflexivity.
Qed.

Lemma lang_italic a w : lang (re_italic a) w -> In (ch a) w.
Proof.
  intros (w1 & w2 & -> & L & w3 & w4 & -> & L' & _). simpl in L, L'. subst.
  left. reflexivity.
Qed.

Lemma lang_Star_cls g p : forall w,
  lang (Star g (Cls p)) w -> Forall (fun c => p c = true) w.
Proof.
  intros w (ws & -> & F). induction F as [|x ws Hx F IH]; simpl.
  - constructor.
  - destruct Hx as (c & -> & Hc). constructor; assumption.
Qed.

Lemma lang_Plus_cls g p w :
  lang (Plus g (Cls p)) w -> w <> [] /\ Forall (fun c => p c = true) w.
Proof.
  intros (w1 & w2 & -> & (c & -> & Hc) & L). apply lang_Star_cls in L.
  split; [discriminate|]. constructor; assumption.
Qed.

(** The shape of a match of an italic pattern. *)
Lemma italic_match_shape a text m :
  matches_in (re_italic a) text m ->
  exists before w post,
    text = rev before ++ ch a :: w ++ ch a :: post /\
    w <> [] /\ ~ In (ch a) w /\
    (before = [] \/ exists x l, before = x :: l /\ x <> ch a) /\
    (post = [] \/ exists x l, post = x :: l /\ x <> ch a).
Proof.
  intros (before & after & -> & E).
  apply exec_sound in E. destruct E as (_ & _ & _ & st' & H & _).
  unfold re_italic in H. cbn [Seqs sem seen rest caps] in H.
  destruct H as (st1 & (-> & Hb) & st2 & (xs & E2 & ->) & st3 &
                 (st3' & Hw & ->) & st4 & (ys & E4 & ->) & (-> & Ha)).
  cbn [seen rest caps set_cap] in *.
  apply sem_lang in Hw. destruct Hw as (w & Lw & A1 & A2).
  cbn [seen rest caps] in A1, A2.
  apply lang_Plus_cls in Lw. destruct Lw as (Hne & Hw).
  exists before, w, ys. repeat split.
  - rewrite E2, A1, E4. reflexivity.
  - exact Hne.
  - intros Hin. rewrite Forall_forall in Hw. apply Hw in Hin.
    unfold c_is in Hin. rewrite N.eqb_refl in Hin. discriminate.
  - destruct Hb as [Hb|(x & l & Hb & Hx)]; [left; exact Hb|right].
    exists x, l. split; [exact Hb|]. intros ->. unfold c_is in Hx.
    rewrite N.eqb_refl in Hx. discriminate.
  - cbn [mt rest] in Ha. destruct ys as [|y ys']; [left; reflexivity|right].
    exists y, ys'. split; [reflexivity|]. intros ->.
    rewrite N.eqb_refl in Ha. discriminate.
Qed.

Lemma app_eq_cons_inv (pre : str) x suf c t :
  pre ++ x :: suf = c :: t ->
  (pre = [] /\ x = c /\ suf = t) \/
  (exists pre', pre = c :: pre' /\ pre' ++ x :: suf = t).
Proof.
  destruct pre as [|y pre']; simpl; intros H; injection H as -> <-.
  - left. auto.
  - right. eauto.
Qed.

(** Two ways to cut a text at an occurrence of [c], the first of them at
    the first occurrence. *)
Lemma split_at_first (c : char) : forall a b a' b',
  ~ In c a -> a ++ c :: b = a' ++ c :: b' ->
  (a' = a /\ b' = b) \/ (exists q, a' = a ++ c :: q /\ b = q ++ c :: b').
Proof.
  induction a as [|x a IH]; intros b a' b' Hc H.
  - destruct a' as [|y q]; simpl in H.
    + injection H as ->. left. auto.
    + injection H as <- ->. right. exists q. auto.
  - destruct a' as [|y a1]; simpl in H.
    + injection H as -> _. exfalso. apply Hc. left. reflexivity.
    + injection H as <- H. apply IH in H.
      * destruct H as [[-> ->]|(q & -> & ->)]; [left; auto|right].
        exists q. auto.
      * intros Hin. apply Hc. right. exact Hin.
Qed.

Lemma dec_no_char (a : ascii) n : is_digit (ch a) = false -> ~ In (ch a) (dec n).
Proof.
  intros Ha Hin. destruct (dec_shape n) as (d & ds & E & D).
  rewrite E in Hin. unfold all_digits in D. rewrite Forall_forall in D.
  apply D in Hin. congruence.
Qed.

Lemma placeholder_no_char (a : ascii) k n :
  is_digit (ch a) = false -> is_upper (ch a) = false -> ch a <> ch "_" ->
  ~ In (ch a) (placeholder k n).
Proof.
  intros Hd Hu Hn Hin. unfold placeholder in Hin.
  change (ch "_") with 95%N in Hn.
  repeat (apply in_app_or in Hin; destruct Hin as [Hin|Hin]).
  - simpl in Hin. intuition congruence.
  - assert (Forall (fun c => is_upper c = true) (region_name k))
      by (destruct k; repeat constructor).
    rewrite Forall_forall in H. apply H in Hin. congruence.
  - simpl in Hin. intuition congruence.
  - exact (dec_no_char a n Hd Hin).
  - simpl in Hin. intuition congruence.
Qed.

Lemma placeholder_no_italic n m :
  ~ matches_in (re_italic "_") (placeholder INLINECODE n) m.
Proof.
  intros Hm. apply italic_match_shape in Hm.
  destruct Hm as (before & w & post & E & Hne & Hw & Hb & Hp).
  assert (Hds : ~ In (ch "_") (dec n)) by (apply dec_no_char; reflexivity).
  unfold placeholder in E. cbn [region_name] in E.
  remember (dec n) as ds eqn:Eds. clear Eds.
  remember (rev before) as pre eqn:Epre.
  change (u "__" ++ u "INLINECODE" ++ u "_" ++ ds ++ u "__")
    with (ch "_" :: ch "_" :: u "INLINECODE" ++ ch "_" :: ds ++ ch "_" :: [ch "_"])
    in E.
  symmetry in E. apply app_eq_cons_inv in E.
  destruct E as [(-> & _ & E)|(pre1 & -> & E)].
  { destruct w as [|y w']; [congruence|]. injection E as -> _.
    apply Hw. left. reflexivity. }
  apply app_eq_cons_inv in E.
  destruct E as [(-> & _ & E)|(pre2 & -> & E)].
  { apply (f_equal (@rev char)) in Epre. rewrite rev_involutive in Epre.
    simpl in Epre. subst before.
    destruct Hb as [Hb|(x & l & Hb & Hx)]; [discriminate|].
    injection Hb as <- _. apply Hx. reflexivity. }
  cbn [u list_ascii_of_string map app] in E.
  do 10 (apply app_eq_cons_inv in E;
         destruct E as [(_ & E & _)|(? & -> & E)]; [discriminate E|]).
  apply app_eq_cons_inv in E.
  destruct E as [(-> & _ & E)|(pre3 & -> & E)].
  { apply split_at_first in E; [|exact Hw].
    destruct E as [[_ E]|(q & E & _)].
    - subst post. destruct Hp as [Hp|(x & l & Hp & Hx)]; [discriminate|].
      injection Hp as <- _. apply Hx. reflexivity.
    - apply Hds. rewrite E. apply in_or_app. right. left. reflexivity. }
  symmetry in E. apply split_at_first in E; [|exact Hds].
  destruct E as [[_ E]|(q & _ & E)].
  - destruct w; [congruence|].
    apply (f_equal (@length char)) in E. simpl in E.
    rewrite length_app in E. simpl in E. lia.
  - apply (f_equal (@length char)) in E. simpl in E.
    rewrite !length_app in E. simpl in E.
    rewrite length_app in E. simpl in E. lia.
Qed.

Lemma format_spans_placeholder n :
  format_spans (placeholder INLINECODE n) = placeholder INLINECODE n.
Proof.
  unfold format_spans.
  rewrite (@replace_str_no_match re_bold strong_template).
  2:{ apply no_match_without with (c := ch "*"); [apply lang_bold|].
      apply placeholder_no_char; [reflexivity|reflexivity|discriminate]. }
  rewrite (@replace_str_no_match (re_italic "*") em_template).
  2:{ apply no_match_without with (c := ch "*"); [apply lang_italic|].
      apply placeholder_no_char; [reflexivity|reflexivity|discriminate]. }
  rewrite (@replace_str_no_match (re_italic "_") em_template).
  2:{ intros m. apply placeholder_no_italic. }
  rewrite (@replace_str_no_match re_strike del_template).
  2:{ apply no_match_without with (c := ch "~"); [apply lang_strike|].
      apply placeholder_no_char; [reflexivity|reflexivity|discriminate]. }
  rewrite (@replace_str_no_match re_link link_template).
  2:{ apply no_match_without with (c := ch "["); [apply lang_link|].
      apply placeholder_no_char; [reflexivity|reflexivity|discriminate]. }
  apply replace_str_no_match.
  apply no_match_without with (c := ch "!"); [apply lang_image|].
  apply placeholder_no_char; [reflexivity|reflexivity|discriminate].
Qed.

(** ** Sentinels inside sentinels *)







(** ** The claims *)

(** The claims that are settled on the definitions and the lemmas above,
    and the inputs at which C5, C7 and C9 fail as the spec states them.
    C2, C7 and C9 speak of every text; they come in the last part, after
    the properties they rest on. *)

(** C1.  An input that holds [<script>] does not always come out with
    [&lt;script&gt;] in it.  The restoration loops hand the escaped code to
    [replace] as a replacement string, so a dollar sign in front of the
    escaped text is read as the pattern [$&]: for [`$<script>`] the
    ampersand of [&lt;] is consumed and the sentinel is pasted in its
    place.  The second input loses the text altogether: the span found by
    the first inline-code pass lies inside the span found by the second
    one, and its sentinel is restored before the outer span is. *)
Theorem script_entity_lost_in_restoration :
  contains (u "<script>") (u "`$<script>`") = true /\
  parseMarkdown (u "`$<script>`")
  = uq "<p><code class='inline-code'>__INLINECODE_0__lt;script&gt;</code></p>" /\
  contains (u "&lt;script&gt;") (parseMarkdown (u "`$<script>`")) = false /\
  contains (u "<script>") (parseMarkdown (u "`$<script>`")) = false /\
  parseMarkdown (u "`a" ++ [nl] ++ u "`<script>` b" ++ [nl] ++ u "`")
  = uq "<p><code class='inline-code'>a" ++ [nl] ++ u "__INLINECODE_0__ b"
    ++ [nl] ++ u "</code></p>".
Proof. vm_compute. repeat split. Qed.

(** C3.  The output of a call does not depend on the store it starts
    from: the three arrays are allocated afresh on entry.  So a second
    call on the same text, run from whatever the first one left behind,
    gives the same output. *)
Theorem parseMarkdown_deterministic (T : str) :
  (forall s1 s2, fst (parseMarkdown_st T s1) = fst (parseMarkdown_st T s2)) /\
  (forall s, fst (parseMarkdown_st T s) = parseMarkdown T) /\
  (forall s,
     fst (parseMarkdown_st T (snd (parseMarkdown_st T s)))
     = fst (parseMarkdown_st T s)).
Proof.
  assert (H : forall s1 s2,
             fst (parseMarkdown_st T s1) = fst (parseMarkdown_st T s2)).
  { intros s1 s2. unfold parseMarkdown_st.
    destruct (negb (truthy T)); reflexivity. }
  repeat split; intros; apply H.
Qed.

(** C4 (code defect).  The fence with the unknown tag [frobnicate] is
    turned down by STEP 1a and then taken by STEP 1b, whose pattern makes
    the line break after the opening fence optional: the output is a
    [plaintext] code block whose content starts with the tag, and the
    backticks are gone. *)
Theorem unknown_language_becomes_plaintext_block :
  parseMarkdown (u "```frobnicate" ++ [nl] ++ u "x" ++ [nl] ++ u "```")
  = u "<p>"
      ++ code_block_html
           (mkCodeBlock (u "plaintext") (u "frobnicate" ++ [nl] ++ u "x"))
      ++ u "</p>" /\
  contains (uq "<pre class='code-block'>")
    (parseMarkdown (u "```frobnicate" ++ [nl] ++ u "x" ++ [nl] ++ u "```"))
  = true /\
  contains fence
    (parseMarkdown (u "```frobnicate" ++ [nl] ++ u "x" ++ [nl] ++ u "```"))
  = false.
Proof. vm_compute. repeat split. Qed.

(** C5, as the spec states it, fails: the output has no strong element. *)
Lemma nested_emphasis_has_no_strong :
  contains (u "<strong>") (parseMarkdown (u "**bold *and italic* text**"))
  = false.
Proof. vm_compute. reflexivity. Qed.

(** C5, amended.  The bold pattern admits no star between its markers, so
    the outer markers stay as they are and only the inner span becomes an
    emphasis element. *)
Theorem nested_emphasis_inner_only :
  parseMarkdown (u "**bold *and italic* text**")
  = u "<p>**bold <em>and italic</em> text**</p>".
Proof. vm_compute. reflexivity. Qed.

(** C6 (code defect).  The ordered-list rule removes the digits and the
    dot when it makes the list item, so the test for them in the wrapping
    callback never sees them: a list of digit-dot lines is wrapped in
    [<ul>]. *)
Theorem ordered_list_wrapped_as_unordered :
  parseMarkdown (u "1. a" ++ [nl] ++ u "2. b")
  = u "<p><ul><li>a</li><br><li>b</li></ul></p>" /\
  contains (u "<ol>") (parseMarkdown (u "1. a" ++ [nl] ++ u "2. b")) = false.
Proof. vm_compute. repeat split. Qed.


(** C8.  The three-line table comes out as one table with a header row
    of the two cells [A] and [B] and one body row of the two cells [1]
    and [2], every cell aligned to the left. *)
Theorem table_round_trip :
  let out :=
    parseMarkdown
      (u "| A | B |" ++ [nl] ++ u "|---|---|" ++ [nl] ++ u "| 1 | 2 |") in
  out
  = uq "<p><div class='table-wrapper'><table>"
    ++ uq "<thead><tr><th style='text-align: left'>A</th>"
    ++ uq "<th style='text-align: left'>B</th></tr></thead>"
    ++ uq "<tbody><tr><td style='text-align: left'>1</td>"
    ++ uq "<td style='text-align: left'>2</td></tr></tbody>"
    ++ u "</table></div></p>" /\
  count_sub (u "<table>") out = 1 /\
  count_sub (u "<th ") out = 2 /\
  count_sub (u "<td ") out = 2 /\
  count_sub (u "<tr>") out = 2 /\
  count_sub (u "text-align: left") out = 4 /\
  parseTable [u "| A | B |"; u "|---|---|"; u "| 1 | 2 |"] []
  = uq "<div class='table-wrapper'><table>"
    ++ uq "<thead><tr><th style='text-align: left'>A</th>"
    ++ uq "<th style='text-align: left'>B</th></tr></thead>"
    ++ uq "<tbody><tr><td style='text-align: left'>1</td>"
    ++ uq "<td style='text-align: left'>2</td></tr></tbody>"
    ++ u "</table></div>".
Proof. vm_compute. repeat split. Qed.


(** C10.  In parseInlineMarkdown a sentinel whose index is not below the
    length of the inline-code table is handed back by the callback as it
    is; a text all of whose sentinels are such leaves the sentinel pass
    unchanged; and a cell that is such a sentinel comes out of the whole
    function as the same text. *)
Theorem out_of_range_sentinel_unchanged (inlineCodes : list str) (n : nat) :
  length inlineCodes <= n ->
  (forall m, parseInt (group 1 m) = N.of_nat n ->
             on_inline_sentinel inlineCodes m = m_text m) /\
  (forall text,
     (forall m, matches_in re_inline_sentinel text m ->
                (N.of_nat (length inlineCodes) <= parseInt (group 1 m))%N) ->
     restore_in_cell inlineCodes text = text) /\
  restore_in_cell inlineCodes (placeholder INLINECODE n)
  = placeholder INLINECODE n /\
  parseInlineMarkdown (placeholder INLINECODE n) inlineCodes
  = placeholder INLINECODE n.
Proof.
  intros Hn.
  assert (Hcb : forall m,
             (N.of_nat (length inlineCodes) <= parseInt (group 1 m))%N ->
             on_inline_sentinel inlineCodes m = m_text m).
  { intros m Hm. unfold on_inline_sentinel.
    replace (parseInt (group 1 m) <? N.of_nat (length inlineCodes))%N
      with false by (symmetry; apply N.ltb_ge; exact Hm).
    rewrite andb_false_r. reflexivity. }
  split; [|split; [|split]].
  - intros m Hm. apply Hcb. rewrite Hm. lia.
  - intros text H. unfold restore_in_cell, replace_fn.
    rewrite replace_st_id; [reflexivity|].
    intros m Hm []. rewrite Hcb by (apply H; exact Hm). reflexivity.
  - apply restore_out_of_range. exact Hn.
  - unfold parseInlineMarkdown.
    replace (truthy (placeholder INLINECODE n)) with true by reflexivity.
    cbn [negb]. rewrite restore_out_of_range by exact Hn.
    apply format_spans_placeholder.
Qed.

(** Index 5 against a table of one inline code. *)
Lemma out_of_range_sentinel_witness :
  length [u "x"] <= 5 /\
  parseInlineMarkdown (placeholder INLINECODE 5) [u "x"]
  = placeholder INLINECODE 5.
Proof.
  assert (H : length [u "x"] <= 5) by (simpl; lia).
  split; [exact H|].
  exact (proj2 (proj2 (proj2 (out_of_range_sentinel_unchanged [u "x"] H)))).
Defined.

(** * Further properties *)

(** ** escapeHtml *)

(** *** Replacement of one character by a fixed text *)

Lemma subst_go_plain n m : forall t, ~ In (ch "$") t -> subst_go n m t = t.
Proof.
  induction t as [|c t IH]; intros H; [reflexivity|].
  cbn [subst_go].
  assert (Hc : c_is "$" c = false).
  { unfold c_is. apply N.eqb_neq. intros ->. apply H. left. reflexivity. }
  rewrite Hc. cbn [negb]. f_equal. apply IH. intros Hin. apply H. right. exact Hin.
Qed.

Lemma exec_Chr_cons c before x rest0 :
  exec (Chr c) before (x :: rest0)
  = if N.eqb x c then Some (MInfo before [x] [] rest0) else None.
Proof.
  unfold exec. cbn [mt rest seen caps]. destruct (N.eqb x c); [|reflexivity].
  cbn [rest length caps]. f_equal. f_equal.
  replace (S (length rest0) - length rest0) with 1 by lia. reflexivity.
Qed.

Lemma replace_go_Chr c (g : minfo -> str) (out : str) :
  (forall m, g m = out) ->
  forall after before,
    replace_go (Chr c) (fun m (_ : unit) => (g m, tt)) before after 0 tt
    = (flat_map (fun x => if N.eqb x c then out else [x]) after, tt).
Proof.
  intros Hg. induction after as [|x after IH]; intros before.
  - reflexivity.
  - cbn [replace_go flat_map]. rewrite exec_Chr_cons.
    destruct (N.eqb x c).
    + cbn [m_text length]. rewrite IH, Hg. reflexivity.
    + rewrite IH. reflexivity.
Qed.

Lemma replace_str_Chr c tpl text :
  ~ In (ch "$") tpl ->
  replace_str (Chr c) tpl text
  = flat_map (fun x => if N.eqb x c then tpl else [x]) text.
Proof.
  intros H. unfold replace_str, replace_fn, replace_st.
  rewrite replace_go_Chr with (out := tpl); [reflexivity|].
  intros m. unfold subst. apply subst_go_plain. exact H.
Qed.

(** *** escapeHtml, code unit by code unit *)

Lemma flat_map_flat_map (A B C : Type) (f : A -> list B) (g : B -> list C) l :
  flat_map g (flat_map f l) = flat_map (fun x => flat_map g (f x)) l.
Proof.
  induction l as [|x l IH]; [reflexivity|].
  simpl. rewrite flat_map_app, IH. reflexivity.
Qed.

Lemma escape_unit_cases c :
  (c = ch "&" /\ escape_unit c = u "&amp;") \/
  (c = ch "<" /\ escape_unit c = u "&lt;") \/
  (c = ch ">" /\ escape_unit c = u "&gt;") \/
  (c = dquote /\ escape_unit c = u "&quot;") \/
  (c = squote /\ escape_unit c = u "&#039;") \/
  (html_special c = false /\ escape_unit c = [c]).
Proof.
  unfold escape_unit, html_special, c_is.
  destruct (N.eqb_spec c (ch "&")); [subst; auto|].
  destruct (N.eqb_spec c (ch "<")); [subst; auto 6|].
  destruct (N.eqb_spec c (ch ">")); [subst; auto 7|].
  destruct (N.eqb_spec c dquote); [subst; auto 8|].
  destruct (N.eqb_spec c squote); [subst; auto 9|].
  auto 10.
Qed.

Lemma escapeHtml_units text : escapeHtml text = flat_map escape_unit text.
Proof.
  unfold escapeHtml. destruct text as [|c0 text0]; [reflexivity|].
  cbn [truthy negb]. set (text := c0 :: text0).
  rewrite !replace_str_Chr by (vm_compute; intuition discriminate).
  rewrite !flat_map_flat_map. apply flat_map_ext. intros c.
  unfold escape_unit, c_is.
  destruct (N.eqb_spec c (ch "&")); [subst; reflexivity|].
  destruct (N.eqb_spec c (ch "<")); [subst; reflexivity|].
  destruct (N.eqb_spec c (ch ">")); [subst; reflexivity|].
  destruct (N.eqb_spec c dquote); [subst; reflexivity|].
  destruct (N.eqb_spec c squote); [subst; reflexivity|].
  cbn [flat_map app].
  repeat match goal with
         | H : c <> ?k |- _ => apply N.eqb_neq in H
         end.
  cbn [flat_map app]. rewrite ?app_nil_r.
  repeat (match goal with
          | H : N.eqb c ?k = false |- context [N.eqb c ?k'] =>
              change (N.eqb c k') with (N.eqb c k); rewrite H
          end; cbn [flat_map app]).
  reflexivity.
Qed.

Lemma escape_unit_markup_free c : forallb markup_free (escape_unit c) = true.
Proof.
  destruct (escape_unit_cases c) as [[-> ->]|[[-> ->]|[[-> ->]|[[-> ->]|[[-> ->]|[H ->]]]]]];
    try reflexivity.
  cbn [forallb]. rewrite andb_true_r. unfold markup_free.
  unfold html_special in H. apply orb_false_elim in H. destruct H as [H H5].
  apply orb_false_elim in H. destruct H as [H H4].
  apply orb_false_elim in H. destruct H as [H H3].
  apply orb_false_elim in H. destruct H as [H1 H2].
  rewrite H2, H3, H4, H5. reflexivity.
Qed.

Lemma escape_unit_length c : 1 <= length (escape_unit c).
Proof.
  destruct (escape_unit_cases c) as [[-> ->]|[[-> ->]|[[-> ->]|[[-> ->]|[[-> ->]|[H ->]]]]]];
    simpl; lia.
Qed.

Lemma escape_unit_special_length c :
  html_special c = true -> 2 <= length (escape_unit c).
Proof.
  destruct (escape_unit_cases c) as [[-> ->]|[[-> ->]|[[-> ->]|[[-> ->]|[[-> ->]|[H ->]]]]]];
    simpl; try lia. congruence.
Qed.

Lemma escape_units_length text :
  length text <= length (flat_map escape_unit text).
Proof.
  induction text as [|c text IH]; simpl; [lia|].
  rewrite length_app. pose proof (escape_unit_length c). lia.
Qed.

(** X1.  The output of escapeHtml holds none of the four characters that
    open or close a tag or an attribute value. *)
Theorem escapeHtml_no_markup (text : str) :
  forallb markup_free (escapeHtml text) = true.
Proof.
  rewrite escapeHtml_units. induction text as [|c text IH]; [reflexivity|].
  simpl. rewrite forallb_app, IH, escape_unit_markup_free. reflexivity.
Qed.

(** X2.  escapeHtml works code unit by code unit. *)
Theorem escapeHtml_app (a b : str) :
  escapeHtml (a ++ b) = escapeHtml a ++ escapeHtml b /\
  (forall c, escapeHtml [c] = escape_unit c).
Proof.
  split.
  - rewrite !escapeHtml_units. apply flat_map_app.
  - intros c. rewrite escapeHtml_units. simpl. apply app_nil_r.
Qed.

(** X3.  escapeHtml never shortens a text, and returns it unchanged exactly
    when it holds none of the five characters. *)
Theorem escapeHtml_fixed_points (text : str) :
  length text <= length (escapeHtml text) /\
  (escapeHtml text = text <-> forallb (fun c => negb (html_special c)) text = true).
Proof.
  rewrite escapeHtml_units. split; [apply escape_units_length|].
  induction text as [|c text IH]; [simpl; tauto|].
  cbn [flat_map forallb]. split.
  - intros H. destruct (html_special c) eqn:Hc.
    + exfalso. apply (f_equal (@length char)) in H.
      rewrite length_app in H. simpl in H.
      pose proof (escape_unit_special_length c Hc).
      pose proof (escape_units_length text). lia.
    + destruct (escape_unit_cases c) as [[-> _]|[[-> _]|[[-> _]|[[-> _]|[[-> _]|[_ E]]]]]];
        try discriminate Hc.
      rewrite E in H. simpl in H. injection H as H. apply IH in H.
      rewrite H. reflexivity.
  - intros H. apply andb_prop in H. destruct H as [Hc H].
    apply IH in H. rewrite H.
    destruct (escape_unit_cases c) as [[-> _]|[[-> _]|[[-> _]|[[-> _]|[[-> _]|[_ E]]]]]];
      try discriminate Hc.
    rewrite E. reflexivity.
Qed.

Lemma escape_units_inj : forall a b,
  flat_map escape_unit a = flat_map escape_unit b -> a = b.
Proof.
  induction a as [|x a IH]; intros [|y b] H.
  - reflexivity.
  - exfalso. apply (f_equal (@length char)) in H. simpl in H.
    rewrite length_app in H. pose proof (escape_unit_length y). lia.
  - exfalso. apply (f_equal (@length char)) in H. simpl in H.
    rewrite length_app in H. pose proof (escape_unit_length x). lia.
  - cbn [flat_map] in H.
    assert (Hxy : x = y /\ flat_map escape_unit a = flat_map escape_unit b).
    { destruct (escape_unit_cases x) as [[-> Ex]|[[-> Ex]|[[-> Ex]|[[-> Ex]|[[-> Ex]|[Hx Ex]]]]]];
      destruct (escape_unit_cases y) as [[-> Ey]|[[-> Ey]|[[-> Ey]|[[-> Ey]|[[-> Ey]|[Hy Ey]]]]]];
      rewrite ?Ex, ?Ey in H; cbn [u list_ascii_of_string map app] in H;
      try discriminate H;
      try (injection H as H; split; [reflexivity|exact H]);
      try (injection H as H0 H; subst; discriminate);
      try (injection H as H0 H; subst; split; [reflexivity|exact H]). }
    destruct Hxy as [-> E]. f_equal. apply IH. exact E.
Qed.

(** X4.  escapeHtml loses nothing: two texts with the same escaped form are
    the same text. *)
Theorem escapeHtml_injective (a b : str) :
  escapeHtml a = escapeHtml b -> a = b.
Proof. rewrite !escapeHtml_units. apply escape_units_inj. Qed.

Lemma escapeHtml_injective_witness :
  escapeHtml (u "a<b") = escapeHtml (u "a<b") /\ u "a<b" = u "a<b".
Proof.
  split; [reflexivity|]. apply (@escapeHtml_injective (u "a<b") (u "a<b")).
  reflexivity.
Defined.

(** ** formatChatTitle *)

(** *** Runs of white space *)

Lemma span_split p : forall s,
  Forall (fun c => p c = true) (firstn (span_length p s) s) /\
  (skipn (span_length p s) s = [] \/
   exists x l, skipn (span_length p s) s = x :: l /\ p x = false).
Proof.
  induction s as [|c s [IH1 IH2]]; cbn [span_length].
  - split; [constructor|left; reflexivity].
  - destruct (p c) eqn:E.
    + cbn [firstn skipn]. split; [constructor; assumption|exact IH2].
    + cbn [firstn skipn]. split; [constructor|].
      right. exists c, s. split; [reflexivity|exact E].
Qed.

Lemma span_length_le p s : span_length p s <= length s.
Proof.
  induction s as [|c s IH]; cbn [span_length]; [lia|].
  destruct (p c); simpl; lia.
Qed.

Lemma exec_spaces_cons before c a :
  is_space c = true ->
  exec re_spaces before (c :: a)
  = Some (MInfo before (c :: firstn (span_length is_space a) a) []
            (skipn (span_length is_space a) a)).
Proof.
  intros Hc. destruct (span_split is_space a) as [R T].
  pose proof (span_length_le is_space a) as L.
  set (n := span_length is_space a) in *. clearbody n.
  unfold exec, re_spaces, Plus.
  rewrite mt_Seq, mt_Cls_cons by exact Hc. rewrite mt_Star.
  cbn [groups_of rest].
  rewrite <- (firstn_skipn n a) at 1 2.
  rewrite star_loop_greedy_run
    with (f := MState (rev (firstn n a) ++ c :: before) (skipn n a) []).
  - cbn [rest caps]. f_equal. f_equal.
    rewrite length_skipn.
    replace (length (c :: a) - (length a - n)) with (S n) by (cbn [length]; lia).
    reflexivity.
  - exact R.
  - exact T.
  - rewrite firstn_skipn. lia.
  - reflexivity.
Qed.

Lemma exec_spaces_none before a :
  match a with [] => True | c :: _ => is_space c = false end ->
  exec re_spaces before a = None.
Proof.
  intros H. unfold exec, re_spaces, Plus. rewrite mt_Seq.
  destruct a as [|c a]; [reflexivity|].
  cbn [mt rest]. rewrite H. reflexivity.
Qed.

Lemma collapse_true_span s :
  collapse_spaces true s
  = collapse_spaces true (skipn (span_length is_space s) s).
Proof.
  induction s as [|c s IH]; [reflexivity|].
  cbn [span_length collapse_spaces]. destruct (is_space c) eqn:E.
  - cbn [skipn]. exact IH.
  - cbn [skipn collapse_spaces]. rewrite E. reflexivity.
Qed.

Lemma replace_go_spaces (g : minfo -> str) :
  (forall m, g m = u " ") ->
  forall after before,
    replace_go re_spaces (fun m (_ : unit) => (g m, tt)) before after 0 tt
    = (collapse_spaces false after, tt) /\
    replace_go re_spaces (fun m (_ : unit) => (g m, tt)) before after
      (span_length is_space after) tt
    = (collapse_spaces true after, tt).
Proof.
  intros Hg. induction after as [|c after IH]; intros before.
  - split; reflexivity.
  - destruct (IH (c :: before)) as [IH0 IHr].
    cbn [span_length collapse_spaces]. destruct (is_space c) eqn:E.
    + split.
      * cbn [replace_go]. rewrite exec_spaces_cons by exact E.
        cbn [m_text length]. rewrite length_firstn.
        rewrite Nat.min_l by apply span_length_le.
        rewrite IHr, Hg. reflexivity.
      * cbn [replace_go]. exact IHr.
    + assert (X : replace_go re_spaces (fun m (_ : unit) => (g m, tt)) before
                    (c :: after) 0 tt
                  = (c :: collapse_spaces false after, tt)).
      { cbn [replace_go]. rewrite exec_spaces_none by exact E.
        rewrite IH0. reflexivity. }
      split; exact X.
Qed.

Lemma replace_spaces s : replace_str re_spaces (u " ") s = collapse_spaces false s.
Proof.
  unfold replace_str, replace_fn, replace_st.
  destruct (@replace_go_spaces (subst (ngroups re_spaces) (u " "))) with
    (after := s) (before := @nil char) as [E _].
  - intros m. reflexivity.
  - rewrite E. reflexivity.
Qed.

(** *** Collapsed and trimmed text *)

Lemma collapse_length : forall s b, length (collapse_spaces b s) <= length s.
Proof.
  induction s as [|c s IH]; intros b; [simpl; lia|].
  pose proof (IH true) as IHt. pose proof (IH false) as IHf.
  cbn [collapse_spaces]. destruct (is_space c); [destruct b|];
    cbn [length]; lia.
Qed.

Lemma collapse_true_head s :
  match collapse_spaces true s with
  | [] => True
  | d :: _ => is_space d = false
  end.
Proof.
  induction s as [|c s IH]; [exact I|].
  cbn [collapse_spaces]. destruct (is_space c) eqn:E; [exact IH|exact E].
Qed.

Lemma collapse_single_blanks : forall s b,
  single_blanks (collapse_spaces b s) = true.
Proof.
  induction s as [|c s IH]; intros b; [reflexivity|].
  cbn [collapse_spaces]. destruct (is_space c) eqn:E.
  - destruct b; [apply IH|].
    cbn [single_blanks]. rewrite IH, andb_true_r.
    replace (is_space (ch " ")) with true by reflexivity.
    rewrite N.eqb_refl. cbn [andb].
    pose proof (collapse_true_head s) as H.
    destruct (collapse_spaces true s); [reflexivity|]. rewrite H. reflexivity.
  - cbn [single_blanks]. rewrite E, IH. reflexivity.
Qed.

Lemma single_blanks_app_l : forall a b,
  single_blanks (a ++ b) = true -> single_blanks a = true.
Proof.
  induction a as [|c a IH]; intros b H; [reflexivity|].
  cbn [app single_blanks] in H |- *.
  apply andb_true_iff in H. destruct H as [H1 H2].
  apply andb_true_iff. split; [|apply (IH b H2)].
  destruct (is_space c); [|reflexivity].
  apply andb_true_iff in H1. destruct H1 as [H1 H3].
  rewrite H1. cbn [andb]. destruct a; [reflexivity|exact H3].
Qed.

Lemma drop_while_suffix p : forall s, exists a, s = a ++ drop_while p s.
Proof.
  induction s as [|c s [a IH]]; [exists []; reflexivity|].
  cbn [drop_while]. destruct (p c).
  - exists (c :: a). simpl. f_equal. exact IH.
  - exists []. reflexivity.
Qed.

Lemma drop_while_head p s :
  match drop_while p s with [] => True | c :: _ => p c = false end.
Proof.
  induction s as [|c s IH]; [exact I|].
  cbn [drop_while]. destruct (p c) eqn:E; [exact IH|exact E].
Qed.

Lemma single_blanks_app_r : forall a b,
  single_blanks (a ++ b) = true -> single_blanks b = true.
Proof.
  induction a as [|c a IH]; intros b H; [exact H|].
  cbn [app single_blanks] in H. apply andb_true_iff in H.
  apply IH. apply H.
Qed.

Lemma trim_shape s :
  exists a b, s = a ++ trim s ++ b /\
    match trim s with [] => True | c :: _ => is_space c = false end /\
    match rev (trim s) with [] => True | c :: _ => is_space c = false end.
Proof.
  unfold trim.
  destruct (drop_while_suffix is_space s) as [a Ha].
  pose proof (drop_while_head is_space s) as H1.
  set (y := drop_while is_space s) in *.
  destruct (drop_while_suffix is_space (rev y)) as [b Hb].
  pose proof (drop_while_head is_space (rev y)) as H2.
  set (z := drop_while is_space (rev y)) in *.
  exists a, (rev b). split; [|split].
  - rewrite <- rev_app_distr, <- Hb, rev_involutive. exact Ha.
  - assert (Hy : y = rev z ++ rev b)
      by (rewrite <- rev_app_distr, <- Hb, rev_involutive; reflexivity).
    destruct (rev z) as [|c t] eqn:Ez; [exact I|].
    rewrite Hy in H1. exact H1.
  - rewrite rev_involutive. exact H2.
Qed.

Lemma trim_tidy s : single_blanks s = true -> tidy (trim s) = true.
Proof.
  intros H. destruct (trim_shape s) as (a & b & E & H1 & H2).
  unfold tidy. rewrite E in H.
  apply single_blanks_app_r, single_blanks_app_l in H. rewrite H. cbn [andb].
  destruct (trim s) as [|c t].
  - reflexivity.
  - rewrite H1. cbn [negb andb]. destruct (rev (c :: t)); [reflexivity|].
    rewrite H2. reflexivity.
Qed.

Lemma trim_length s : length (trim s) <= length s.
Proof.
  destruct (trim_shape s) as (a & b & E & _).
  rewrite E at 2. rewrite !length_app. lia.
Qed.

Lemma drop_while_id p s :
  match s with [] => True | c :: _ => p c = false end -> drop_while p s = s.
Proof. destruct s as [|c s]; [reflexivity|]. intros H. simpl. rewrite H. reflexivity. Qed.

Lemma trim_id s :
  match s with [] => True | c :: _ => is_space c = false end ->
  match rev s with [] => True | c :: _ => is_space c = false end ->
  trim s = s.
Proof.
  intros H1 H2. unfold trim.
  rewrite (drop_while_id is_space s H1), (drop_while_id is_space (rev s) H2).
  apply rev_involutive.
Qed.

Lemma collapse_id : forall s,
  single_blanks s = true -> collapse_spaces false s = s.
Proof.
  induction s as [|c s IH]; intros H; [reflexivity|].
  cbn [single_blanks] in H. apply andb_true_iff in H. destruct H as [H1 H2].
  cbn [collapse_spaces]. destruct (is_space c) eqn:E.
  - apply andb_true_iff in H1. destruct H1 as [H1 H3].
    apply N.eqb_eq in H1. subst c. f_equal.
    destruct s as [|d s]; [reflexivity|].
    cbn [collapse_spaces]. apply negb_true_iff in H3. rewrite H3.
    specialize (IH H2). cbn [collapse_spaces] in IH. rewrite H3 in IH. exact IH.
  - f_equal. apply IH. exact H2.
Qed.

Lemma tidy_parts s :
  tidy s = true ->
  single_blanks s = true /\
  match s with [] => True | c :: _ => is_space c = false end /\
  match rev s with [] => True | c :: _ => is_space c = false end.
Proof.
  unfold tidy. intros H.
  apply andb_true_iff in H. destruct H as [H H3].
  apply andb_true_iff in H. destruct H as [H1 H2].
  split; [exact H1|]. split.
  - destruct s; [exact I|]. apply negb_true_iff. exact H2.
  - destruct (rev s); [exact I|]. apply negb_true_iff. exact H3.
Qed.

(** *** The ellipsis *)

Lemma collapse_app_dots : forall a b,
  collapse_spaces b (a ++ u "...") = collapse_spaces b a ++ u "...".
Proof.
  induction a as [|c a IH]; intros b.
  - destruct b; reflexivity.
  - cbn [app collapse_spaces]. destruct (is_space c).
    + destruct b; rewrite IH; reflexivity.
    + rewrite IH. reflexivity.
Qed.

Lemma drop_while_app_dots : forall a,
  drop_while is_space (a ++ u "...") = drop_while is_space a ++ u "...".
Proof.
  induction a as [|c a IH]; [reflexivity|].
  cbn [app drop_while]. destruct (is_space c); [exact IH|reflexivity].
Qed.

Lemma trim_app_dots a :
  trim (a ++ u "...") = drop_while is_space a ++ u "...".
Proof.
  unfold trim. rewrite drop_while_app_dots.
  set (a' := drop_while is_space a).
  rewrite rev_app_distr.
  change (rev (u "...")) with (u "...").
  change (u "..." ++ rev a') with (ch "." :: (u ".." ++ rev a')).
  cbn [drop_while].
  replace (is_space (ch ".")) with false by reflexivity.
  change (ch "." :: (u ".." ++ rev a')) with (rev (u "...") ++ rev a').
  rewrite <- rev_app_distr. apply rev_involutive.
Qed.

(** *** formatChatTitle *)

Lemma formatChatTitle_eq content :
  formatChatTitle content
  = trim (collapse_spaces false
            (if 30 <? length content then firstn 30 content ++ u "..."
             else content)).
Proof. unfold formatChatTitle. rewrite replace_spaces. reflexivity. Qed.

Lemma formatChatTitle_short_tidy content :
  short_tidy (formatChatTitle content) = true.
Proof.
  unfold short_tidy. rewrite formatChatTitle_eq.
  apply andb_true_iff. split.
  - apply trim_tidy, collapse_single_blanks.
  - apply Nat.leb_le.
    etransitivity; [apply trim_length|].
    etransitivity; [apply collapse_length|].
    destruct (Nat.ltb_spec 30 (length content)) as [H|H]; [|lia].
    rewrite length_app, length_firstn.
    change (length (u "...")) with 3. lia.
Qed.

(** X5.  A chat title has at most 33 code units; its only white space is
    single blanks between other characters, so it holds no line break
    and neither starts nor ends with a blank. *)
Theorem formatChatTitle_tidy (content : str) :
  length (formatChatTitle content) <= 33 /\ tidy (formatChatTitle content) = true.
Proof.
  pose proof (formatChatTitle_short_tidy content) as H.
  unfold short_tidy in H. apply andb_true_iff in H. destruct H as [H1 H2].
  apply Nat.leb_le in H2. split; assumption.
Qed.

(** X6.  A text of at most 30 code units is its own title exactly when it
    is tidy already. *)
Theorem formatChatTitle_fixed_points (content : str) :
  length content <= 30 ->
  (formatChatTitle content = content <-> tidy content = true).
Proof.
  intros L. split.
  - intros E. rewrite <- E.
    pose proof (formatChatTitle_short_tidy content) as H.
    unfold short_tidy in H. apply andb_true_iff in H. apply H.
  - intros T. apply tidy_parts in T. destruct T as (T1 & T2 & T3).
    rewrite formatChatTitle_eq.
    replace (30 <? length content) with false
      by (symmetry; apply Nat.ltb_ge; exact L).
    rewrite collapse_id by exact T1. apply trim_id; assumption.
Qed.

Lemma formatChatTitle_fixed_points_witness :
  length (u "Hello world") <= 30 /\
  (formatChatTitle (u "Hello world") = u "Hello world"
   <-> tidy (u "Hello world") = true).
Proof.
  split; [simpl; lia|].
  apply (@formatChatTitle_fixed_points (u "Hello world")). simpl. lia.
Defined.

(** X7.  A text of more than 30 code units gets as its title its first 30
    code units, with every run of white space made one blank and without
    a blank at the start, followed by three full stops. *)
Theorem formatChatTitle_ellipsis (content : str) :
  30 < length content ->
  formatChatTitle content
  = drop_while is_space (collapse_spaces false (firstn 30 content)) ++ u "...".
Proof.
  intros L. rewrite formatChatTitle_eq.
  replace (30 <? length content) with true
    by (symmetry; apply Nat.ltb_lt; exact L).
  rewrite collapse_app_dots. apply trim_app_dots.
Qed.

Lemma formatChatTitle_ellipsis_witness :
  30 < length (u "  Why is the sky blue at noon  and red at dusk?") /\
  (formatChatTitle (u "  Why is the sky blue at noon  and red at dusk?")
   = drop_while is_space
       (collapse_spaces false
          (firstn 30 (u "  Why is the sky blue at noon  and red at dusk?")))
     ++ u "...").
Proof.
  split; [simpl; lia|].
  apply (@formatChatTitle_ellipsis
           (u "  Why is the sky blue at noon  and red at dusk?")).
  simpl. lia.
Defined.

(** ** enforceContextLimits *)

(** *** Lists with elements left out *)

Lemma subseq_refl (A : Type) (l : list A) : subseq l l.
Proof. induction l; constructor; assumption. Qed.

Lemma subseq_trans (A : Type) (l1 l2 l3 : list A) :
  subseq l1 l2 -> subseq l2 l3 -> subseq l1 l3.
Proof.
  intros H12 H23. revert l1 H12.
  induction H23; intros l0 H12.
  - exact H12.
  - constructor. apply IHsubseq. exact H12.
  - inversion H12; subst.
    + constructor. apply IHsubseq. assumption.
    + apply subseq_keep. apply IHsubseq. assumption.
Qed.

Lemma subseq_skipn (A : Type) n (l : list A) : subseq (skipn n l) l.
Proof.
  revert n. induction l as [|x l IH]; intros [|n]; simpl;
    try apply subseq_refl.
  constructor. apply IH.
Qed.

(** *** Removing the oldest message of a role *)

Lemma remove_oldest_cons r x l :
  remove_oldest r (x :: l)
  = if has_role r x then l else x :: remove_oldest r l.
Proof.
  unfold remove_oldest. cbn [findIndex]. destruct (has_role r x); [reflexivity|].
  destruct (findIndex (has_role r) l); reflexivity.
Qed.

Lemma remove_oldest_nil r : remove_oldest r [] = [].
Proof. reflexivity. Qed.

Lemma remove_oldest_subseq r l : subseq (remove_oldest r l) l.
Proof.
  induction l as [|x l IH]; [constructor|].
  rewrite remove_oldest_cons. destruct (has_role r x).
  - constructor. apply subseq_refl.
  - apply subseq_keep. exact IH.
Qed.

Lemma iter_remove_oldest_subseq r k l :
  subseq (Nat.iter k (remove_oldest r) l) l.
Proof.
  induction k as [|k IH]; [apply subseq_refl|].
  rewrite Nat.iter_succ. eapply subseq_trans; [apply remove_oldest_subseq|exact IH].
Qed.

Lemma remove_oldest_same_role r l :
  filter (has_role r) (remove_oldest r l) = tl (filter (has_role r) l).
Proof.
  induction l as [|x l IH]; [reflexivity|].
  rewrite remove_oldest_cons. cbn [filter]. destruct (has_role r x) eqn:E.
  - reflexivity.
  - cbn [filter]. rewrite E. exact IH.
Qed.

Lemma str_eqb_eq a : forall b, str_eqb a b = true -> a = b.
Proof.
  induction a as [|x a IH]; intros [|y b] H; try discriminate; [reflexivity|].
  cbn [str_eqb] in H. apply andb_prop in H. destruct H as [H1 H2].
  apply N.eqb_eq in H1. apply IH in H2. subst. reflexivity.
Qed.

Lemma has_role_other r r' x :
  r <> r' -> has_role r x = true -> has_role r' x = false.
Proof.
  unfold has_role. destruct (role x); try discriminate.
  intros Hr H. apply str_eqb_eq in H. subst.
  destruct (str_eqb r r') eqn:E; [|reflexivity].
  apply str_eqb_eq in E. contradiction.
Qed.

Lemma remove_oldest_other_role r r' l :
  r <> r' ->
  filter (has_role r') (remove_oldest r l) = filter (has_role r') l.
Proof.
  intros Hr. induction l as [|x l IH]; [reflexivity|].
  rewrite remove_oldest_cons. cbn [filter]. destruct (has_role r x) eqn:E.
  - rewrite (has_role_other _ Hr E). reflexivity.
  - cbn [filter]. rewrite IH. reflexivity.
Qed.

Lemma tl_skipn (A : Type) : forall k (l : list A),
  tl (skipn k l) = skipn (S k) l.
Proof.
  induction k as [|k IH]; intros l.
  - destruct l; reflexivity.
  - destruct l as [|x l]; [reflexivity|]. apply IH.
Qed.

Lemma iter_remove_same_role r k l :
  filter (has_role r) (Nat.iter k (remove_oldest r) l)
  = skipn k (filter (has_role r) l).
Proof.
  induction k as [|k IH]; [reflexivity|].
  rewrite Nat.iter_succ, remove_oldest_same_role, IH. apply tl_skipn.
Qed.

Lemma iter_remove_other_role r r' k l :
  r <> r' ->
  filter (has_role r') (Nat.iter k (remove_oldest r) l)
  = filter (has_role r') l.
Proof.
  intros Hr. induction k as [|k IH]; [reflexivity|].
  rewrite Nat.iter_succ. rewrite remove_oldest_other_role by exact Hr. exact IH.
Qed.

(** *** The final loop *)

Lemma shift_to_limit_skipn l :
  shift_to_limit l = skipn (length l - MAX_TOTAL_MSGS) l.
Proof.
  induction l as [|x l IH]; [reflexivity|].
  cbn [shift_to_limit]. destruct (Nat.ltb_spec MAX_TOTAL_MSGS (length (x :: l))) as [H|H].
  - rewrite IH. simpl length in *.
    replace (S (length l) - MAX_TOTAL_MSGS) with (S (length l - MAX_TOTAL_MSGS))
      by (unfold MAX_TOTAL_MSGS in *; lia).
    reflexivity.
  - replace (length (x :: l) - MAX_TOTAL_MSGS) with 0 by lia. reflexivity.
Qed.

Lemma shift_to_limit_length l : length (shift_to_limit l) <= MAX_TOTAL_MSGS.
Proof. rewrite shift_to_limit_skipn, length_skipn. lia. Qed.

Lemma filter_skipn (A : Type) (p : A -> bool) : forall n l,
  exists k, filter p (skipn n l) = skipn k (filter p l).
Proof.
  induction n as [|n IH]; intros l; [exists 0; reflexivity|].
  destruct l as [|x l]; [exists 0; reflexivity|].
  destruct (IH l) as (k & E). cbn [skipn filter]. destruct (p x).
  - exists (S k). exact E.
  - exists k. exact E.
Qed.

Lemma subseq_In (A : Type) (l1 l2 : list A) x :
  subseq l1 l2 -> In x l1 -> In x l2.
Proof.
  induction 1; intros Hin; [exact Hin|right; auto|].
  destruct Hin as [->|Hin]; [left; reflexivity|right; auto].
Qed.

Lemma skipn_skipn_add (A : Type) : forall j k (l : list A),
  skipn j (skipn k l) = skipn (k + j) l.
Proof.
  intros j k. induction k as [|k IH]; intros l; [reflexivity|].
  destruct l as [|x l]; [destruct j; reflexivity|]. apply IH.
Qed.

Lemma user_not_assistant : u "user" <> u "assistant".
Proof. discriminate. Qed.

Lemma assistant_not_user : u "assistant" <> u "user".
Proof. discriminate. Qed.

(** What the two removal loops leave of the messages of a role. *)
Lemma removal_passes_role (r : str) (c : list message) :
  let n_u := length (filter (has_role (u "user")) c) in
  let n_a := length (filter (has_role (u "assistant")) c) in
  let c1 := if MAX_USER_MSGS <? n_u
            then Nat.iter (n_u - MAX_USER_MSGS) (remove_oldest (u "user")) c
            else c in
  let c2 := if MAX_ASSISTANT_MSGS <? n_a
            then Nat.iter (n_a - MAX_ASSISTANT_MSGS)
                   (remove_oldest (u "assistant")) c1
            else c1 in
  filter (has_role r) c2
  = skipn (if list_eq_dec N.eq_dec r (u "user")
           then n_u - MAX_USER_MSGS
           else if list_eq_dec N.eq_dec r (u "assistant")
                then n_a - MAX_ASSISTANT_MSGS
                else 0)
      (filter (has_role r) c).
Proof.
  intros n_u n_a c1 c2.
  assert (H1 : filter (has_role r) c1
               = skipn (if list_eq_dec N.eq_dec r (u "user")
                        then n_u - MAX_USER_MSGS else 0)
                   (filter (has_role r) c)).
  { unfold c1. destruct (Nat.ltb_spec MAX_USER_MSGS n_u) as [H|H].
    - destruct (list_eq_dec N.eq_dec r (u "user")) as [->|Hr].
      + apply iter_remove_same_role.
      + apply iter_remove_other_role. congruence.
    - replace (n_u - MAX_USER_MSGS) with 0 by lia.
      destruct (list_eq_dec N.eq_dec r (u "user")); reflexivity. }
  unfold c2. destruct (Nat.ltb_spec MAX_ASSISTANT_MSGS n_a) as [H|H].
  - destruct (list_eq_dec N.eq_dec r (u "user")) as [->|Hr].
    + rewrite iter_remove_other_role by exact assistant_not_user. exact H1.
    + destruct (list_eq_dec N.eq_dec r (u "assistant")) as [->|Hr'].
      * rewrite iter_remove_same_role.
        unfold n_a. f_equal.
        unfold c1. destruct (MAX_USER_MSGS <? n_u); [|reflexivity].
        apply iter_remove_other_role. exact user_not_assistant.
      * rewrite iter_remove_other_role by congruence. exact H1.
  - rewrite H1. destruct (list_eq_dec N.eq_dec r (u "user")); [reflexivity|].
    replace (n_a - MAX_ASSISTANT_MSGS) with 0 by lia.
    destruct (list_eq_dec N.eq_dec r (u "assistant")); reflexivity.
Qed.

Lemma enforce_over c :
  MAX_TOTAL_MSGS < length c ->
  exists c2,
    enforceContextLimits c = shift_to_limit c2 /\
    subseq c2 c /\
    (forall r, filter (has_role r) c2
               = skipn (if list_eq_dec N.eq_dec r (u "user")
                        then length (filter (has_role (u "user")) c) - MAX_USER_MSGS
                        else if list_eq_dec N.eq_dec r (u "assistant")
                             then length (filter (has_role (u "assistant")) c)
                                  - MAX_ASSISTANT_MSGS
                             else 0)
                   (filter (has_role r) c)).
Proof.
  intros H. unfold enforceContextLimits.
  destruct (Nat.leb_spec (length c) MAX_TOTAL_MSGS) as [H'|_]; [lia|].
  eexists. split; [reflexivity|]. split.
  - destruct (MAX_ASSISTANT_MSGS <? _); destruct (MAX_USER_MSGS <? _);
      repeat first [apply subseq_refl | apply iter_remove_oldest_subseq
                   | eapply subseq_trans; [apply iter_remove_oldest_subseq|]].
  - intros r. apply removal_passes_role.
Qed.

Lemma enforce_under c :
  length c <= MAX_TOTAL_MSGS -> enforceContextLimits c = c.
Proof.
  intros H. unfold enforceContextLimits.
  destruct (Nat.leb_spec (length c) MAX_TOTAL_MSGS); [reflexivity|lia].
Qed.

Lemma enforce_length c : length (enforceContextLimits c) <= MAX_TOTAL_MSGS.
Proof.
  destruct (Nat.le_gt_cases (length c) MAX_TOTAL_MSGS) as [H|H].
  - rewrite enforce_under; assumption.
  - pose proof H as X. apply enforce_over in X. destruct X as (c2 & -> & _). apply shift_to_limit_length.
Qed.

Lemma enforce_subseq c : subseq (enforceContextLimits c) c.
Proof.
  destruct (Nat.le_gt_cases (length c) MAX_TOTAL_MSGS) as [H|H].
  - rewrite enforce_under by assumption. apply subseq_refl.
  - pose proof H as X. apply enforce_over in X. destruct X as (c2 & -> & S2 & _).
    eapply subseq_trans; [|exact S2].
    rewrite shift_to_limit_skipn. apply subseq_skipn.
Qed.

Lemma enforce_role_suffix r c :
  exists k, filter (has_role r) (enforceContextLimits c)
            = skipn k (filter (has_role r) c).
Proof.
  destruct (Nat.le_gt_cases (length c) MAX_TOTAL_MSGS) as [H|H].
  - exists 0. rewrite enforce_under by assumption. reflexivity.
  - pose proof H as X. apply enforce_over in X. destruct X as (c2 & -> & _ & F).
    rewrite shift_to_limit_skipn.
    destruct (filter_skipn (has_role r) (length c2 - MAX_TOTAL_MSGS) c2) as (k & ->).
    rewrite F, skipn_skipn_add. eauto.
Qed.

Lemma enforce_role_bound c :
  MAX_TOTAL_MSGS < length c ->
  length (filter (has_role (u "user")) (enforceContextLimits c)) <= MAX_USER_MSGS /\
  length (filter (has_role (u "assistant")) (enforceContextLimits c))
  <= MAX_ASSISTANT_MSGS.
Proof.
  intros H. pose proof H as X. apply enforce_over in X. destruct X as (c2 & -> & _ & F).
  rewrite shift_to_limit_skipn.
  split.
  - destruct (filter_skipn (has_role (u "user")) (length c2 - MAX_TOTAL_MSGS) c2)
      as (k & ->).
    rewrite F, skipn_skipn_add, length_skipn.
    destruct (list_eq_dec N.eq_dec (u "user") (u "user")); [|congruence].
    unfold MAX_USER_MSGS. lia.
  - destruct (filter_skipn (has_role (u "assistant")) (length c2 - MAX_TOTAL_MSGS) c2)
      as (k & ->).
    rewrite F, skipn_skipn_add, length_skipn.
    destruct (list_eq_dec N.eq_dec (u "assistant") (u "user")); [discriminate|].
    destruct (list_eq_dec N.eq_dec (u "assistant") (u "assistant")); [|congruence].
    unfold MAX_ASSISTANT_MSGS. lia.
Qed.

Lemma two_roles_length (l : list message) :
  (forall m, In m l ->
     (has_role (u "user") m || has_role (u "assistant") m)%bool = true) ->
  length l = length (filter (has_role (u "user")) l)
             + length (filter (has_role (u "assistant")) l).
Proof.
  induction l as [|x l IH]; intros H; [reflexivity|].
  cbn [filter length].
  assert (Hx := H x (or_introl eq_refl)).
  rewrite IH by (intros m Hm; apply H; right; exact Hm).
  destruct (has_role (u "user") x) eqn:E.
  - rewrite (@has_role_other (u "user") (u "assistant") x user_not_assistant E). simpl. lia.
  - simpl in Hx. rewrite Hx. simpl. lia.
Qed.

Lemma last_cons_cons (A : Type) (x y : A) l d :
  last (x :: y :: l) d = last (y :: l) d.
Proof. reflexivity. Qed.

Lemma filter_nonempty (A : Type) (p : A -> bool) l :
  1 <= length (filter p l) -> l <> [].
Proof. destruct l; simpl; [lia|discriminate]. Qed.

Lemma remove_oldest_last r : forall l,
  2 <= length (filter (has_role r) l) ->
  forall d, last (remove_oldest r l) d = last l d.
Proof.
  induction l as [|x l IH]; intros H d; [simpl in H; lia|].
  rewrite remove_oldest_cons. cbn [filter] in H.
  destruct (has_role r x) eqn:E.
  - simpl in H. destruct l as [|y l]; [simpl in H; lia|]. reflexivity.
  - assert (Hl : l <> []) by (apply (@filter_nonempty _ (has_role r)); lia).
    assert (Hr : remove_oldest r l <> []).
    { apply (@filter_nonempty _ (has_role r)).
      rewrite remove_oldest_same_role.
      destruct (filter (has_role r) l) as [|a [|b t]]; simpl in *; lia. }
    specialize (IH H d).
    destruct l as [|y l]; [congruence|].
    destruct (remove_oldest r (y :: l)) as [|z t]; [congruence|].
    rewrite !last_cons_cons. exact IH.
Qed.

Lemma iter_remove_last r l : forall k,
  k < length (filter (has_role r) l) ->
  (forall d, last (Nat.iter k (remove_oldest r) l) d = last l d) /\
  Nat.iter k (remove_oldest r) l <> [].
Proof.
  induction k as [|k IH]; intros H.
  - split; [reflexivity|]. apply (@filter_nonempty _ (has_role r)). simpl. lia.
  - destruct IH as [IH1 IH2]; [lia|].
    assert (Hc : length (filter (has_role r) (Nat.iter k (remove_oldest r) l))
                 = length (filter (has_role r) l) - k)
      by (rewrite iter_remove_same_role; apply length_skipn).
    rewrite Nat.iter_succ. split.
    + intros d. rewrite remove_oldest_last by lia. apply IH1.
    + apply (@filter_nonempty _ (has_role r)).
      rewrite remove_oldest_same_role.
      destruct (filter (has_role r) (Nat.iter k (remove_oldest r) l)) as [|a [|b t]];
        simpl in *; lia.
Qed.

Lemma last_skipn (A : Type) : forall n (l : list A) d,
  n < length l -> last (skipn n l) d = last l d.
Proof.
  induction n as [|n IH]; intros l d H; [reflexivity|].
  destruct l as [|x l]; [simpl in H; lia|].
  cbn [skipn]. rewrite IH by (simpl in H; lia).
  destruct l; [simpl in H; lia|reflexivity].
Qed.

Lemma enforce_last c :
  c <> [] -> forall d, last (enforceContextLimits c) d = last c d.
Proof.
  intros Hc d. unfold enforceContextLimits.
  destruct (Nat.leb_spec (length c) MAX_TOTAL_MSGS) as [H|H]; [reflexivity|].
  set (n_u := length (filter (has_role (u "user")) c)).
  set (n_a := length (filter (has_role (u "assistant")) c)).
  set (c1 := if MAX_USER_MSGS <? n_u then _ else c).
  assert (H1 : (forall d, last c1 d = last c d) /\ c1 <> [] /\
               length (filter (has_role (u "assistant")) c1) = n_a).
  { unfold c1. destruct (Nat.ltb_spec MAX_USER_MSGS n_u) as [Hu|Hu].
    - destruct (@iter_remove_last (u "user") c (n_u - MAX_USER_MSGS)) as [A B].
      { fold n_u. unfold MAX_USER_MSGS in *. lia. }
      repeat split; [exact A|exact B|].
      rewrite iter_remove_other_role by exact user_not_assistant. reflexivity.
    - repeat split. exact Hc. }
  destruct H1 as (L1 & N1 & A1).
  set (c2 := if MAX_ASSISTANT_MSGS <? n_a then _ else c1).
  assert (H2 : (forall d, last c2 d = last c d) /\ c2 <> []).
  { unfold c2. destruct (Nat.ltb_spec MAX_ASSISTANT_MSGS n_a) as [Ha|Ha].
    - destruct (@iter_remove_last (u "assistant") c1 (n_a - MAX_ASSISTANT_MSGS))
        as [A B].
      { rewrite A1. unfold MAX_ASSISTANT_MSGS in *. lia. }
      split; [|exact B]. intros d'. rewrite A. apply L1.
    - split; assumption. }
  destruct H2 as (L2 & N2).
  rewrite shift_to_limit_skipn, last_skipn; [apply L2|].
  destruct c2; [congruence|]. simpl. unfold MAX_TOTAL_MSGS. lia.
Qed.

(** X8.  After enforceContextLimits the conversation has at most 21
    messages, and a conversation within that limit is left as it is; so
    a second call right after the first changes nothing. *)
Theorem enforceContextLimits_bound (c : list message) :
  length (enforceContextLimits c) <= MAX_TOTAL_MSGS /\
  (length c <= MAX_TOTAL_MSGS <-> enforceContextLimits c = c) /\
  enforceContextLimits (enforceContextLimits c) = enforceContextLimits c.
Proof.
  split; [apply enforce_length|]. split.
  - split; [apply enforce_under|].
    intros E. rewrite <- E. apply enforce_length.
  - apply enforce_under, enforce_length.
Qed.

(** X9.  enforceContextLimits only drops messages: what is left is the
    conversation with some messages left out, in the same order. *)
Theorem enforceContextLimits_subseq (c : list message) :
  subseq (enforceContextLimits c) c.
Proof. apply enforce_subseq. Qed.

(** X10.  Of every role the messages that stay are the newest ones of that
    role. *)
Theorem enforceContextLimits_keeps_newest (r : str) (c : list message) :
  exists k,
    filter (has_role r) (enforceContextLimits c)
    = skipn k (filter (has_role r) c).
Proof. apply enforce_role_suffix. Qed.

(** X11.  When the limit is passed, at most ten user and at most ten
    assistant messages stay; a conversation of these two roles only then
    ends with at most twenty messages, never with twenty-one. *)
Theorem enforceContextLimits_role_limits (c : list message) :
  MAX_TOTAL_MSGS < length c ->
  length (filter (has_role (u "user")) (enforceContextLimits c))
  <= MAX_USER_MSGS /\
  length (filter (has_role (u "assistant")) (enforceContextLimits c))
  <= MAX_ASSISTANT_MSGS /\
  ((forall m, In m c ->
      (has_role (u "user") m || has_role (u "assistant") m)%bool = true) ->
   length (enforceContextLimits c) <= 20).
Proof.
  intros H. pose proof H as X. apply enforce_role_bound in X. destruct X as [Hu Ha].
  split; [exact Hu|]. split; [exact Ha|].
  intros Hr. rewrite two_roles_length.
  - unfold MAX_USER_MSGS, MAX_ASSISTANT_MSGS in *. lia.
  - intros m Hm. apply Hr. eapply subseq_In; [apply enforce_subseq|exact Hm].
Qed.

Lemma enforceContextLimits_role_limits_witness :
  MAX_TOTAL_MSGS
  < length (repeat (mkMessage (VString (u "user")) (VString (u "q"))) 12
            ++ repeat (mkMessage (VString (u "assistant")) (VString (u "r"))) 12) /\
  length (filter (has_role (u "user"))
            (enforceContextLimits
               (repeat (mkMessage (VString (u "user")) (VString (u "q"))) 12
                ++ repeat (mkMessage (VString (u "assistant")) (VString (u "r")))
                     12)))
  <= MAX_USER_MSGS.
Proof.
  split; [vm_compute; lia|].
  apply (@enforceContextLimits_role_limits
           (repeat (mkMessage (VString (u "user")) (VString (u "q"))) 12
            ++ repeat (mkMessage (VString (u "assistant")) (VString (u "r"))) 12)).
  vm_compute. lia.
Defined.

(** X12.  The message pushed last is never dropped: after a push and the
    call it is still the last message of the conversation. *)
Theorem enforceContextLimits_keeps_pushed (c : list message) (m d : message) :
  last (enforceContextLimits (c ++ [m])) d = m.
Proof.
  rewrite enforce_last; [apply last_last|].
  destruct c; discriminate.
Qed.

(** ** updateCurrentChatInHistory *)

(** *** Arrays: findIndex, find and assignment at an index *)

Lemma str_eqb_refl a : str_eqb a a = true.
Proof.
  induction a as [|x a IH]; [reflexivity|].
  cbn [str_eqb]. rewrite N.eqb_refl. exact IH.
Qed.

Lemma findIndex_find (A : Type) (p : A -> bool) : forall l i,
  findIndex p l = Some i ->
  exists x, nth_error l i = Some x /\ find p l = Some x /\ p x = true.
Proof.
  induction l as [|y l IH]; intros i H; [discriminate|].
  cbn [findIndex find] in H |- *. destruct (p y) eqn:E.
  - injection H as <-. exists y. auto.
  - destruct (findIndex p l) as [j|]; [|discriminate].
    injection H as <-. destruct (IH j eq_refl) as (x & H1 & H2 & H3).
    exists x. auto.
Qed.

Lemma findIndex_None (A : Type) (p : A -> bool) : forall l,
  findIndex p l = None -> forall x, In x l -> p x = false.
Proof.
  induction l as [|y l IH]; intros H x Hx; [contradiction|].
  cbn [findIndex] in H. destruct (p y) eqn:E; [discriminate|].
  destruct (findIndex p l); [discriminate|].
  destruct Hx as [<-|Hx]; [exact E|apply IH; auto].
Qed.

Lemma find_update_at (A : Type) (p : A -> bool) (f : A -> A) :
  (forall x, p (f x) = p x) ->
  forall l i x, findIndex p l = Some i -> nth_error l i = Some x ->
  find p (update_at i f l) = Some (f x).
Proof.
  intros Hf. induction l as [|y l IH]; intros i x H Hx; [discriminate|].
  cbn [findIndex] in H. destruct (p y) eqn:E.
  - injection H as <-. cbn [nth_error] in Hx. injection Hx as ->.
    cbn [update_at find]. rewrite Hf, E. reflexivity.
  - destruct (findIndex p l) as [j|] eqn:F; [|discriminate].
    injection H as <-. cbn [nth_error] in Hx.
    cbn [update_at find]. rewrite E. apply IH; auto.
Qed.

Lemma update_at_update_at (A : Type) (f g : A -> A) : forall i l,
  update_at i g (update_at i f l) = update_at i (fun x => g (f x)) l.
Proof.
  induction i as [|i IH]; intros [|y l]; cbn [update_at]; try reflexivity.
  f_equal. apply IH.
Qed.

Lemma nth_error_update_at (A : Type) (f : A -> A) : forall i l,
  nth_error (update_at i f l) i = option_map f (nth_error l i).
Proof.
  induction i as [|i IH]; intros [|y l]; cbn [update_at nth_error];
    try reflexivity. apply IH.
Qed.

Lemma length_update_at (A : Type) (f : A -> A) : forall i l,
  length (update_at i f l) = length l.
Proof.
  induction i as [|i IH]; intros [|y l]; cbn [update_at length];
    try reflexivity. f_equal. apply IH.
Qed.

Lemma map_update_at (A B : Type) (g : A -> B) (f : A -> A) :
  (forall x, g (f x) = g x) ->
  forall i l, map g (update_at i f l) = map g l.
Proof.
  intros H. induction i as [|i IH]; intros [|y l]; cbn [update_at map];
    try reflexivity.
  - rewrite H. reflexivity.
  - f_equal. apply IH.
Qed.

Lemma Forall_update_at (A : Type) (P : A -> Prop) (f : A -> A) :
  (forall x, P x -> P (f x)) ->
  forall i l, Forall P l -> Forall P (update_at i f l).
Proof.
  intros H. induction i as [|i IH]; intros [|y l] Hl; cbn [update_at];
    try exact Hl; inversion Hl; subst; constructor; auto.
Qed.

Lemma keep_20_length a : length (keep_20 a) <= Nat.max 20 (length a - 1).
Proof.
  unfold keep_20. destruct (Nat.ltb_spec 20 (length a)) as [H|H].
  - rewrite length_firstn. lia.
  - lia.
Qed.

Lemma keep_20_prefix a : exists b, a = keep_20 a ++ b.
Proof.
  unfold keep_20. destruct (20 <? length a).
  - exists (skipn 20 a). symmetry. apply firstn_skipn.
  - exists []. symmetry. apply app_nil_r.
Qed.

Lemma keep_20_cons x a : exists b, keep_20 (x :: a) = x :: b.
Proof.
  unfold keep_20. destruct (20 <? length (x :: a)); eexists; reflexivity.
Qed.

(** *** The title a call stores *)

Lemma formatChatTitle_js_short_tidy v title :
  formatChatTitle_js v = Returns title -> short_tidy title = true.
Proof.
  destruct v; try discriminate. cbn [formatChatTitle_js].
  intros H. injection H as <-. apply formatChatTitle_short_tidy.
Qed.

(** What a call makes of the history: nothing, the entry of the current
    chat written anew, or a new entry put in front. *)
Lemma update_history_cases now saved a :
  let a' := fst (updateCurrentChatInHistory now saved a) in
  conversation a' = conversation a /\ currentChatId a' = currentChatId a /\
  (chatHistory a' = chatHistory a \/
   (exists cid i title_of,
      currentChatId a = Some cid /\
      findIndex (fun chat => str_eqb (Chat.id chat) cid) (chatHistory a)
      = Some i /\
      chatHistory a'
      = update_at i
          (fun chat =>
             Chat.mk (Chat.id chat) (title_of chat) (conversation a) now)
          (chatHistory a) /\
      forall chat, title_of chat = Chat.title chat \/
                   short_tidy (title_of chat) = true) \/
   (exists cid title,
      currentChatId a = Some cid /\
      findIndex (fun chat => str_eqb (Chat.id chat) cid) (chatHistory a)
      = None /\
      chatHistory a'
      = keep_20 (Chat.mk cid title (conversation a) now :: chatHistory a) /\
      short_tidy title = true)).
Proof.
  unfold updateCurrentChatInHistory.
  destruct (currentChatId a) as [cid|] eqn:Ec; [|cbn; auto].
  destruct (negb (truthy cid)); [cbn; auto|].
  destruct (findIndex _ (chatHistory a)) as [i|] eqn:Ei.
  - assert (Hstored :
      exists title_of,
        update_at i
          (fun chat => Chat.mk (Chat.id chat) (Chat.title chat)
                         (conversation a) now) (chatHistory a)
        = update_at i
            (fun chat => Chat.mk (Chat.id chat) (title_of chat)
                           (conversation a) now) (chatHistory a) /\
        forall chat, title_of chat = Chat.title chat \/
                     short_tidy (title_of chat) = true).
    { exists Chat.title. split; [reflexivity|]. intros chat. left. reflexivity. }
    destruct Hstored as (t0 & Ht0 & Ht0').
    match goal with
    | |- context [if ?c then _ else _] => destruct c
    end.
    2:{ cbn. split; [reflexivity|]. split; [reflexivity|].
        right. left. exists cid, i, t0. auto. }
    destruct (find (has_role (u "user")) (conversation a)) as [m|].
    2:{ cbn. split; [reflexivity|]. split; [reflexivity|].
        right. left. exists cid, i, t0. auto. }
    destruct (formatChatTitle_js (content m)) as [title|] eqn:Et.
    2:{ cbn. split; [reflexivity|]. split; [reflexivity|].
        right. left. exists cid, i, t0. auto. }
    cbn. split; [reflexivity|]. split; [reflexivity|].
    right. left. exists cid, i, (fun _ => title).
    split; [reflexivity|]. split; [exact Ei|]. split.
    + rewrite update_at_update_at. reflexivity.
    + intros chat. right. apply (formatChatTitle_js_short_tidy _ Et).
  - match goal with
    | |- context [match ?t with Returns _ => _ | Throws => _ end] =>
        destruct t as [title|] eqn:Et
    end.
    2:{ cbn. auto. }
    cbn. split; [reflexivity|]. split; [reflexivity|].
    right. right. exists cid, title.
    split; [reflexivity|]. split; [exact Ei|]. split; [reflexivity|].
    destruct (conversation a) as [|first rest0].
    + injection Et as <-. reflexivity.
    + destruct (falsy (content first)).
      * injection Et as <-. reflexivity.
      * apply (formatChatTitle_js_short_tidy _ Et).
Qed.

Lemma update_stores now saved a cid a' :
  currentChatId a = Some cid -> truthy cid = true ->
  updateCurrentChatInHistory now saved a = (a', Normal) ->
  conversation a' = conversation a /\ currentChatId a' = Some cid /\
  exists chat,
    find (fun chat => str_eqb (Chat.id chat) cid) (chatHistory a') = Some chat /\
    Chat.id chat = cid /\
    Chat.conversation chat = conversation a /\ Chat.timestamp chat = now.
Proof.
  intros Ec Ht. unfold updateCurrentChatInHistory. rewrite Ec, Ht. cbn [negb].
  destruct (findIndex _ (chatHistory a)) as [i|] eqn:Ei.
  - destruct (findIndex_find _ _ Ei) as (x & Hx & _ & Hp).
    assert (Hid : Chat.id x = cid) by (apply str_eqb_eq; exact Hp).
    assert (F1 : find (fun chat => str_eqb (Chat.id chat) cid)
                   (update_at i
                      (fun chat => Chat.mk (Chat.id chat) (Chat.title chat)
                                     (conversation a) now) (chatHistory a))
                 = Some (Chat.mk (Chat.id x) (Chat.title x) (conversation a) now)).
    { apply find_update_at with (f := fun chat =>
        Chat.mk (Chat.id chat) (Chat.title chat) (conversation a) now);
        [reflexivity|exact Ei|exact Hx]. }
    match goal with
    | |- context [if ?c then _ else _] => destruct c
    end.
    2:{ intros H. injection H as <-. cbn. repeat split; auto.
        eexists. split; [exact F1|]. auto. }
    destruct (find (has_role (u "user")) (conversation a)) as [m|].
    2:{ intros H. injection H as <-. cbn. repeat split; auto.
        eexists. split; [exact F1|]. auto. }
    destruct (formatChatTitle_js (content m)) as [title|]; [|discriminate].
    intros H. injection H as <-. cbn. repeat split; auto.
    rewrite update_at_update_at.
    eexists. split.
    + apply find_update_at with (f := fun chat =>
        Chat.mk (Chat.id chat) title (conversation a) now);
        [reflexivity|exact Ei|exact Hx].
    + auto.
  - match goal with
    | |- context [match ?t with Returns _ => _ | Throws => _ end] =>
        destruct t as [title|]
    end; [|discriminate].
    intros H. injection H as <-. cbn. repeat split; auto.
    destruct (keep_20_cons (Chat.mk cid title (conversation a) now)
                (chatHistory a)) as (b & ->).
    cbn [find Chat.id]. rewrite str_eqb_refl.
    eexists. split; [reflexivity|]. auto.
Qed.

Lemma update_history_length now saved a :
  length (chatHistory (fst (updateCurrentChatInHistory now saved a)))
  <= Nat.max 20 (length (chatHistory a)).
Proof.
  destruct (update_history_cases now saved a) as (_ & _ & H). cbv zeta in H.
  destruct H as [->|[(cid & i & t & _ & _ & -> & _)|(cid & t & _ & _ & -> & _)]].
  - lia.
  - rewrite length_update_at. lia.
  - etransitivity; [apply keep_20_length|]. cbn [length]. lia.
Qed.

Lemma update_titles now saved a :
  Forall (fun chat => short_tidy (Chat.title chat) = true) (chatHistory a) ->
  Forall (fun chat => short_tidy (Chat.title chat) = true)
    (chatHistory (fst (updateCurrentChatInHistory now saved a))).
Proof.
  intros F. destruct (update_history_cases now saved a) as (_ & _ & H).
  cbv zeta in H.
  destruct H as [->|[(cid & i & t & _ & _ & -> & Ht)|(cid & t & _ & _ & -> & Ht)]].
  - exact F.
  - apply Forall_update_at; [|exact F].
    intros chat Hc. cbn [Chat.title].
    destruct (Ht chat) as [->|E]; [exact Hc|exact E].
  - destruct (keep_20_prefix (Chat.mk cid t (conversation a) now :: chatHistory a))
      as (b & E).
    assert (F' : Forall (fun chat => short_tidy (Chat.title chat) = true)
                   (Chat.mk cid t (conversation a) now :: chatHistory a))
      by (constructor; [exact Ht|exact F]).
    rewrite E in F'. apply Forall_app in F'. apply F'.
Qed.

Lemma NoDup_app_l (A : Type) (a b : list A) : NoDup (a ++ b) -> NoDup a.
Proof.
  induction a as [|x a IH]; intros H; [constructor|].
  inversion H as [|? ? Hx Hn]; subst. constructor.
  - intros Hin. apply Hx. apply in_or_app. left. exact Hin.
  - apply IH. exact Hn.
Qed.

Lemma update_ids now saved a :
  NoDup (map Chat.id (chatHistory a)) ->
  NoDup (map Chat.id (chatHistory (fst (updateCurrentChatInHistory now saved a)))).
Proof.
  intros F. destruct (update_history_cases now saved a) as (_ & _ & H).
  cbv zeta in H.
  destruct H as [->|[(cid & i & t & _ & _ & -> & _)|(cid & t & _ & Hn & -> & _)]].
  - exact F.
  - rewrite map_update_at by reflexivity. exact F.
  - destruct (keep_20_prefix (Chat.mk cid t (conversation a) now :: chatHistory a))
      as (b & E).
    assert (F' : NoDup (map Chat.id
                   (Chat.mk cid t (conversation a) now :: chatHistory a))).
    { cbn [map Chat.id]. constructor; [|exact F].
      intros Hin. apply in_map_iff in Hin. destruct Hin as (x & Hx & Hin).
      pose proof (findIndex_None _ _ Hn x Hin) as Hf. cbv beta in Hf.
      rewrite Hx, str_eqb_refl in Hf. discriminate. }
    rewrite E, map_app in F'. apply NoDup_app_l in F'. exact F'.
Qed.

Lemma update_completion now saved a :
  (forall m, In m (conversation a) -> exists s, content m = VString s) ->
  snd (updateCurrentChatInHistory now saved a)
  = match currentChatId a with
    | Some cid => if truthy cid then saved else Normal
    | None => Normal
    end.
Proof.
  intros Hs. unfold updateCurrentChatInHistory.
  destruct (currentChatId a) as [cid|]; [|reflexivity].
  destruct (truthy cid); cbn [negb]; [|reflexivity].
  destruct (findIndex _ (chatHistory a)) as [i|].
  - match goal with
    | |- context [if ?c then _ else _] => destruct c
    end; [|reflexivity].
    destruct (find (has_role (u "user")) (conversation a)) as [m|] eqn:Ef;
      [|reflexivity].
    apply find_some in Ef. destruct Ef as [Hin _].
    destruct (Hs m Hin) as (s & ->). reflexivity.
  - destruct (conversation a) as [|first rest0]; [reflexivity|].
    destruct (Hs first (or_introl eq_refl)) as (s & ->).
    destruct (falsy (VString s)); reflexivity.
Qed.

(** X13.  After a call that returns, the history holds an entry for the
    current chat, found first under its id, with the conversation as it
    is now and the time of the call; the conversation and the current
    chat id are as before. *)
Theorem updateCurrentChatInHistory_stores (now : str) (saved : completion) (a a' : App)
    (cid : str) :
  currentChatId a = Some cid -> truthy cid = true ->
  updateCurrentChatInHistory now saved a = (a', Normal) ->
  conversation a' = conversation a /\ currentChatId a' = Some cid /\
  exists chat,
    find (fun chat => str_eqb (Chat.id chat) cid) (chatHistory a') = Some chat /\
    Chat.id chat = cid /\
    Chat.conversation chat = conversation a /\ Chat.timestamp chat = now.
Proof. apply update_stores. Qed.

Lemma updateCurrentChatInHistory_stores_witness :
  exists chat,
    find (fun chat => str_eqb (Chat.id chat) (u "c1"))
      (chatHistory
         (fst (updateCurrentChatInHistory (u "t1") Normal
                 (mkApp [mkMessage (VString (u "user")) (VString (u "Hello   there"))]
          [Chat.mk (u "c0") (u "Old") [] (u "t0");
           Chat.mk (u "c1") (u "New Chat") [] (u "t0")]
          (Some (u "c1"))))))
    = Some chat /\
    Chat.conversation chat
    = [mkMessage (VString (u "user")) (VString (u "Hello   there"))] /\
    Chat.timestamp chat = u "t1".
Proof.
  destruct (@updateCurrentChatInHistory_stores (u "t1") Normal
              (mkApp [mkMessage (VString (u "user")) (VString (u "Hello   there"))]
          [Chat.mk (u "c0") (u "Old") [] (u "t0");
           Chat.mk (u "c1") (u "New Chat") [] (u "t0")]
          (Some (u "c1")))
              (fst (updateCurrentChatInHistory (u "t1") Normal
                      (mkApp [mkMessage (VString (u "user")) (VString (u "Hello   there"))]
          [Chat.mk (u "c0") (u "Old") [] (u "t0");
           Chat.mk (u "c1") (u "New Chat") [] (u "t0")]
          (Some (u "c1")))))
              (u "c1"))
    as (_ & _ & chat & H1 & _ & H2 & H3).
  - reflexivity.
  - reflexivity.
  - vm_compute. reflexivity.
  - exists chat. split; [exact H1|]. split; [exact H2|exact H3].
Defined.

(** X14.  A call leaves the conversation and the current chat id alone and
    never makes the history longer than twenty entries, unless it was
    longer before, and then no longer than it was. *)
Theorem updateCurrentChatInHistory_bounded (now : str) (saved : completion)
    (a : App) :
  conversation (fst (updateCurrentChatInHistory now saved a)) = conversation a /\
  currentChatId (fst (updateCurrentChatInHistory now saved a)) = currentChatId a /\
  length (chatHistory (fst (updateCurrentChatInHistory now saved a)))
  <= Nat.max 20 (length (chatHistory a)).
Proof.
  destruct (update_history_cases now saved a) as (H1 & H2 & _).
  split; [exact H1|]. split; [exact H2|]. apply update_history_length.
Qed.

(** X15.  When every title of the history is tidy and of at most 33 code
    units, so is every title after the call. *)
Theorem updateCurrentChatInHistory_titles (now : str) (saved : completion)
    (a : App) :
  Forall (fun chat => short_tidy (Chat.title chat) = true) (chatHistory a) ->
  Forall (fun chat => short_tidy (Chat.title chat) = true)
    (chatHistory (fst (updateCurrentChatInHistory now saved a))).
Proof. apply update_titles. Qed.

Lemma updateCurrentChatInHistory_titles_witness :
  Forall (fun chat => short_tidy (Chat.title chat) = true)
    (chatHistory
       (mkApp [mkMessage (VString (u "user"))
                (VString (u "  Tell me   about" ++ [nl] ++ u "tables "))]
         [Chat.mk (u "c1") (u "New Chat") [] (u "t0")]
         (Some (u "c1")))) /\
  Forall (fun chat => short_tidy (Chat.title chat) = true)
    (chatHistory
       (fst (updateCurrentChatInHistory (u "t1") Normal
               (mkApp [mkMessage (VString (u "user"))
                (VString (u "  Tell me   about" ++ [nl] ++ u "tables "))]
         [Chat.mk (u "c1") (u "New Chat") [] (u "t0")]
         (Some (u "c1")))))).
Proof.
  assert (H : Forall (fun chat => short_tidy (Chat.title chat) = true)
                (chatHistory
                   (mkApp [mkMessage (VString (u "user"))
                (VString (u "  Tell me   about" ++ [nl] ++ u "tables "))]
         [Chat.mk (u "c1") (u "New Chat") [] (u "t0")]
         (Some (u "c1")))))
    by (repeat constructor).
  split; [exact H|].
  apply (@updateCurrentChatInHistory_titles (u "t1") Normal
           (mkApp [mkMessage (VString (u "user"))
                (VString (u "  Tell me   about" ++ [nl] ++ u "tables "))]
         [Chat.mk (u "c1") (u "New Chat") [] (u "t0")]
         (Some (u "c1")))).
  exact H.
Defined.

(** X16.  When no two entries of the history have the same id, no two have
    after the call. *)
Theorem updateCurrentChatInHistory_ids (now : str) (saved : completion)
    (a : App) :
  NoDup (map Chat.id (chatHistory a)) ->
  NoDup (map Chat.id (chatHistory (fst (updateCurrentChatInHistory now saved a)))).
Proof. apply update_ids. Qed.

Lemma updateCurrentChatInHistory_ids_witness :
  NoDup (map Chat.id
           (chatHistory
              (mkApp [mkMessage (VString (u "user")) (VString (u "Hi"))]
         [Chat.mk (u "c1") (u "New Chat") [] (u "t0")]
         (Some (u "c2"))))) /\
  NoDup (map Chat.id
           (chatHistory
              (fst (updateCurrentChatInHistory (u "t1") Normal
                      (mkApp [mkMessage (VString (u "user")) (VString (u "Hi"))]
         [Chat.mk (u "c1") (u "New Chat") [] (u "t0")]
         (Some (u "c2"))))))).
Proof.
  assert (H : NoDup (map Chat.id
                       (chatHistory
                          (mkApp [mkMessage (VString (u "user")) (VString (u "Hi"))]
         [Chat.mk (u "c1") (u "New Chat") [] (u "t0")]
         (Some (u "c2")))))).
  { cbn. constructor; [intros []|constructor]. }
  split; [exact H|].
  apply (@updateCurrentChatInHistory_ids (u "t1") Normal
           (mkApp [mkMessage (VString (u "user")) (VString (u "Hi"))]
         [Chat.mk (u "c1") (u "New Chat") [] (u "t0")]
         (Some (u "c2")))).
  exact H.
Defined.

(** X17.  A call throws only from formatChatTitle, over a content that is
    not a string, or from saveChatHistory: when every content of the
    conversation is a string, the call completes as its saveChatHistory
    does, and it returns when there is no current chat id, where nothing
    is saved. *)
Theorem updateCurrentChatInHistory_returns (now : str) (saved : completion)
    (a : App) :
  (forall m, In m (conversation a) -> exists s, content m = VString s) ->
  snd (updateCurrentChatInHistory now saved a)
  = match currentChatId a with
    | Some cid => if truthy cid then saved else Normal
    | None => Normal
    end.
Proof. apply update_completion. Qed.

Lemma updateCurrentChatInHistory_returns_witness :
  (forall m,
     In m (conversation
             (mkApp [mkMessage (VString (u "user")) (VString (u "Hi"))] []
                (Some (u "c2")))) ->
     exists s, content m = VString s) /\
  snd (updateCurrentChatInHistory (u "t1") Threw
         (mkApp [mkMessage (VString (u "user")) (VString (u "Hi"))] []
            (Some (u "c2"))))
  = Threw /\
  snd (updateCurrentChatInHistory (u "t1") Normal
         (mkApp [mkMessage (VString (u "user")) (VString (u "Hi"))] []
            (Some (u "c2"))))
  = Normal.
Proof.
  assert (H : forall m,
             In m (conversation
                     (mkApp [mkMessage (VString (u "user")) (VString (u "Hi"))]
                        [] (Some (u "c2")))) ->
             exists s, content m = VString s).
  { intros m [<-|[]]. exists (u "Hi"). reflexivity. }
  split; [exact H|]. split.
  - exact (@updateCurrentChatInHistory_returns (u "t1") Threw
             (mkApp [mkMessage (VString (u "user")) (VString (u "Hi"))] []
                (Some (u "c2"))) H).
  - exact (@updateCurrentChatInHistory_returns (u "t1") Normal
             (mkApp [mkMessage (VString (u "user")) (VString (u "Hi"))] []
                (Some (u "c2"))) H).
Defined.

(** ** Table cells and separator rows *)

(** *** A sentinel inside the table of inline codes *)

Lemma restore_in_range codes n :
  n < length codes ->
  restore_in_cell codes (placeholder INLINECODE n)
  = inline_code_html (escapeHtml (nth n codes [])).
Proof.
  intros Hn. unfold restore_in_cell, replace_fn, replace_st.
  pose proof (sentinel_exec [] n) as E.
  remember (placeholder INLINECODE n) as P eqn:HP.
  assert (HP' : exists c P', P = c :: P') by (subst P; eexists _, _; reflexivity).
  destruct HP' as (c & P' & ->).
  cbn [replace_go]. rewrite E. cbn [m_text length].
  rewrite replace_go_skip_end by apply sentinel_exec_end.
  unfold on_inline_sentinel, group. cbn [m_caps get_cap Nat.eqb m_text fst].
  rewrite parseInt_dec.
  replace (N.of_nat n <? N.of_nat (length codes))%N with true
    by (symmetry; apply N.ltb_lt; lia).
  replace (0 <=? N.of_nat n)%N with true
    by (symmetry; apply N.leb_le; lia).
  cbn [andb]. rewrite Nat2N.id. apply app_nil_r.
Qed.

(** *** Rows and cells *)

Lemma split_on_cons c s : exists w ws, split_on c s = w :: ws.
Proof.
  destruct s as [|x s]; [eexists _, _; reflexivity|].
  cbn [split_on]. destruct (N.eqb x c); [eexists _, _; reflexivity|].
  destruct (split_on c s); eexists _, _; reflexivity.
Qed.

Lemma split_on_app_sep c : forall s,
  split_on c (s ++ [c]) = split_on c s ++ [[]].
Proof.
  induction s as [|x s IH].
  - cbn [app split_on]. rewrite N.eqb_refl. reflexivity.
  - cbn [app split_on]. destruct (N.eqb x c).
    + rewrite IH. reflexivity.
    + rewrite IH. destruct (split_on_cons c s) as (w & ws & ->). reflexivity.
Qed.

Lemma split_on_no_sep c : forall s, ~ In c s -> split_on c s = [s].
Proof.
  induction s as [|x s IH]; intros H; [reflexivity|].
  cbn [split_on]. destruct (N.eqb_spec x c) as [->|Hx].
  - exfalso. apply H. left. reflexivity.
  - rewrite IH; [reflexivity|]. intros Hin. apply H. right. exact Hin.
Qed.

Lemma split_on_cell_sep c : forall cell s,
  ~ In c cell ->
  split_on c (cell ++ c :: s) = cell :: split_on c s.
Proof.
  induction cell as [|x cell IH]; intros s H.
  - cbn [app split_on]. rewrite N.eqb_refl. reflexivity.
  - cbn [app split_on]. destruct (N.eqb_spec x c) as [->|Hx].
    + exfalso. apply H. left. reflexivity.
    + rewrite IH; [reflexivity|]. intros Hin. apply H. right. exact Hin.
Qed.

Lemma split_on_join c : forall cells,
  cells <> [] -> Forall (fun cell => ~ In c cell) cells ->
  split_on c (join [c] cells) = cells.
Proof.
  induction cells as [|cell cells IH]; intros Hne H; [congruence|].
  inversion H as [|? ? Hc Hcs]; subst.
  destruct cells as [|cell' cells].
  - cbn [join]. apply split_on_no_sep. exact Hc.
  - change (join [c] (cell :: cell' :: cells))
      with (cell ++ c :: join [c] (cell' :: cells)).
    rewrite split_on_cell_sep by exact Hc. f_equal.
    apply IH; [discriminate|exact Hcs].
Qed.

Lemma filter_edges_inner len : forall cells idx,
  0 < idx -> idx + length cells + 1 = len ->
  filter_edges idx len (cells ++ [[]]) = cells.
Proof.
  induction cells as [|cell cells IH]; intros idx H0 H1.
  - cbn [app filter_edges length] in *.
    replace (Nat.eqb idx (len - 1)) with true
      by (symmetry; apply Nat.eqb_eq; lia).
    rewrite andb_true_l.
    replace (str_eqb (trim []) []) with true by reflexivity.
    rewrite andb_false_r. reflexivity.
  - cbn [app filter_edges length] in *.
    replace (Nat.eqb idx 0) with false by (symmetry; apply Nat.eqb_neq; lia).
    replace (Nat.eqb idx (len - 1)) with false
      by (symmetry; apply Nat.eqb_neq; lia).
    cbn [andb negb]. f_equal. apply IH; lia.
Qed.

Lemma row_cells_join cells :
  cells <> [] -> Forall (fun cell => ~ In (ch "|") cell) cells ->
  row_cells (u "|" ++ join (u "|") cells ++ u "|") = cells.
Proof.
  intros Hne H. unfold row_cells.
  change (u "|" ++ join (u "|") cells ++ u "|")
    with (ch "|" :: (join [ch "|"] cells ++ [ch "|"])).
  cbn [split_on]. rewrite N.eqb_refl.
  rewrite split_on_app_sep, split_on_join by assumption.
  cbn [filter_edges length Nat.eqb andb].
  replace (str_eqb (trim []) []) with true by reflexivity.
  cbn [negb andb].
  apply filter_edges_inner; [lia|].
  rewrite length_app. reflexivity.
Qed.

(** *** Sentinels inside a cell text *)

Lemma sentinel_exec_any before n post :
  exec re_inline_sentinel before (placeholder INLINECODE n ++ post)
  = Some (MInfo before (placeholder INLINECODE n) [(1, dec n)] post).
Proof.
  destruct (dec_shape n) as (d & ds & E & D).
  inversion D as [|? ? Hd Hds]; subst.
  unfold exec, re_inline_sentinel, placeholder. cbn [Seqs region_name].
  replace ((u "__" ++ u "INLINECODE" ++ u "_" ++ dec n ++ u "__") ++ post)
    with (u "__INLINECODE_" ++ dec n ++ u "__" ++ post)
    by (cbn [app u]; rewrite <- !app_assoc; reflexivity).
  rewrite mt_Seq, mt_Lit, mt_Seq, mt_Group. unfold Plus.
  rewrite mt_Seq. cbn [rest]. rewrite E. cbn [app].
  rewrite mt_Cls_cons by exact Hd. rewrite mt_Star. cbn [groups_of rest].
  rewrite star_loop_greedy_run
    with (f := MState (rev (u "__") ++ rev ds ++ d :: rev (u "__INLINECODE_") ++ before)
                 post [(1, d :: ds)]).
  - cbn [rest caps]. f_equal. f_equal.
    replace (u "__INLINECODE_" ++ d :: ds ++ u "__" ++ post)
      with ((u "__INLINECODE_" ++ d :: ds ++ u "__") ++ post)
      by (rewrite <- app_assoc; cbn [app]; rewrite <- app_assoc; reflexivity).
    apply firstn_app_exact.
  - exact Hds.
  - right. exists (ch "_"), (ch "_" :: post). split; reflexivity.
  - lia.
  - cbn [rest seen caps set_cap].
    replace (d :: ds ++ u "__" ++ post) with ((d :: ds) ++ u "__" ++ post)
      by reflexivity.
    rewrite firstn_app_exact. reflexivity.
Qed.

(** Stepping over a match: the code units of the match go to the text
    before the position. *)
Lemma replace_go_skip (S : Type) r (f : minfo -> S -> str * S) :
  forall pre before tl s,
    replace_go r f before (pre ++ tl) (length pre) s
    = replace_go r f (rev pre ++ before) tl 0 s.
Proof.
  induction pre as [|c pre IH]; intros before tl s.
  - reflexivity.
  - cbn [app length replace_go rev]. rewrite IH, <- app_assoc. reflexivity.
Qed.

Lemma sentinel_exec_other before c after :
  c <> ch "_" -> exec re_inline_sentinel before (c :: after) = None.
Proof.
  intros Hc. unfold exec, re_inline_sentinel. cbn [Seqs].
  rewrite mt_Seq. cbn [Lit u list_ascii_of_string map]. rewrite mt_Seq.
  cbn [mt rest].
  replace (N.eqb c (ch "_")) with false; [reflexivity|].
  symmetry. apply N.eqb_neq. exact Hc.
Qed.

Section CellText.
Variable inlineCodes : list str.

Lemma cell_go_stretch : forall stretch before tl,
  ~ In (ch "_") stretch ->
  fst (replace_go re_inline_sentinel
         (fun m (_ : unit) => (on_inline_sentinel inlineCodes m, tt))
         before (stretch ++ tl) 0 tt)
  = stretch
    ++ fst (replace_go re_inline_sentinel
              (fun m (_ : unit) => (on_inline_sentinel inlineCodes m, tt))
              (rev stretch ++ before) tl 0 tt).
Proof.
  induction stretch as [|c stretch IH]; intros before tl H; [reflexivity|].
  cbn [app replace_go].
  rewrite sentinel_exec_other
    by (intros ->; apply H; left; reflexivity).
  specialize (IH (c :: before) tl).
  destruct (replace_go _ _ (c :: before) (stretch ++ tl) 0 tt) as [out2 s2].
  cbn [fst] in IH |- *. rewrite IH.
  - cbn [rev]. rewrite <- app_assoc. reflexivity.
  - intros Hin. apply H. right. exact Hin.
Qed.

Lemma on_inline_sentinel_dec before n post :
  on_inline_sentinel inlineCodes
    (MInfo before (placeholder INLINECODE n) [(1, dec n)] post)
  = restored_sentinel inlineCodes n.
Proof.
  unfold on_inline_sentinel, restored_sentinel, group.
  cbn [m_caps get_cap Nat.eqb m_text]. rewrite parseInt_dec.
  replace (0 <=? N.of_nat n)%N with true by (symmetry; apply N.leb_le; lia).
  cbn [andb]. rewrite Nat2N.id.
  destruct (Nat.ltb_spec n (length inlineCodes)) as [H|H].
  - replace (N.of_nat n <? N.of_nat (length inlineCodes))%N with true
      by (symmetry; apply N.ltb_lt; lia).
    reflexivity.
  - replace (N.of_nat n <? N.of_nat (length inlineCodes))%N with false
      by (symmetry; apply N.ltb_ge; lia).
    reflexivity.
Qed.

Lemma cell_go_sentinel before n tl :
  fst (replace_go re_inline_sentinel
         (fun m (_ : unit) => (on_inline_sentinel inlineCodes m, tt))
         before (placeholder INLINECODE n ++ tl) 0 tt)
  = restored_sentinel inlineCodes n
    ++ fst (replace_go re_inline_sentinel
              (fun m (_ : unit) => (on_inline_sentinel inlineCodes m, tt))
              (rev (placeholder INLINECODE n) ++ before) tl 0 tt).
Proof.
  pose proof (sentinel_exec_any before n tl) as E.
  remember (placeholder INLINECODE n) as P eqn:HP.
  assert (HP' : exists c P', P = c :: P') by (subst P; eexists _, _; reflexivity).
  destruct HP' as (c & P' & EP). rewrite EP in E |- *.
  cbn [app replace_go]. cbn [app] in E. rewrite E. cbn [m_text length].
  rewrite replace_go_skip.
  rewrite <- EP, HP, on_inline_sentinel_dec.
  destruct (replace_go _ _ (rev P' ++ c :: before) tl 0 tt) as [out2 s2] eqn:E2.
  cbn [fst]. f_equal. rewrite <- HP, EP. cbn [rev]. rewrite <- app_assoc.
  cbn [app]. rewrite E2. reflexivity.
Qed.

Lemma cell_go_parts : forall parts last before,
  Forall (fun p => ~ In (ch "_") (fst p)) parts -> ~ In (ch "_") last ->
  fst (replace_go re_inline_sentinel
         (fun m (_ : unit) => (on_inline_sentinel inlineCodes m, tt))
         before (with_sentinels parts last) 0 tt)
  = with_restored inlineCodes parts last.
Proof.
  induction parts as [|[stretch n] parts IH]; intros last before F Hl.
  - cbn [with_sentinels with_restored].
    rewrite <- (app_nil_r last) at 1. rewrite cell_go_stretch by exact Hl.
    cbn [replace_go]. rewrite sentinel_exec_end. apply app_nil_r.
  - inversion F as [|? ? Hs F']; subst. cbn [fst] in Hs.
    cbn [with_sentinels with_restored].
    rewrite cell_go_stretch by exact Hs. rewrite cell_go_sentinel.
    rewrite IH by assumption. reflexivity.
Qed.

Lemma restore_in_cell_parts parts last :
  Forall (fun p => ~ In (ch "_") (fst p)) parts -> ~ In (ch "_") last ->
  restore_in_cell inlineCodes (with_sentinels parts last)
  = with_restored inlineCodes parts last.
Proof.
  intros F Hl. unfold restore_in_cell, replace_fn, replace_st.
  apply cell_go_parts; assumption.
Qed.

Lemma on_inline_sentinel_in_range m n :
  parseInt (group 1 m) = N.of_nat n -> n < length inlineCodes ->
  on_inline_sentinel inlineCodes m
  = inline_code_html (escapeHtml (nth n inlineCodes [])).
Proof.
  intros Hm Hn. unfold on_inline_sentinel. rewrite Hm.
  replace (0 <=? N.of_nat n)%N with true by (symmetry; apply N.leb_le; lia).
  replace (N.of_nat n <? N.of_nat (length inlineCodes))%N with true
    by (symmetry; apply N.ltb_lt; lia).
  cbn [andb]. rewrite Nat2N.id. reflexivity.
Qed.
End CellText.

(** X18.  The sentinel pass of parseInlineMarkdown replaces a sentinel
    whose index is inside the table of inline codes by the code element
    of that inline code, its text escaped: the callback answers so for
    every match with such an index; in a cell text made of stretches
    without underscore with sentinels between them every sentinel with
    such an index is replaced so, the others and the stretches stay; and
    so a cell that is one such sentinel becomes the code element. *)
Theorem in_range_sentinel_restored (inlineCodes : list str) :
  (forall m n,
     parseInt (group 1 m) = N.of_nat n -> n < length inlineCodes ->
     on_inline_sentinel inlineCodes m
     = inline_code_html (escapeHtml (nth n inlineCodes []))) /\
  (forall parts last,
     Forall (fun p => ~ In (ch "_") (fst p)) parts -> ~ In (ch "_") last ->
     restore_in_cell inlineCodes (with_sentinels parts last)
     = with_restored inlineCodes parts last) /\
  (forall n,
     n < length inlineCodes ->
     restored_sentinel inlineCodes n
     = inline_code_html (escapeHtml (nth n inlineCodes [])) /\
     restore_in_cell inlineCodes (placeholder INLINECODE n)
     = inline_code_html (escapeHtml (nth n inlineCodes []))).
Proof.
  split; [|split].
  - intros m n. apply on_inline_sentinel_in_range.
  - intros parts last. apply restore_in_cell_parts.
  - intros n Hn. split; [|apply restore_in_range; exact Hn].
    unfold restored_sentinel.
    replace (n <? length inlineCodes) with true
      by (symmetry; apply Nat.ltb_lt; exact Hn).
    reflexivity.
Qed.

(** X19.  A row written as its cells between pipes, one pipe at each end,
    is split into these cells again, blank cells among them. *)
Theorem row_cells_round_trip (cells : list str) :
  cells <> [] -> Forall (fun cell => ~ In (ch "|") cell) cells ->
  row_cells (u "|" ++ join (u "|") cells ++ u "|") = cells.
Proof. apply row_cells_join. Qed.

Lemma row_cells_round_trip_witness :
  [u " A "; u "  "; u "B"] <> [] /\
  Forall (fun cell => ~ In (ch "|") cell) [u " A "; u "  "; u "B"] /\
  row_cells (u "|" ++ join (u "|") [u " A "; u "  "; u "B"] ++ u "|")
  = [u " A "; u "  "; u "B"].
Proof.
  assert (H1 : [u " A "; u "  "; u "B"] <> []) by discriminate.
  assert (H2 : Forall (fun cell => ~ In (ch "|") cell)
                 [u " A "; u "  "; u "B"]).
  { repeat constructor; intros H; simpl in H;
      repeat (destruct H as [H|H]; [discriminate H|]); exact H. }
  split; [exact H1|]. split; [exact H2|].
  apply (@row_cells_round_trip [u " A "; u "  "; u "B"]); assumption.
Defined.

(** *** The separator row, as extraction and as parseTable test for it *)

Lemma test_go_matches r : forall after before,
  test_go r before after = true ->
  exists m, matches_in r (rev before ++ after) m.
Proof.
  induction after as [|c after IH]; intros before H.
  - cbn [test_go] in H. destruct (exec r before []) as [m|] eqn:E;
      [|discriminate].
    exists m, before, []. auto.
  - cbn [test_go] in H. destruct (exec r before (c :: after)) as [m|] eqn:E.
    + exists m, before, (c :: after). auto.
    + apply IH in H. destruct H as (m & Hm). exists m.
      cbn [rev] in Hm. rewrite <- app_assoc in Hm. exact Hm.
Qed.

Lemma sem_Star_cls_advanced g p : forall st st',
  sem (Star g (Cls p)) st st' ->
  exists w, Forall (fun c => p c = true) w /\ rest st = w ++ rest st' /\
            seen st' = rev w ++ seen st.
Proof.
  intros st st' H. pose proof H as H'. apply sem_lang in H'.
  destruct H' as (w & L & A1 & A2). apply lang_Star_cls in L.
  exists w. auto.
Qed.

(** A text the loose pattern accepts is a pipe, a run of separator
    characters and a pipe, with white space around. *)
Lemma loose_shape t :
  test re_separator_loose t = true ->
  exists sp1 mid sp2,
    t = sp1 ++ ch "|" :: mid ++ ch "|" :: sp2 /\
    Forall (fun c => is_space c = true) sp1 /\
    Forall (fun c => is_space c = true) sp2 /\
    mid <> [] /\ Forall (fun c => sep_char c = true) mid.
Proof.
  unfold test. intros H. apply test_go_matches in H.
  destruct H as (m & before & after & Et & E). cbn [rev app] in Et.
  apply exec_sound in E. destruct E as (_ & _ & _ & st' & H & _).
  unfold re_separator_loose in H. cbn [Seqs] in H.
  destruct H as (st1 & Hb & st2 & H1 & st3 & H3 & st4 & H4 & st5 & H5 &
                 st6 & H6 & He).
  cbn [sem] in Hb. destruct Hb as (-> & Hb). cbn [seen] in Hb.
  assert (before = []) as ->.
  { destruct Hb as [Hb|(x & l & _ & Hm & _)]; [exact Hb|discriminate]. }
  apply sem_Star_cls_advanced in H1. destruct H1 as (sp1 & F1 & R1 & _).
  cbn [rest] in R1.
  cbn [sem] in H3. destruct H3 as (xs & R3 & ->).
  pose proof H4 as H4'. apply sem_lang in H4'.
  destruct H4' as (mid & Lm & R4 & _). cbn [rest] in R4.
  apply lang_Plus_cls in Lm. destruct Lm as (Hne & Fm).
  cbn [sem] in H5. destruct H5 as (ys & R5 & ->).
  apply sem_Star_cls_advanced in H6. destruct H6 as (sp2 & F2 & R6 & _).
  cbn [rest] in R6.
  cbn [sem] in He. destruct He as (-> & He).
  assert (rest st6 = []) as Hr.
  { destruct He as [He|(x & l & _ & Hm & _)]; [exact He|discriminate]. }
  exists sp1, mid, sp2. repeat split; try assumption.
  rewrite Et. cbn [rev app]. rewrite R1, R3, R4, R5, R6, Hr, app_nil_r.
  reflexivity.
Qed.

(** A greedy loop over a character class that has to give one character
    back: the continuation fails at the end of the text and succeeds one
    character before it. *)
Lemma star_loop_greedy_back p k f x : forall ds sn cs n,
  Forall (fun c => p c = true) ds -> p x = true ->
  length (ds ++ [x]) < n ->
  k (MState (x :: rev ds ++ sn) [] cs) = Fail ->
  k (MState (rev ds ++ sn) [x] cs) = Found f ->
  star_loop (mt (Cls p)) [] true k n (MState sn (ds ++ [x]) cs) = Found f.
Proof.
  induction ds as [|d ds IH]; intros sn cs n Hd Hx Hn Hend Hk.
  - destruct n as [|[|n]]; try (simpl in Hn; lia).
    cbn [app rev] in *. cbn [star_loop]. rewrite !clear_caps_nil.
    cbn [mt rest seen caps]. rewrite Hx. cbn [length Nat.ltb Nat.leb].
    cbn [clear_caps] . 
    replace (clear_caps [] (MState (x :: sn) [] cs))
      with (MState (x :: sn) [] cs) by (symmetry; apply clear_caps_nil).
    cbn [mt rest orelse]. rewrite Hend. cbn [orelse]. exact Hk.
  - destruct n as [|n]; [simpl in Hn; lia|].
    inversion Hd as [|? ? Hp Hd']; subst.
    cbn [star_loop]. rewrite clear_caps_nil. cbn [app mt rest seen caps].
    rewrite Hp.
    assert (L : (length (ds ++ [x]) <? length (d :: ds ++ [x])) = true).
    { apply Nat.ltb_lt. simpl. lia. }
    rewrite L. rewrite IH; auto.
    + simpl in Hn. lia.
    + cbn [rev] in Hend. rewrite <- app_assoc in Hend. exact Hend.
    + cbn [rev] in Hk. rewrite <- app_assoc in Hk. exact Hk.
Qed.

Lemma mt_Bol_start m r cs k :
  mt (Bol m) (MState [] r cs) k = k (MState [] r cs).
Proof. reflexivity. Qed.

Lemma mt_Chr_cons c xs sn cs k :
  mt (Chr c) (MState sn (c :: xs) cs) k = k (MState (c :: sn) xs cs).
Proof. cbn [mt rest seen caps]. rewrite N.eqb_refl. reflexivity. Qed.

Lemma strict_accepts mid :
  mid <> [] -> Forall (fun c => sep_char c = true) mid ->
  test re_separator (ch "|" :: mid ++ [ch "|"]) = true.
Proof.
  intros Hne F. destruct mid as [|c mid]; [congruence|].
  inversion F as [|? ? Hc F']; subst.
  unfold test. cbn [app test_go].
  assert (E : exists m, exec re_separator [] (ch "|" :: c :: mid ++ [ch "|"])
                        = Some m).
  { unfold exec, re_separator, Plus. cbn [Seqs].
    rewrite mt_Seq, mt_Bol_start, mt_Seq, mt_Chr_cons, !mt_Seq.
    rewrite mt_Cls_cons by exact Hc. rewrite mt_Star. cbn [groups_of rest].
    erewrite star_loop_greedy_back;
      [eexists; reflexivity|exact F'|reflexivity|lia| |].
    - reflexivity.
    - cbv beta. rewrite mt_Seq, mt_Chr_cons. reflexivity. }
  destruct E as (m & ->). reflexivity.
Qed.

(** On a trimmed line the two patterns agree. *)
Lemma loose_then_strict line :
  test re_separator_loose (trim line) = true ->
  test re_separator (trim line) = true.
Proof.
  intros H. apply loose_shape in H.
  destruct H as (sp1 & mid & sp2 & Et & F1 & F2 & Hne & Fm).
  destruct (trim_shape line) as (_ & _ & _ & Hh & Hl).
  rewrite Et in Hh, Hl |- *.
  assert (sp1 = []) as ->.
  { destruct sp1 as [|c sp1]; [reflexivity|].
    inversion F1; subst. cbn [app] in Hh. congruence. }
  assert (sp2 = []) as ->.
  { destruct sp2 as [|c sp2] using rev_ind; [reflexivity|].
    apply Forall_app in F2. destruct F2 as [_ F2]. inversion F2; subst.
    change (ch "|" :: mid ++ ch "|" :: sp2 ++ [c])
      with ((ch "|" :: mid) ++ (ch "|" :: sp2) ++ [c]) in Hl.
    rewrite !app_assoc, rev_app_distr in Hl. cbn [rev app] in Hl. congruence. }
  cbn [app]. apply strict_accepts; assumption.
Qed.

Lemma find_separator_some : forall lines i,
  existsb (fun line => test re_separator_loose (trim line)) lines = true ->
  exists j, find_separator lines i = Some j.
Proof.
  induction lines as [|line lines IH]; intros i H; [discriminate|].
  cbn [existsb] in H. cbn [find_separator].
  destruct (test re_separator (trim line)) eqn:E; [eauto|].
  apply orb_true_iff in H. destruct H as [H|H].
  - apply loose_then_strict in H. congruence.
  - apply IH. exact H.
Qed.

Lemma parseTable_table lines codes :
  2 <= length lines ->
  existsb (fun line => test re_separator_loose (trim line)) lines = true ->
  exists body,
    parseTable lines codes
    = uq "<div class='table-wrapper'><table>" ++ body ++ u "</table></div>".
Proof.
  intros Hl Hs. unfold parseTable.
  replace (length lines <? 2) with false by (symmetry; apply Nat.ltb_ge; lia).
  destruct (find_separator_some lines 0 Hs) as (j & ->).
  cbv zeta.
  destruct (0 <? length (firstn j lines));
    destruct (0 <? length (skipn (S j) lines));
    match goal with
    | |- exists body, ((?P ++ ?A) ++ ?B) ++ ?S = _ => exists (A ++ B)
    | |- exists body, (?P ++ ?A) ++ ?S = _ => exists A
    | |- exists body, ?P ++ ?S = _ => exists []
    end; rewrite <- ?app_assoc; reflexivity.
Qed.

Lemma on_table_cases m s :
  on_table m s = (m_text m, s) \/
  exists lines,
    on_table m s = (placeholder TABLE (length (tables s)), push_table lines s) /\
    2 <= length lines /\
    existsb (fun line => test re_separator_loose (trim line)) lines = true.
Proof.
  unfold on_table.
  set (lines := filter _ _).
  destruct (Nat.ltb_spec (length lines) 2) as [H|H]; [left; reflexivity|].
  destruct (existsb _ lines) eqn:E; cbn [negb]; [|left; reflexivity].
  right. exists lines. auto.
Qed.

Lemma on_fence_lang_tables m s : tables (snd (on_fence_lang m s)) = tables s.
Proof.
  unfold on_fence_lang. destruct (str_eqb _ fence); [|reflexivity].
  destruct (_ && _)%bool; reflexivity.
Qed.

Lemma on_fence_plain_tables m s : tables (snd (on_fence_plain m s)) = tables s.
Proof. unfold on_fence_plain. destruct (str_eqb _ fence); reflexivity. Qed.

Lemma on_inline_first_tables m s : tables (snd (on_inline_first m s)) = tables s.
Proof. reflexivity. Qed.

Lemma on_inline_second_tables m s :
  tables (snd (on_inline_second m s)) = tables s.
Proof. unfold on_inline_second. destruct (Nat.eqb _ _); reflexivity. Qed.

Lemma extract_tables (P : list str -> Prop) text s :
  (forall lines,
     2 <= length lines ->
     existsb (fun line => test re_separator_loose (trim line)) lines = true ->
     P lines) ->
  Forall P (tables s) -> Forall P (tables (snd (extract text s))).
Proof.
  intros HP Hs. unfold extract, bind.
  set (Q := fun s' : Store => Forall P (tables s')).
  assert (Q1 : Q (snd (replace_st re_fence_lang on_fence_lang text s))).
  { apply replace_st_preserves; [|exact Hs].
    intros m s' Hs'. unfold Q. rewrite on_fence_lang_tables. exact Hs'. }
  destruct (replace_st re_fence_lang on_fence_lang text s) as [t1 s1].
  cbn [snd] in Q1.
  assert (Q2 : Q (snd (replace_st re_fence_plain on_fence_plain t1 s1))).
  { apply replace_st_preserves; [|exact Q1].
    intros m s' Hs'. unfold Q. rewrite on_fence_plain_tables. exact Hs'. }
  destruct (replace_st re_fence_plain on_fence_plain t1 s1) as [t2 s2].
  cbn [snd] in Q2.
  assert (Q3 : Q (snd (replace_st re_inline_first on_inline_first t2 s2))).
  { apply replace_st_preserves; [|exact Q2].
    intros m s' Hs'. unfold Q. rewrite on_inline_first_tables. exact Hs'. }
  destruct (replace_st re_inline_first on_inline_first t2 s2) as [t3 s3].
  cbn [snd] in Q3.
  assert (Q4 : Q (snd (replace_st tableRegex on_table t3 s3))).
  { apply replace_st_preserves; [|exact Q3].
    intros m s' Hs'. unfold Q.
    destruct (on_table_cases m s') as [->|(lines & -> & H1 & H2)];
      [exact Hs'|].
    cbn [snd push_table tables]. apply Forall_app. split; [exact Hs'|].
    constructor; [|constructor]. apply HP; assumption. }
  destruct (replace_st tableRegex on_table t3 s3) as [t4 s4].
  cbn [snd] in Q4.
  apply replace_st_preserves; [|exact Q4].
  intros m s' Hs'. unfold Q. rewrite on_inline_second_tables. exact Hs'.
Qed.

(** X20.  Every table that the extraction of parseMarkdown stores is one
    that parseTable renders as a table element: it has two lines or more
    and a line that parseTable takes for the separator row, so neither
    the empty string nor the lines joined by line breaks come back. *)
Theorem extracted_table_is_rendered (text : str) (lines : list str) :
  In lines (tables (snd (extract text empty_store))) ->
  forall inlineCodes, exists body,
    parseTable lines inlineCodes
    = uq "<div class='table-wrapper'><table>" ++ body ++ u "</table></div>".
Proof.
  intros Hin.
  pose proof (@extract_tables
                (fun lines => forall inlineCodes, exists body,
                   parseTable lines inlineCodes
                   = uq "<div class='table-wrapper'><table>" ++ body
                     ++ u "</table></div>")
                text empty_store) as H.
  assert (F : Forall
                (fun lines => forall inlineCodes, exists body,
                   parseTable lines inlineCodes
                   = uq "<div class='table-wrapper'><table>" ++ body
                     ++ u "</table></div>")
                (tables (snd (extract text empty_store)))).
  { apply H; [|constructor].
    intros l H1 H2 codes. apply parseTable_table; assumption. }
  rewrite Forall_forall in F. apply F. exact Hin.
Qed.

Lemma extracted_table_is_rendered_witness :
  In [u "| A | B |"; u "|---|---|"; u "| 1 | 2 |"]
    (tables (snd (extract (u "| A | B |" ++ [nl] ++ u "|---|---|" ++ [nl]
                             ++ u "| 1 | 2 |") empty_store))) /\
  exists body,
    parseTable [u "| A | B |"; u "|---|---|"; u "| 1 | 2 |"] []
    = uq "<div class='table-wrapper'><table>" ++ body ++ u "</table></div>".
Proof.
  assert (H : In [u "| A | B |"; u "|---|---|"; u "| 1 | 2 |"]
                (tables (snd (extract (u "| A | B |" ++ [nl] ++ u "|---|---|"
                                         ++ [nl] ++ u "| 1 | 2 |")
                                empty_store))))
    by (vm_compute; left; reflexivity).
  split; [exact H|].
  apply (@extracted_table_is_rendered _ _ H []).
Defined.

(** ** Stored code blocks *)

(** *** The language of a stored code block *)

Lemma includes_In x a : includes x a = true -> In x a.
Proof.
  unfold includes. intros H. apply existsb_exists in H.
  destruct H as (y & Hin & E). apply str_eqb_eq in E. subst. exact Hin.
Qed.

Lemma on_fence_lang_language (P : CodeBlock -> Prop) m s :
  (forall l c, includes l knownLanguages = true -> P (mkCodeBlock l c)) ->
  Forall P (codeBlocks s) -> Forall P (codeBlocks (snd (on_fence_lang m s))).
Proof.
  intros HP Hs. unfold on_fence_lang.
  destruct (str_eqb _ fence); [|exact Hs].
  destruct (truthy _ && includes _ knownLanguages)%bool eqn:E; [|exact Hs].
  apply andb_true_iff in E. destruct E as [_ E].
  cbn [snd push_codeBlock codeBlocks]. apply Forall_app. split; [exact Hs|].
  constructor; [|constructor]. apply HP. exact E.
Qed.

Lemma on_fence_plain_language (P : CodeBlock -> Prop) m s :
  (forall c, P (mkCodeBlock (u "plaintext") c)) ->
  Forall P (codeBlocks s) -> Forall P (codeBlocks (snd (on_fence_plain m s))).
Proof.
  intros HP Hs. unfold on_fence_plain.
  destruct (str_eqb _ fence); [|exact Hs].
  cbn [snd push_codeBlock codeBlocks]. apply Forall_app. split; [exact Hs|].
  constructor; [|constructor]. apply HP.
Qed.

Lemma extract_languages (P : CodeBlock -> Prop) text s :
  (forall l c, includes l knownLanguages = true -> P (mkCodeBlock l c)) ->
  (forall c, P (mkCodeBlock (u "plaintext") c)) ->
  Forall P (codeBlocks s) -> Forall P (codeBlocks (snd (extract text s))).
Proof.
  intros HP1 HP2 Hs. unfold extract, bind.
  set (Q := fun s' : Store => Forall P (codeBlocks s')).
  assert (Q1 : Q (snd (replace_st re_fence_lang on_fence_lang text s))).
  { apply replace_st_preserves; [|exact Hs].
    intros m s' Hs'. apply on_fence_lang_language; assumption. }
  destruct (replace_st re_fence_lang on_fence_lang text s) as [t1 s1].
  cbn [snd] in Q1.
  assert (Q2 : Q (snd (replace_st re_fence_plain on_fence_plain t1 s1))).
  { apply replace_st_preserves; [|exact Q1].
    intros m s' Hs'. apply on_fence_plain_language; assumption. }
  destruct (replace_st re_fence_plain on_fence_plain t1 s1) as [t2 s2].
  cbn [snd] in Q2.
  assert (Q3 : Q (snd (replace_st re_inline_first on_inline_first t2 s2))).
  { apply replace_st_preserves; [|exact Q2].
    intros m s' Hs'. unfold Q. rewrite on_inline_first_codeBlocks. exact Hs'. }
  destruct (replace_st re_inline_first on_inline_first t2 s2) as [t3 s3].
  cbn [snd] in Q3.
  assert (Q4 : Q (snd (replace_st tableRegex on_table t3 s3))).
  { apply replace_st_preserves; [|exact Q3].
    intros m s' Hs'. unfold Q. rewrite on_table_codeBlocks. exact Hs'. }
  destruct (replace_st tableRegex on_table t3 s3) as [t4 s4].
  cbn [snd] in Q4.
  apply replace_st_preserves; [|exact Q4].
  intros m s' Hs'. unfold Q. rewrite on_inline_second_codeBlocks. exact Hs'.
Qed.

Lemma knownLanguages_lower :
  Forall (fun l => forallb is_lower l = true) knownLanguages.
Proof. apply Forall_forall. apply forallb_forall. vm_compute. reflexivity. Qed.

(** X21.  The language of every code block that the extraction stores is
    [plaintext] or one of the known languages, and so made of small
    ASCII letters only: what goes into the class attribute without
    escaping holds no markup. *)
Theorem stored_language_is_known (text : str) (block : CodeBlock) :
  In block (codeBlocks (snd (extract text empty_store))) ->
  (language block = u "plaintext" \/ In (language block) knownLanguages) /\
  forallb is_lower (language block) = true.
Proof.
  intros Hin.
  assert (F : Forall
                (fun b =>
                   (language b = u "plaintext" \/ In (language b) knownLanguages)
                   /\ forallb is_lower (language b) = true)
                (codeBlocks (snd (extract text empty_store)))).
  { apply extract_languages; [| |constructor].
    - intros l c H. apply includes_In in H. cbn [language].
      split; [right; exact H|].
      pose proof knownLanguages_lower as K. rewrite Forall_forall in K.
      apply K. exact H.
    - intros c. cbn [language]. split; [left; reflexivity|reflexivity]. }
  rewrite Forall_forall in F. apply F. exact Hin.
Qed.

Lemma stored_language_is_known_witness :
  In (mkCodeBlock (u "js") (u "x"))
    (codeBlocks (snd (extract (u "```JS" ++ [nl] ++ u "x" ++ [nl] ++ u "```")
                        empty_store))) /\
  forallb is_lower (language (mkCodeBlock (u "js") (u "x"))) = true.
Proof.
  assert (H : In (mkCodeBlock (u "js") (u "x"))
                (codeBlocks (snd (extract (u "```JS" ++ [nl] ++ u "x" ++ [nl]
                                             ++ u "```") empty_store))))
    by (vm_compute; left; reflexivity).
  split; [exact H|].
  exact (proj2 (@stored_language_is_known _ _ H)).
Defined.

(** ** Plain text *)

(** *** Text without special characters *)

(** A pattern all of whose words hold a character of the class [P]
    matches nowhere in a text without such characters. *)
Lemma no_match_special (P : char -> bool) r text :
  (forall w, lang r w -> exists c, In c w /\ P c = true) ->
  (forall c, In c text -> P c = false) ->
  forall m, ~ matches_in r text m.
Proof.
  intros Hr Hc m (before & after & -> & E).
  apply exec_sound in E. destruct E as (_ & E & L & _).
  apply Hr in L. destruct L as (c & Hin & Hp).
  rewrite (Hc c) in Hp; [discriminate|].
  apply in_or_app. right. rewrite E. apply in_or_app. left. exact Hin.
Qed.

Lemma no_match_char (a : ascii) r text :
  md_special (ch a) = true ->
  (forall w, lang r w -> In (ch a) w) ->
  (forall c, In c text -> md_special c = false) ->
  forall m, ~ matches_in r text m.
Proof.
  intros Ha Hr Hc. apply no_match_special with (P := md_special); [|exact Hc].
  intros w L. exists (ch a). split; [apply Hr; exact L|exact Ha].
Qed.

Lemma no_match_fmt (a : ascii) r text :
  fmt_special (ch a) = true ->
  (forall w, lang r w -> In (ch a) w) ->
  (forall c, In c text -> fmt_special c = false) ->
  forall m, ~ matches_in r text m.
Proof.
  intros Ha Hr Hc. apply no_match_special with (P := fmt_special); [|exact Hc].
  intros w L. exists (ch a). split; [apply Hr; exact L|exact Ha].
Qed.

Lemma lang_fence_lang_tick w : lang re_fence_lang w -> In (ch "`") w.
Proof. intros H. apply lang_fence_lang in H. destruct H as (b & ->). left. reflexivity. Qed.

Lemma lang_fence_plain_tick w : lang re_fence_plain w -> In (ch "`") w.
Proof. intros H. apply lang_fence_plain in H. destruct H as (b & ->). left. reflexivity. Qed.

Lemma lang_inline_first w : lang re_inline_first w -> In (ch "`") w.
Proof.
  intros (w1 & w2 & -> & L & w3 & w4 & -> & L' & _). simpl in L, L'. subst.
  left. reflexivity.
Qed.

Lemma lang_table w : lang tableRegex w -> In (ch "|") w.
Proof.
  unfold tableRegex, Plus. cbn [Seqs lang].
  intros (w1 & w2 & -> & (a1 & a2 & -> & -> & a3 & a4 & -> & _ & a5 & a6 & -> & -> & _) & _).
  cbn [app]. apply in_or_app. left. apply in_or_app. right. left. reflexivity.
Qed.

Lemma lang_inline_second w : lang re_inline_second w -> In (ch "`") w.
Proof.
  unfold re_inline_second, Plus. cbn [Seqs lang].
  intros (w1 & w2 & -> & (a1 & a2 & -> & -> & _) & _). left. reflexivity.
Qed.

Lemma lang_header n w : lang (re_header (S n)) w -> In (ch "#") w.
Proof.
  unfold re_header. cbn [Seqs]. intros (w1 & w2 & -> & L1 & w3 & w4 & -> & L & _).
  cbn [lang] in L1. subst w1. apply lang_Lit in L. subst w3.
  left. reflexivity.
Qed.

Lemma lang_three_or_more a w : lang (three_or_more a) w -> In (ch a) w.
Proof.
  unfold three_or_more. cbn [Seqs lang].
  intros (w1 & w2 & -> & -> & _). left. reflexivity.
Qed.

Lemma lang_rule w : lang re_rule w -> exists c, In c w /\ fmt_special c = true.
Proof.
  unfold re_rule. cbn [Seqs].
  intros (w1 & w2 & -> & L1 & w3 & w4 & -> & _ & w5 & w6 & -> & L & _).
  cbn [lang] in L1. subst w1. cbn [lang] in L.
  assert (H : exists c, In c w5 /\ fmt_special c = true).
  { destruct L as [L|[L|L]]; apply lang_three_or_more in L;
      eexists; (split; [exact L|reflexivity]). }
  destruct H as (c & Hin & Hc). exists c. split; [|exact Hc].
  cbn [app]. apply in_or_app. right. apply in_or_app. left. exact Hin.
Qed.

Lemma lang_blockquote w : lang re_blockquote w -> In (ch "&") w.
Proof.
  unfold re_blockquote. cbn [Seqs].
  intros (w1 & w2 & -> & L1 & w3 & w4 & -> & L & _).
  cbn [lang] in L1. subst w1. apply lang_Lit in L. subst w3.
  left. reflexivity.
Qed.

Lemma lang_unordered w :
  lang re_unordered w -> exists c, In c w /\ fmt_special c = true.
Proof.
  unfold re_unordered. cbn [Seqs].
  intros (w1 & w2 & -> & L1 & w3 & w4 & -> & (c & -> & Hc) & _).
  cbn [lang] in L1. subst w1. exists c. split; [left; reflexivity|].
  unfold c_is in Hc.
  apply orb_true_iff in Hc. destruct Hc as [Hc|Hc];
    [apply orb_true_iff in Hc; destruct Hc as [Hc|Hc]|];
    apply N.eqb_eq in Hc; subst c; reflexivity.
Qed.

Lemma lang_items w : lang re_items w -> In (ch "<") w.
Proof.
  unfold re_items, Plus. cbn [Seqs].
  intros (w1 & w2 & -> & L & _). cbn [lang] in L.
  destruct L as (a1 & a2 & -> & L & _). apply lang_Lit in L. subst a1.
  left. reflexivity.
Qed.

Lemma lang_image_bracket w : lang re_image w -> In (ch "[") w.
Proof.
  unfold re_image. cbn [Seqs]. intros (w1 & w2 & -> & L & _).
  apply lang_Lit in L. subst w1. right. left. reflexivity.
Qed.

Lemma lang_Lit_head c s w : lang (Lit (c :: s)) w -> In c w.
Proof. intros L. apply lang_Lit in L. subst. left. reflexivity. Qed.

(** **** The ordered-list pattern *)

Lemma digit_dot_app_r : forall p q, digit_dot q = true -> digit_dot (p ++ q) = true.
Proof.
  induction p as [|c p IH]; intros q H; [exact H|].
  cbn [app digit_dot]. rewrite (IH q H). apply orb_true_r.
Qed.

Lemma digit_dot_app_l : forall p q, digit_dot p = true -> digit_dot (p ++ q) = true.
Proof.
  induction p as [|c p IH]; intros q H; [discriminate|].
  cbn [app digit_dot] in H |- *.
  apply orb_true_iff in H. destruct H as [H|H].
  - apply andb_true_iff in H. destruct H as [H1 H2].
    destruct p as [|d p]; [discriminate|]. cbn [app]. rewrite H1, H2. reflexivity.
  - rewrite (IH q H). apply orb_true_r.
Qed.

Lemma digit_dot_run : forall ds q,
  ds <> [] -> Forall (fun c => is_digit c = true) ds ->
  digit_dot (ds ++ ch "." :: q) = true.
Proof.
  induction ds as [|d ds IH]; intros q Hne F; [congruence|].
  inversion F as [|? ? Hd F']; subst.
  destruct ds as [|d' ds].
  - cbn [app digit_dot]. rewrite Hd. reflexivity.
  - change ((d :: d' :: ds) ++ ch "." :: q)
      with (d :: ((d' :: ds) ++ ch "." :: q)).
    cbn [digit_dot]. rewrite IH; [apply orb_true_r|discriminate|exact F'].
Qed.

Lemma no_match_ordered text :
  digit_dot text = false -> forall m, ~ matches_in re_ordered text m.
Proof.
  intros Hd m (before & after & -> & E).
  apply exec_sound in E. destruct E as (_ & E & L & _).
  unfold re_ordered in L. cbn [Seqs] in L.
  destruct L as (w1 & w2 & Ew & L1 & w3 & w4 & -> & L3 & w5 & w6 & -> & L5 & _).
  cbn [lang] in L1, L5. subst w1 w5. apply lang_Plus_cls in L3.
  destruct L3 as [Hne F].
  rewrite E, Ew in Hd. cbn [app] in Hd.
  rewrite digit_dot_app_r in Hd; [discriminate|].
  apply digit_dot_app_l. apply digit_dot_run; assumption.
Qed.

(** **** Patterns with two tags against one paragraph *)

Lemma wrapped_match r w m :
  ~ In (ch "<") w ->
  (forall x, lang r x ->
     exists y z, x = ch "<" :: y ++ ch "<" :: z /\ y <> u "p>" ++ w) ->
  ~ matches_in r (u "<p>" ++ w ++ u "</p>") m.
Proof.
  intros Hw Hr (before & after & Et & E).
  apply exec_sound in E. destruct E as (_ & E & L & _).
  apply Hr in L. destruct L as (y & z & Ex & Hy). apply Hy. clear Hy.
  rewrite E, Ex in Et. clear E Ex.
  assert (Hpw : ~ In (ch "<") (u "p>" ++ w)).
  { intros Hin. apply in_app_or in Hin. destruct Hin as [Hin|Hin];
      [|exact (Hw Hin)].
    simpl in Hin. intuition discriminate. }
  assert (Hend : ~ In (ch "<") (u "/p>")).
  { simpl. intuition discriminate. }
  assert (Et' : [] ++ ch "<" :: ((u "p>" ++ w) ++ ch "<" :: u "/p>")
                = rev before ++ ch "<" :: (y ++ ch "<" :: (z ++ m_after m))).
  { transitivity (u "<p>" ++ w ++ u "</p>").
    - cbn [app]. rewrite <- app_assoc. reflexivity.
    - rewrite Et. cbn [app]. rewrite <- app_assoc. reflexivity. }
  clear Et. rename Et' into Et.
  apply split_at_first in Et; [|intros []].
  destruct Et as [[_ Et]|(q & _ & Et)].
  - symmetry in Et. apply split_at_first in Et; [|exact Hpw].
    destruct Et as [[Ey _]|(q & _ & Et)]; [exact Ey|].
    exfalso. apply Hend. rewrite Et. apply in_or_app. right. left. reflexivity.
  - exfalso. apply split_at_first in Et; [|exact Hpw].
    destruct Et as [[_ Et]|(q' & _ & Et)].
    + apply Hend. rewrite <- Et. apply in_or_app. right. left. reflexivity.
    + apply Hend. rewrite Et. apply in_or_app. right. left. reflexivity.
Qed.

Lemma plain_text_parts w :
  plain_text w = true ->
  (forall c, In c w -> md_special c = false) /\
  digit_dot w = false /\
  exists c, In c w /\ is_space c = false.
Proof.
  unfold plain_text. intros H.
  apply andb_true_iff in H. destruct H as [H H3].
  apply andb_true_iff in H. destruct H as [H1 H2].
  split; [|split].
  - intros c Hin. rewrite forallb_forall in H1. apply H1 in Hin.
    apply negb_true_iff in Hin. exact Hin.
  - apply negb_true_iff. exact H2.
  - apply existsb_exists in H3. destruct H3 as (c & Hin & Hc).
    exists c. split; [exact Hin|]. apply negb_true_iff. exact Hc.
Qed.

Lemma md_special_fmt c : md_special c = false -> fmt_special c = false.
Proof. unfold fmt_special. intros ->. reflexivity. Qed.

Lemma fmt_special_html c : fmt_special c = false -> html_special c = false.
Proof.
  unfold fmt_special. intros H. apply andb_false_iff in H.
  destruct H as [H|H].
  - unfold md_special in H.
    repeat (apply orb_false_elim in H; destruct H as [H ?]). assumption.
  - apply negb_false_iff in H. unfold c_is in H. apply N.eqb_eq in H.
    subst c. reflexivity.
Qed.

Lemma escape_units_id : forall text,
  (forall c, In c text -> html_special c = false) ->
  flat_map escape_unit text = text.
Proof.
  induction text as [|c text IH]; intros H; [reflexivity|].
  cbn [flat_map].
  destruct (escape_unit_cases c) as [[-> _]|[[-> _]|[[-> _]|[[-> _]|[[-> _]|[_ E]]]]]];
    try (specialize (H _ (or_introl eq_refl)); discriminate H).
  rewrite E, IH; [reflexivity|]. intros x Hx. apply H. right. exact Hx.
Qed.

Section Unformatted.
Variable w : str.
Hypothesis Hfm : forall c, In c w -> fmt_special c = false.
Hypothesis Hdd : digit_dot w = false.
Hypothesis Hns : exists c, In c w /\ is_space c = false.

Lemma plain_escapeHtml : escapeHtml w = w.
Proof.
  rewrite escapeHtml_units. apply escape_units_id.
  intros c Hin. apply fmt_special_html, Hfm, Hin.
Qed.

Lemma plain_format_blocks : format_blocks w = w.
Proof.
  unfold format_blocks.
  rewrite (@replace_str_no_match (re_header 6) (header_template 6))
    by (apply no_match_fmt with (a := "#"%char);
        [reflexivity|apply lang_header|exact Hfm]).
  rewrite (@replace_str_no_match (re_header 5) (header_template 5))
    by (apply no_match_fmt with (a := "#"%char);
        [reflexivity|apply lang_header|exact Hfm]).
  rewrite (@replace_str_no_match (re_header 4) (header_template 4))
    by (apply no_match_fmt with (a := "#"%char);
        [reflexivity|apply lang_header|exact Hfm]).
  rewrite (@replace_str_no_match (re_header 3) (header_template 3))
    by (apply no_match_fmt with (a := "#"%char);
        [reflexivity|apply lang_header|exact Hfm]).
  rewrite (@replace_str_no_match (re_header 2) (header_template 2))
    by (apply no_match_fmt with (a := "#"%char);
        [reflexivity|apply lang_header|exact Hfm]).
  rewrite (@replace_str_no_match (re_header 1) (header_template 1))
    by (apply no_match_fmt with (a := "#"%char);
        [reflexivity|apply lang_header|exact Hfm]).
  rewrite (@replace_str_no_match re_rule (u "<hr>"))
    by (apply no_match_special with (P := fmt_special);
        [apply lang_rule|exact Hfm]).
  rewrite (@replace_str_no_match re_blockquote (u "<blockquote>$1</blockquote>"))
    by (apply no_match_fmt with (a := "&"%char);
        [reflexivity|apply lang_blockquote|exact Hfm]).
  rewrite (@replace_str_no_match re_unordered (u "<li>$1</li>"))
    by (apply no_match_special with (P := fmt_special);
        [apply lang_unordered|exact Hfm]).
  rewrite (@replace_str_no_match re_ordered (u "<li>$1</li>"))
    by (apply no_match_ordered; exact Hdd).
  unfold replace_fn. rewrite replace_st_no_match; [reflexivity|].
  apply no_match_fmt with (a := "<"%char);
    [reflexivity|apply lang_items|exact Hfm].
Qed.

Lemma plain_format_spans : format_spans w = w.
Proof.
  unfold format_spans.
  rewrite (@replace_str_no_match re_bold strong_template)
    by (apply no_match_fmt with (a := "*"%char);
        [reflexivity|apply lang_bold|exact Hfm]).
  rewrite (@replace_str_no_match (re_italic "*") em_template)
    by (apply no_match_fmt with (a := "*"%char);
        [reflexivity|apply lang_italic|exact Hfm]).
  rewrite (@replace_str_no_match (re_italic "_") em_template)
    by (apply no_match_fmt with (a := "_"%char);
        [reflexivity|apply lang_italic|exact Hfm]).
  rewrite (@replace_str_no_match re_strike del_template)
    by (apply no_match_fmt with (a := "~"%char);
        [reflexivity|apply lang_strike|exact Hfm]).
  rewrite (@replace_str_no_match re_link link_template)
    by (apply no_match_fmt with (a := "["%char);
        [reflexivity|apply lang_link|exact Hfm]).
  apply replace_str_no_match.
  apply no_match_fmt with (a := "["%char);
    [reflexivity|apply lang_image_bracket|exact Hfm].
Qed.

Lemma plain_no_nl : ~ In nl w.
Proof. intros H. apply Hfm in H. discriminate H. Qed.

Lemma plain_no_lt : ~ In (ch "<") w.
Proof. intros H. apply Hfm in H. discriminate H. Qed.

Lemma plain_nonempty : w <> [].
Proof. destruct Hns as (c & Hin & _). intros ->. exact Hin. Qed.

Lemma plain_not_blank sp :
  Forall (fun c => is_space c = true) sp -> sp <> w.
Proof.
  intros F ->. destruct Hns as (c & Hin & Hc).
  rewrite Forall_forall in F. apply F in Hin. congruence.
Qed.

Lemma lang_double_p x :
  lang re_double_p x ->
  exists y z, x = ch "<" :: y ++ ch "<" :: z /\ y <> u "p>" ++ w.
Proof.
  unfold re_double_p. cbn [Seqs].
  intros (w1 & w2 & -> & L & _). apply lang_Lit in L. subst w1.
  exists (u "/p>"), (u "p>" ++ w2). split; [reflexivity|discriminate].
Qed.

Lemma lang_empty_p x :
  lang re_empty_p x ->
  exists y z, x = ch "<" :: y ++ ch "<" :: z /\ y <> u "p>" ++ w.
Proof.
  unfold re_empty_p. cbn [Seqs].
  intros (w1 & w2 & -> & L1 & w3 & w4 & -> & L3 & L4).
  apply lang_Lit in L1, L4. subst w1 w4. apply lang_Star_cls in L3.
  exists (u "p>" ++ w3), (u "/p>"). split.
  - cbn [app]. rewrite <- app_assoc. reflexivity.
  - intros E. apply app_inv_head in E. exact (plain_not_blank L3 E).
Qed.

Lemma lang_br_before x :
  lang re_br_before_block x ->
  exists y z, x = ch "<" :: y ++ ch "<" :: z /\ y <> u "p>" ++ w.
Proof.
  unfold re_br_before_block. cbn [Seqs].
  intros (w1 & w2 & -> & L1 & w3 & w4 & -> & _ & w5 & w6 & -> & L5 & _).
  apply lang_Lit in L1. subst w1. cbn [lang] in L5. subst w5.
  exists (u "br>" ++ w3), w6. split.
  - cbn [app]. rewrite <- app_assoc. reflexivity.
  - discriminate.
Qed.

Lemma lang_br_after x :
  lang re_br_after_block x ->
  exists y z, x = ch "<" :: y ++ ch "<" :: z /\ y <> u "p>" ++ w.
Proof.
  unfold re_br_after_block. cbn [Seqs].
  intros (w1 & w2 & -> & L1 & w3 & w4 & -> & _ & L4).
  apply lang_Lit in L1, L4. subst w1 w4.
  exists (ch "/" :: w3 ++ u ">"), (u "br>"). split.
  - cbn [app]. rewrite <- app_assoc. reflexivity.
  - discriminate.
Qed.

Lemma lang_br_p x :
  lang (Lit (u "<br></p>")) x ->
  exists y z, x = ch "<" :: y ++ ch "<" :: z /\ y <> u "p>" ++ w.
Proof.
  intros L. apply lang_Lit in L. subst x.
  exists (u "br>"), (u "/p>"). split; [reflexivity|discriminate].
Qed.

Lemma lang_p_br x :
  lang (Lit (u "<p><br>")) x ->
  exists y z, x = ch "<" :: y ++ ch "<" :: z /\ y <> u "p>" ++ w.
Proof.
  intros L. apply lang_Lit in L. subst x.
  exists (u "p>"), (u "br>"). split; [reflexivity|].
  intros E. apply plain_nonempty.
  destruct w; [reflexivity|discriminate E].
Qed.

Lemma plain_paragraphs : paragraphs w = u "<p>" ++ w ++ u "</p>".
Proof.
  unfold paragraphs.
  rewrite (@replace_str_no_match (Lit [nl; nl]) (u "</p><p>"))
    by (apply no_match_without with (c := nl);
        [apply lang_Lit_head|exact plain_no_nl]).
  rewrite (@replace_str_no_match (Chr nl) (u "<br>"))
    by (apply no_match_without with (c := nl);
        [intros x ->; left; reflexivity|exact plain_no_nl]).
  rewrite (@replace_str_no_match re_double_p (u "</p><p>"))
    by (intros m; apply wrapped_match; [exact plain_no_lt|exact lang_double_p]).
  apply replace_str_no_match.
  intros m. apply wrapped_match; [exact plain_no_lt|exact lang_empty_p].
Qed.

Lemma plain_cleanup : cleanup (u "<p>" ++ w ++ u "</p>") = u "<p>" ++ w ++ u "</p>".
Proof.
  unfold cleanup.
  rewrite (@replace_str_no_match re_br_before_block (u "<$1"))
    by (intros m; apply wrapped_match; [exact plain_no_lt|exact lang_br_before]).
  rewrite (@replace_str_no_match re_br_after_block (u "</$1>"))
    by (intros m; apply wrapped_match; [exact plain_no_lt|exact lang_br_after]).
  rewrite (@replace_str_no_match (Lit (u "<br></p>")) (u "</p>"))
    by (intros m; apply wrapped_match; [exact plain_no_lt|exact lang_br_p]).
  apply replace_str_no_match.
  intros m. apply wrapped_match; [exact plain_no_lt|exact lang_p_br].
Qed.

Lemma unformatted_parseMarkdown :
  extract w empty_store = (w, empty_store) ->
  parseMarkdown w = u "<p>" ++ w ++ u "</p>".
Proof.
  intros E. unfold parseMarkdown, parseMarkdown_st.
  replace (truthy w) with true
    by (pose proof plain_nonempty; destruct w; [congruence|reflexivity]).
  cbn [negb]. unfold bind, put, get, ret.
  rewrite E, plain_escapeHtml, plain_format_blocks,
    plain_format_spans, plain_paragraphs.
  cbn [fst]. unfold restore.
  cbn [inlineCodes tables codeBlocks empty_store restore_loop].
  apply plain_cleanup.
Qed.
End Unformatted.

Section Plain.
Variable w : str.
Hypothesis Hsp : forall c, In c w -> md_special c = false.
Hypothesis Hdd : digit_dot w = false.
Hypothesis Hns : exists c, In c w /\ is_space c = false.

Lemma plain_extract s : extract w s = (w, s).
Proof.
  unfold extract, bind.
  rewrite replace_st_no_match
    by (apply no_match_char with (a := "`"%char);
        [reflexivity|apply lang_fence_lang_tick|exact Hsp]).
  rewrite replace_st_no_match
    by (apply no_match_char with (a := "`"%char);
        [reflexivity|apply lang_fence_plain_tick|exact Hsp]).
  rewrite replace_st_no_match
    by (apply no_match_char with (a := "`"%char);
        [reflexivity|apply lang_inline_first|exact Hsp]).
  rewrite replace_st_no_match
    by (apply no_match_char with (a := "|"%char);
        [reflexivity|apply lang_table|exact Hsp]).
  apply replace_st_no_match.
  apply no_match_char with (a := "`"%char);
    [reflexivity|apply lang_inline_second|exact Hsp].
Qed.

Lemma plain_parseMarkdown : parseMarkdown w = u "<p>" ++ w ++ u "</p>".
Proof.
  apply unformatted_parseMarkdown; [|exact Hdd|exact Hns|apply plain_extract].
  intros c Hin. apply md_special_fmt, Hsp, Hin.
Qed.
End Plain.

(** X22.  A text that holds none of the special characters and no digit
    before a full stop, and is not white space only, comes out as one
    paragraph with the text as it is. *)
Theorem parseMarkdown_plain_text (w : str) :
  plain_text w = true -> parseMarkdown w = u "<p>" ++ w ++ u "</p>".
Proof.
  intros H. apply plain_text_parts in H. destruct H as (H1 & H2 & H3).
  apply plain_parseMarkdown; assumption.
Qed.

Lemma parseMarkdown_plain_text_witness :
  plain_text (u "Version 2 of the plan is ready. Shall we meet at 10?") = true /\
  parseMarkdown (u "Version 2 of the plan is ready. Shall we meet at 10?")
  = u "<p>" ++ u "Version 2 of the plan is ready. Shall we meet at 10?" ++ u "</p>".
Proof.
  split; [reflexivity|].
  apply (@parseMarkdown_plain_text
           (u "Version 2 of the plan is ready. Shall we meet at 10?")).
  reflexivity.
Defined.

(** * Sentinels, fences and the length of strings *)

(** ** The sentinels of one call *)












(** ** Fences and code blocks *)




Lemma fences_two_fences text : fences 2 text <-> two_fences text.
Proof.
  split.
  - intros H. inversion H as [|n a rest H1 E1 E2]; subst.
    inversion H1 as [|n b c H2 E3 E4]; subst.
    exists a, b, c. reflexivity.
  - intros (a & b & c & ->). constructor. constructor. constructor.
Qed.




Lemma placeholder_nonempty k n : placeholder k n <> [].
Proof. unfold placeholder. discriminate. Qed.




(** ** One fence amid plain text *)









Section OneFence.
Variables a b : str.
Hypothesis Hab : forall c, In c (a ++ b) -> md_special c = false.
Hypothesis Hdd : digit_dot (a ++ fence ++ b) = false.




End OneFence.

(** ** A fence without a partner *)






(** ** A literal pattern and a replacement text with [$`] *)

Lemma groups_of_Lit s : groups_of (Lit s) = [].
Proof. induction s as [|c s IH]; [reflexivity|]. cbn [Lit groups_of app]. exact IH. Qed.

Lemma ngroups_Lit s : ngroups (Lit s) = 0.
Proof. unfold ngroups. rewrite groups_of_Lit. reflexivity. Qed.

Lemma subst_go_app_plain n m t1 : forall t2,
  ~ In (ch "$") t1 -> subst_go n m (t1 ++ t2) = t1 ++ subst_go n m t2.
Proof.
  induction t1 as [|c t1 IH]; intros t2 H; [reflexivity|].
  cbn [app subst_go].
  assert (Hc : c_is "$" c = false).
  { unfold c_is. apply N.eqb_neq. intros ->. apply H. left. reflexivity. }
  rewrite Hc. cbn [negb]. f_equal. apply IH.
  intros Hin. apply H. right. exact Hin.
Qed.

(** The pattern [$`] is the text before the match. *)
Lemma subst_before n m t1 t2 :
  ~ In (ch "$") t1 -> ~ In (ch "$") t2 ->
  subst n (t1 ++ u "$`" ++ t2) m = t1 ++ rev (m_before m) ++ t2.
Proof.
  intros H1 H2. unfold subst. rewrite subst_go_app_plain by exact H1.
  f_equal. change (u "$`" ++ t2) with (ch "$" :: ch "`" :: t2).
  cbn [subst_go]. replace (c_is "$" (ch "$")) with true by reflexivity.
  cbn [negb]. replace (c_is "$" (ch "`")) with false by reflexivity.
  replace (c_is "&" (ch "`")) with false by reflexivity.
  replace (c_is "`" (ch "`")) with true by reflexivity.
  f_equal. apply subst_go_plain. exact H2.
Qed.

Lemma exec_Lit_app before s tl :
  exec (Lit s) before (s ++ tl) = Some (MInfo before s [] tl).
Proof.
  unfold exec. rewrite mt_Lit. cbn [rest caps].
  rewrite firstn_app_exact. reflexivity.
Qed.

Lemma exec_Lit_sound s before after m :
  exec (Lit s) before after = Some m -> after = s ++ m_after m /\ m_text m = s.
Proof.
  intros E. apply exec_sound in E. destruct E as (_ & E & L & _).
  apply lang_Lit in L. rewrite L in E. auto.
Qed.

Lemma starts_with_app s : forall tl, starts_with s (s ++ tl) = true.
Proof.
  induction s as [|c s IH]; intros tl; [reflexivity|].
  cbn [app starts_with]. rewrite N.eqb_refl. apply IH.
Qed.

Lemma contains_suffix s : forall pre suf,
  contains s (pre ++ suf) = false -> starts_with s suf = false.
Proof.
  induction pre as [|c pre IH]; intros suf H.
  - cbn [app] in H. destruct suf as [|d suf]; cbn [contains] in H; [exact H|].
    apply orb_false_elim in H. apply H.
  - cbn [app contains] in H. apply orb_false_elim in H. apply IH, H.
Qed.

(** A word without [c] at the front of [P ++ c :: tl] ends inside [P]. *)
Lemma prefix_no_char (c : char) : forall (P s tl rest0 : str),
  P ++ c :: tl = s ++ rest0 -> ~ In c s -> length s <= length P.
Proof.
  induction P as [|x P IH]; intros s tl rest0 E H.
  - destruct s as [|y s]; [simpl; lia|]. cbn [app] in E. injection E as <- _.
    exfalso. apply H. left. reflexivity.
  - destruct s as [|y s]; [simpl; lia|]. cbn [app] in E. injection E as <- E.
    cbn [length]. apply le_n_S. apply (IH s tl rest0 E).
    intros Hin. apply H. right. exact Hin.
Qed.

Section LitReplace.
Variable s : str.
Variable c : char.
Variable g : minfo -> str.
Hypothesis Hne : s <> [].
Hypothesis Hc : ~ In c s.
Hypothesis Hg : forall m, length s <= length (g m).

(** The search up to a [c] that is not in the pattern: what comes out is
    no shorter than what was read, and the search is at the [c] with
    nothing left to step over. *)
Lemma scan_to_char : forall (P before tl : str) skip,
  skip <= length P ->
  exists out,
    length P <= length out + skip /\
    replace_go (Lit s) (fun m (_ : unit) => (g m, tt)) before (P ++ c :: tl) skip tt
    = (out ++ c :: fst (replace_go (Lit s) (fun m (_ : unit) => (g m, tt)) (c :: rev P ++ before) tl 0 tt),
       tt).
Proof.
  induction P as [|x P IH]; intros before tl skip Hs.
  - cbn [length] in Hs. assert (skip = 0) by lia. subst skip.
    exists []. split; [simpl; lia|].
    cbn [app replace_go rev].
    destruct (exec (Lit s) before (c :: tl)) as [m|] eqn:E.
    + exfalso. apply exec_Lit_sound in E. destruct E as [E _].
      destruct s as [|s0 s']; [apply Hne; reflexivity|].
      cbn [app] in E. injection E as E _.
      apply Hc. left. symmetry. exact E.
    + destruct (replace_go (Lit s) (fun m (_ : unit) => (g m, tt)) (c :: before) tl 0 tt) as [o []].
      reflexivity.
  - destruct skip as [|n].
    + cbn [app replace_go].
      destruct (exec (Lit s) before (x :: P ++ c :: tl)) as [m|] eqn:E.
      * pose proof E as E2. apply exec_Lit_sound in E2. destruct E2 as [E2 Em].
        assert (Hl : length s <= length (x :: P)).
        { apply (@prefix_no_char c (x :: P) s tl (m_after m)); [exact E2|exact Hc]. }
        rewrite Em. cbn [length] in Hl.
        destruct (length s) as [|l] eqn:El.
        { destruct s; [exfalso; apply Hne; reflexivity|discriminate El]. }
        destruct (IH (x :: before) tl l) as (out & Ho & Eo); [lia|].
        rewrite Eo. exists (g m ++ out). split.
        -- pose proof (Hg m) as G.
           rewrite length_app. cbn [length]. lia.
        -- cbn [rev]. rewrite <- !app_assoc. reflexivity.
      * destruct (IH (x :: before) tl 0) as (out & Ho & Eo); [lia|].
        rewrite Eo. exists (x :: out). split.
        -- cbn [length]. lia.
        -- cbn [rev]. rewrite <- !app_assoc. reflexivity.
    + cbn [app replace_go]. cbn [length] in Hs.
      destruct (IH (x :: before) tl n) as (out & Ho & Eo); [lia|].
      rewrite Eo. exists out. split.
      * cbn [length]. lia.
      * cbn [rev]. rewrite <- !app_assoc. reflexivity.
Qed.

(** The text after the last occurrence is copied. *)
Lemma copy_rest (R before : str) :
  contains s R = false ->
  replace_go (Lit s) (fun m (_ : unit) => (g m, tt)) before R 0 tt = (R, tt).
Proof.
  intros H. rewrite replace_go_id; [reflexivity| |lia].
  intros pre suf m E X. exfalso.
  apply exec_Lit_sound in X. destruct X as [X _].
  rewrite E in H. apply contains_suffix in H.
  rewrite X, starts_with_app in H. discriminate.
Qed.

(** One [replace] over a text whose last occurrence of the pattern is
    after a [c]. *)
Lemma replace_last (Q R : str) :
  contains s R = false ->
  exists out,
    length Q <= length out /\
    replace_fn (Lit s) g (Q ++ c :: s ++ R)
    = out ++ c :: g (MInfo (c :: rev Q) s [] R) ++ R.
Proof.
  intros HR. unfold replace_fn, replace_st.
  destruct (@scan_to_char Q [] (s ++ R) 0) as (out & Ho & Eo); [lia|].
  rewrite Eo. exists out. split; [lia|].
  cbn [fst]. f_equal. f_equal. rewrite app_nil_r.
  destruct s as [|s0 s'] eqn:Es; [exfalso; apply Hne; reflexivity|].
  cbn [app replace_go].
  change (s0 :: s' ++ R) with ((s0 :: s') ++ R). rewrite exec_Lit_app.
  cbn [m_text length]. rewrite replace_go_skip.
  rewrite <- Es in *. rewrite copy_rest by exact HR. reflexivity.
Qed.

End LitReplace.

(** ** The strings a call builds and what it returns *)

Lemma last_app_cons (A : Type) (l : list A) x l' d :
  last (l ++ x :: l') d = last (x :: l') d.
Proof.
  induction l as [|y l IH]; [reflexivity|].
  cbn [app]. rewrite <- IH. cbn [last].
  destruct (l ++ x :: l') eqn:E; [|reflexivity].
  destruct l; discriminate.
Qed.

(** The lists of passes are the statements of the functions. *)
Lemma escapeHtml_built_last text :
  last (escapeHtml_built text) [] = escapeHtml text.
Proof.
  unfold escapeHtml_built, escapeHtml. destruct (truthy text); reflexivity.
Qed.

Lemma block_passes_last html :
  last (steps block_passes html) [] = format_blocks html.
Proof. reflexivity. Qed.

Lemma span_passes_last html :
  last (steps span_passes html) [] = format_spans html.
Proof. reflexivity. Qed.

Lemma paragraph_passes_last html :
  last (steps paragraph_passes html) [] = paragraphs html.
Proof. reflexivity. Qed.

Lemma cleanup_passes_last html :
  last (steps cleanup_passes html) [] = cleanup html.
Proof. reflexivity. Qed.

Lemma parseInlineMarkdown_built_last text codes :
  last (parseInlineMarkdown_built text codes) []
  = parseInlineMarkdown text codes.
Proof.
  unfold parseInlineMarkdown_built, parseInlineMarkdown.
  destruct (truthy text); reflexivity.
Qed.

(** The last string a call builds is what it returns. *)
Lemma parseMarkdown_built_last text :
  truthy text = true ->
  last (parseMarkdown_built text) [] = parseMarkdown text.
Proof.
  intros H. unfold parseMarkdown_built, parseMarkdown, parseMarkdown_st.
  rewrite H. cbn [negb]. unfold extract, bind, put, get, ret.
  destruct (replace_st re_fence_lang on_fence_lang text empty_store) as [t1 s1].
  destruct (replace_st re_fence_plain on_fence_plain t1 s1) as [t2 s2].
  destruct (replace_st re_inline_first on_inline_first t2 s2) as [t3 s3].
  destruct (replace_st tableRegex on_table t3 s3) as [t4 s4].
  destruct (replace_st re_inline_second on_inline_second t4 s4) as [t5 s5].
  cbn [fst].
  rewrite !app_assoc.
  change (steps cleanup_passes ?h)
    with (replace_str re_br_before_block (u "<$1") h
          :: steps (tl cleanup_passes)
               (replace_str re_br_before_block (u "<$1") h)).
  rewrite last_app_cons. reflexivity.
Qed.

(** The result of a restoration loop is among the strings it builds. *)
Lemma restore_loop_built_last (X : Type) k (render : X -> str) built_by :
  forall items i html,
    items <> [] ->
    In (restore_loop k render i items html)
       (restore_loop_built k render built_by i items html).
Proof.
  induction items as [|x items IH]; intros i html Hne; [congruence|].
  cbn [restore_loop restore_loop_built].
  apply in_or_app. right. right.
  destruct items as [|y items].
  - left. reflexivity.
  - right. apply IH. discriminate.
Qed.

(** When there is a code block, the text after the last restoration loop
    is among the strings of the call. *)
Lemma built_restored text :
  truthy text = true ->
  codeBlocks (snd (extract text empty_store)) <> [] ->
  In (restore (snd (extract text empty_store))
        (paragraphs (format_spans (format_blocks
           (escapeHtml (fst (extract text empty_store)))))))
     (parseMarkdown_built text).
Proof.
  intros H. unfold parseMarkdown_built. rewrite H. cbn [negb].
  unfold extract, bind.
  destruct (replace_st re_fence_lang on_fence_lang text empty_store) as [t1 s1].
  destruct (replace_st re_fence_plain on_fence_plain t1 s1) as [t2 s2].
  destruct (replace_st re_inline_first on_inline_first t2 s2) as [t3 s3].
  destruct (replace_st tableRegex on_table t3 s3) as [t4 s4].
  destruct (replace_st re_inline_second on_inline_second t4 s4) as [t5 s5].
  cbn [fst snd]. intros Hne.
  apply in_or_app. right. apply in_or_app. right. apply in_or_app. right.
  apply in_or_app. right. apply in_or_app. right. apply in_or_app. left.
  unfold restore_built, restore.
  apply in_or_app. right. apply in_or_app. right.
  apply restore_loop_built_last. exact Hne.
Qed.

Lemma within_max (l : list str) x limit :
  In x l -> (N.of_nat (list_max (map (@length char) l)) <= limit)%N ->
  within limit x = true.
Proof.
  intros Hin Hl. unfold within. apply N.leb_le.
  assert (H : length x <= list_max (map (@length char) l)).
  { pose proof (proj1 (list_max_le (map (@length char) l) _) (le_n _)) as F.
    rewrite Forall_forall in F. apply F. apply in_map. exact Hin. }
  lia.
Qed.

(** On an engine whose strings may be as long as the longest string the
    call builds, the call returns. *)
Lemma parseMarkdown_js_returns s limit :
  (N.of_nat (list_max (map (@length char) (parseMarkdown_built s))) <= limit)%N ->
  parseMarkdown_js limit (VString s) = Returns (parseMarkdown s).
Proof.
  intros Hl. unfold parseMarkdown_js. cbn [falsy].
  destruct (truthy s) eqn:T; cbn [negb].
  - replace (forallb (within limit) (parseMarkdown_built s)) with true;
      [reflexivity|].
    symmetry. apply forallb_forall. intros x Hx.
    apply (within_max _ _ Hx Hl).
  - unfold parseMarkdown, parseMarkdown_st. rewrite T. reflexivity.
Qed.

Lemma parseMarkdown_js_sound limit s out :
  parseMarkdown_js limit (VString s) = Returns out ->
  out = (if truthy s then parseMarkdown s else []) /\
  forall x, In x (parseMarkdown_built s) -> within limit x = true.
Proof.
  unfold parseMarkdown_js. cbn [falsy].
  destruct (truthy s) eqn:T; cbn [negb].
  - destruct (forallb (within limit) (parseMarkdown_built s)) eqn:F;
      [|discriminate].
    intros E. injection E as <-. split; [reflexivity|].
    apply forallb_forall. exact F.
  - intros E. injection E as <-. split; [reflexivity|].
    unfold parseMarkdown_built. rewrite T. intros x [].
Qed.

(** ** Restoration of code blocks that hold [$`] *)

Lemma grown_mono n : forall q q', (q <= q')%N -> (grown n q <= grown n q')%N.
Proof.
  induction n as [|n IH]; intros q q' H; cbn [grown]; [lia|].
  apply IH. lia.
Qed.

Lemma no_char_forallb (c : char) (t : str) :
  forallb (fun x => negb (N.eqb x c)) t = true -> ~ In c t.
Proof.
  intros H Hin. rewrite forallb_forall in H. specialize (H c Hin).
  rewrite N.eqb_refl in H. discriminate.
Qed.

Section DollarBlocks.
Variable block : CodeBlock.
Variables T1 T2 : str.
Hypothesis HT : code_block_html block = T1 ++ u "$`" ++ T2.
Hypothesis H1 : ~ In (ch "$") T1.
Hypothesis H2 : ~ In (ch "$") T2.
Hypothesis HL : length T1 + length T2 = 655.

Lemma block_replacement s m :
  subst (ngroups (Lit s)) (code_block_html block) m
  = T1 ++ rev (m_before m) ++ T2.
Proof. rewrite HT. apply subst_before; assumption. Qed.

Lemma block_replacement_length s m :
  length (subst (ngroups (Lit s)) (code_block_html block) m)
  = 655 + length (m_before m).
Proof.
  rewrite block_replacement, !length_app, length_rev. lia.
Qed.

(** One restoration: the text before the sentinel comes out twice. *)
Lemma restore_one i (Q R : str) :
  length (placeholder CODEBLOCK i) <= 655 ->
  contains (placeholder CODEBLOCK i) R = false ->
  exists out,
    length Q <= length out /\
    replace_str (re_sentinel CODEBLOCK i) (code_block_html block)
      (Q ++ ch ">" :: placeholder CODEBLOCK i ++ R)
    = out ++ ch ">" :: (T1 ++ (Q ++ [ch ">"]) ++ T2) ++ R.
Proof.
  intros Hl HR. unfold replace_str, re_sentinel.
  destruct (@replace_last (placeholder CODEBLOCK i) (ch ">")
              (subst (ngroups (Lit (placeholder CODEBLOCK i)))
                 (code_block_html block))) with (Q := Q) (R := R)
    as (out & Ho & Eo).
  - apply placeholder_nonempty.
  - apply placeholder_no_char; [reflexivity|reflexivity|discriminate].
  - intros m. rewrite block_replacement_length. lia.
  - exact HR.
  - exists out. split; [exact Ho|]. rewrite Eo.
    rewrite block_replacement. cbn [m_before rev].
    rewrite rev_involutive. reflexivity.
Qed.

Lemma restore_grows : forall n i (Q : str),
  sentinels_apart i n = true ->
  forallb (fun j => length (placeholder CODEBLOCK j) <=? 655) (seq i (S n))
  = true ->
  (grown n (N.of_nat (length Q))
   <= N.of_nat
        (length
           (restore_loop CODEBLOCK code_block_html i (repeat block (S n))
              (Q ++ ch ">" :: placeholder CODEBLOCK i
                 ++ after_sentinel (S i) n))))%N.
Proof.
  induction n as [|n IH]; intros i Q Ha Hs.
  - cbn [sentinels_apart] in Ha. apply andb_prop in Ha. destruct Ha as [Ha _].
    apply negb_true_iff in Ha.
    cbn [seq forallb] in Hs. apply andb_prop in Hs. destruct Hs as [Hs _].
    apply Nat.leb_le in Hs.
    cbn [repeat restore_loop].
    destruct (@restore_one i Q (after_sentinel (S i) 0) Hs Ha)
      as (out & Ho & Eo).
    rewrite Eo. cbn [grown after_sentinel].
    rewrite !length_app. cbn [length]. rewrite !length_app. cbn [length].
    change (length (u "</p>")) with 4. lia.
  - cbn [sentinels_apart] in Ha. apply andb_prop in Ha. destruct Ha as [Ha Ha'].
    apply negb_true_iff in Ha.
    change (seq i (S (S n))) with (i :: seq (S i) (S n)) in Hs.
    cbn [forallb] in Hs. apply andb_prop in Hs. destruct Hs as [Hs Hs'].
    apply Nat.leb_le in Hs.
    change (repeat block (S (S n))) with (block :: repeat block (S n)).
    cbn [restore_loop].
    destruct (@restore_one i Q (after_sentinel (S i) (S n)) Hs Ha)
      as (out & Ho & Eo).
    rewrite Eo. cbn [after_sentinel grown].
    replace (out ++ ch ">" :: (T1 ++ (Q ++ [ch ">"]) ++ T2)
               ++ u "<br>" ++ placeholder CODEBLOCK (S i)
               ++ after_sentinel (S (S i)) n)
      with ((out ++ ch ">" :: (T1 ++ (Q ++ [ch ">"]) ++ T2) ++ u "<br")
              ++ ch ">" :: placeholder CODEBLOCK (S i)
              ++ after_sentinel (S (S i)) n).
    2:{ change (u "<br>") with (u "<br" ++ [ch ">"]).
        repeat (rewrite <- app_assoc || rewrite <- app_comm_cons).
        reflexivity. }
    eapply N.le_trans; [|apply IH; assumption].
    apply grown_mono.
    rewrite !length_app. cbn [length]. rewrite !length_app. cbn [length].
    change (length (u "<br")) with 3. lia.
Qed.

End DollarBlocks.

(** ** Twenty code blocks that hold [$`] *)

(** The replacement text of such a block: [$`] between two texts without
    a dollar sign, of 655 code units together. *)
Lemma dollar_block_template :
  exists T1 T2,
    code_block_html (mkCodeBlock (u "plaintext") (u "$`"))
    = T1 ++ u "$`" ++ T2 /\
    ~ In (ch "$") T1 /\ ~ In (ch "$") T2 /\ length T1 + length T2 = 655.
Proof.
  exists (firstn 629 (code_block_html (mkCodeBlock (u "plaintext") (u "$`")))),
         (skipn 631 (code_block_html (mkCodeBlock (u "plaintext") (u "$`")))).
  split; [vm_compute; reflexivity|].
  split; [apply no_char_forallb; vm_compute; reflexivity|].
  split; [apply no_char_forallb; vm_compute; reflexivity|].
  vm_compute. reflexivity.
Qed.

(** Extraction stores the twenty blocks, and the text that goes into the
    restoration is one paragraph with the twenty sentinels on lines of
    their own. *)
Lemma dollar_blocks_store :
  snd (extract (dollar_blocks 20) empty_store)
  = mkStore (repeat (mkCodeBlock (u "plaintext") (u "$`")) 20) [] [].
Proof. vm_compute. reflexivity. Qed.

Lemma dollar_blocks_paragraph :
  paragraphs (format_spans (format_blocks
    (escapeHtml (fst (extract (dollar_blocks 20) empty_store)))))
  = u "<p" ++ ch ">" :: placeholder CODEBLOCK 0 ++ after_sentinel 1 19.
Proof. vm_compute. reflexivity. Qed.

Lemma dollar_blocks_apart :
  sentinels_apart 0 19 = true /\
  forallb (fun j => length (placeholder CODEBLOCK j) <=? 655) (seq 0 20)
  = true.
Proof. split; vm_compute; reflexivity. Qed.

(** The text after the restoration of the twenty blocks. *)
Lemma dollar_blocks_restored :
  (694156653
   <= N.of_nat
        (length
           (restore (snd (extract (dollar_blocks 20) empty_store))
              (paragraphs (format_spans (format_blocks
                 (escapeHtml (fst (extract (dollar_blocks 20)
                                     empty_store)))))))))%N.
Proof.
  rewrite dollar_blocks_store, dollar_blocks_paragraph.
  unfold restore. cbn [inlineCodes tables codeBlocks restore_loop].
  destruct dollar_block_template as (T1 & T2 & HT & H1 & H2 & HL).
  destruct dollar_blocks_apart as [Ha Hs].
  replace 694156653%N with (grown 19 (N.of_nat (length (u "<p"))))
    by (vm_compute; reflexivity).
  apply (@restore_grows (mkCodeBlock (u "plaintext") (u "$`")) T1 T2
           HT H1 H2 HL 19 0 (u "<p") Ha Hs).
Qed.

Lemma dollar_blocks_stored :
  codeBlocks (snd (extract (dollar_blocks 20) empty_store)) <> [].
Proof. rewrite dollar_blocks_store. discriminate. Qed.

Lemma throws_when_long limit text x :
  truthy text = true -> In x (parseMarkdown_built text) ->
  (limit < N.of_nat (length x))%N ->
  parseMarkdown_js limit (VString text) = Throws.
Proof.
  intros T Hin Hl. unfold parseMarkdown_js. cbn [falsy]. rewrite T.
  cbn [negb].
  destruct (forallb (within limit) (parseMarkdown_built text)) eqn:F;
    [exfalso|reflexivity].
  rewrite forallb_forall in F. apply F in Hin. unfold within in Hin.
  apply N.leb_le in Hin. lia.
Qed.

Lemma dollar_blocks_throws limit :
  (limit < 694156653)%N ->
  parseMarkdown_js limit (VString (dollar_blocks 20)) = Throws.
Proof.
  intros Hl.
  apply (@throws_when_long limit (dollar_blocks 20) _ eq_refl
           (@built_restored (dollar_blocks 20) eq_refl dollar_blocks_stored)).
  eapply N.lt_le_trans; [exact Hl|exact dollar_blocks_restored].
Qed.

(** C2 (code defect).  parseMarkdown returns the empty string for every
    falsy value, no search of a pattern uses up the bound of a quantifier
    loop, and for every string there is a string length from which on the
    call returns; what it returns is the text parseMarkdown computes.  It
    does not return for every string on an engine with a greatest string
    length: the restoration loops hand the code of a block to [replace]
    as a replacement text, and [$`] in it stands for the text before the
    match, so each of the twenty blocks of the text [dollar_blocks 20], of
    219 code units, doubles the output.  The last restoration asks for a
    string of 694156653 code units or more; on an engine that has no such
    string (V8 has none beyond 536870888) the call throws. *)
Theorem parseMarkdown_throws_past_string_length :
  length (dollar_blocks 20) = 219 /\
  (forall limit, (limit < 694156653)%N ->
     parseMarkdown_js limit (VString (dollar_blocks 20)) = Throws) /\
  (forall limit s out,
     parseMarkdown_js limit (VString s) = Returns out ->
     out = parseMarkdown s /\
     forall x, In x (parseMarkdown_built s) -> within limit x = true) /\
  (forall s, exists limit0, forall limit, (limit0 <= limit)%N ->
     parseMarkdown_js limit (VString s) = Returns (parseMarkdown s)) /\
  (forall s, truthy s = true ->
     last (parseMarkdown_built s) [] = parseMarkdown s) /\
  (forall limit v, falsy v = true -> parseMarkdown_js limit v = Returns []) /\
  (forall r before after, mt r (MState before after []) Found <> Fuel).
Proof.
  split; [reflexivity|].
  split; [exact dollar_blocks_throws|].
  split.
  { intros limit s out H. apply parseMarkdown_js_sound in H.
    destruct H as [E F]. split; [|exact F].
    rewrite E. destruct (truthy s) eqn:T; [reflexivity|].
    unfold parseMarkdown, parseMarkdown_st. rewrite T. reflexivity. }
  split.
  { intros s.
    exists (N.of_nat (list_max (map (@length char) (parseMarkdown_built s)))).
    intros limit H. apply parseMarkdown_js_returns. exact H. }
  split; [exact parseMarkdown_built_last|].
  split.
  { intros limit v H. unfold parseMarkdown_js. rewrite H. reflexivity. }
  intros r before after. apply mt_no_fuel. intros st. discriminate.
Qed.

(** The greatest string length of V8. *)
Lemma parseMarkdown_throws_witness :
  (536870888 < 694156653)%N /\
  parseMarkdown_js 536870888 (VString (dollar_blocks 20)) = Throws.
Proof.
  split; [reflexivity|].
  apply (proj1 (proj2 parseMarkdown_throws_past_string_length) 536870888%N).
  reflexivity.
Defined.
